(** * Upgrade-step consolidation (src/lib data layer): a shallow embedding

    The development follows [JsonUpgradeStepRepository]: the catalog is
    filtered to the requested window, consolidated by step type, then by
    affected file, and finally sorted.

    Modelling conventions.
    - A JavaScript [number] is a finite rational ([Q]), the value of a
      finite double; comparisons and the sign of a difference are exact on
      finite doubles.  A result that can be NaN is an [option Q], with
      [None] for NaN.
    - An object literal used as a table is the finite map of its own keys
      together with the names it inherits from [Object.prototype].
    - A JavaScript string is a [string] whose characters are code units
      below 128; [trim], [toLowerCase], [\d] and [\s] are given on them.
    - A [Map] or [Set] iterated in insertion order is an association list or
      a duplicate-free list in insertion order; the set of hashes that is
      only probed is a [gset].
    - A promise is its completion: a returned value or a thrown error. *)

From Stdlib Require Import List String Ascii ZArith QArith Qround Lqa Bool.
From Stdlib Require Import Permutation Sorted Lia DecimalString.
From stdpp Require Import gmap strings.
Import ListNotations.

Open Scope string_scope.

(** ** JavaScript strings *)

Module JS.

Definition chars (s : string) : list ascii := list_ascii_of_string s.
Definition str (l : list ascii) : string := string_of_list_ascii l.

Definition code (c : ascii) : nat := nat_of_ascii c.

Definition isDigit (c : ascii) : bool :=
  Nat.leb 48 (code c) && Nat.leb (code c) 57.

(** White space of [trim] and of the class [\s]: TAB, LF, VT, FF, CR, SP. *)
Definition isWhiteSpace (c : ascii) : bool :=
  (Nat.leb 9 (code c) && Nat.leb (code c) 13) || Nat.eqb (code c) 32.

Definition lowerChar (c : ascii) : ascii :=
  if Nat.leb 65 (code c) && Nat.leb (code c) 90
  then ascii_of_nat (code c + 32) else c.

Definition upperChar (c : ascii) : ascii :=
  if Nat.leb 97 (code c) && Nat.leb (code c) 122
  then ascii_of_nat (code c - 32) else c.

Fixpoint trimStartL (l : list ascii) : list ascii :=
  match l with
  | c :: r => if isWhiteSpace c then trimStartL r else l
  | [] => []
  end.

Definition trimEndL (l : list ascii) : list ascii := rev (trimStartL (rev l)).
Definition trimL (l : list ascii) : list ascii := trimEndL (trimStartL l).

Definition trim (s : string) : string := str (trimL (chars s)).
Definition toLowerCase (s : string) : string := str (map lowerChar (chars s)).

Fixpoint isPrefixL (p l : list ascii) : bool :=
  match p, l with
  | [], _ => true
  | a :: p', b :: l' => Ascii.eqb a b && isPrefixL p' l'
  | _ :: _, [] => false
  end.

Definition startsWith (s p : string) : bool := isPrefixL (chars p) (chars s).
Definition endsWith (s p : string) : bool :=
  isPrefixL (rev (chars p)) (rev (chars s)).

(** [s.replace(p, r)] with a string pattern: the first occurrence only. *)
Fixpoint replaceStrL (p r l : list ascii) : list ascii :=
  if isPrefixL p l then r ++ skipn (length p) l
  else match l with
       | [] => []
       | c :: l' => c :: replaceStrL p r l'
       end.

Definition replaceStr (s p r : string) : string :=
  str (replaceStrL (chars p) (chars r) (chars s)).

(** [s.split('\n')]: never empty, the empty string gives one empty line. *)
Fixpoint splitL (sep : ascii) (cur : list ascii) (l : list ascii) : list (list ascii) :=
  match l with
  | [] => [rev cur]
  | c :: l' => if Ascii.eqb c sep then rev cur :: splitL sep [] l'
               else splitL sep (c :: cur) l'
  end.

Definition splitLines (s : string) : list string :=
  map str (splitL "010"%char [] (chars s)).

Fixpoint join (sep : string) (l : list string) : string :=
  match l with
  | [] => ""
  | [x] => x
  | x :: r => x ++ sep ++ join sep r
  end.

(** A string is truthy unless it is empty; an absent field is falsy. *)
Definition truthy (s : string) : bool :=
  match s with EmptyString => false | _ => true end.

Definition truthyOpt (o : option string) : bool :=
  match o with Some s => truthy s | None => false end.

(** *** Numbers as text

    [`${x}`] is [Number::toString]: the fewest digits that read back as the
    double [x], set out plainly or, for a decimal exponent above 21 or
    below -6, with an exponent.  A rational that is not itself a double is
    printed as the double nearest to it, which is what its literal
    denotes. *)

Definition digitsOfZ (z : Z) : string := NilZero.string_of_int (Z.to_int z).

(** [base^p] for any integer [p]. *)
Definition scale (base : Z) (p : Z) : Q :=
  if (p <? 0)%Z then 1 # Z.to_pos (base ^ (- p)) else inject_Z (base ^ p).

(** The integer nearest to [q >= 0], the even one of two equally near. *)
Definition roundHalfEven (q : Q) : Z :=
  let f := Qfloor q in
  let r := (q - inject_Z f)%Q in
  match (r ?= 1 # 2)%Q with
  | Lt => f
  | Gt => (f + 1)%Z
  | Eq => if Z.even f then f else (f + 1)%Z
  end.

(** [e] with [2^e <= q < 2^(e+1)], for [q > 0]. *)
Definition binade (q : Q) : Z :=
  let e := (Z.log2 (Qnum q) - Z.log2 (Z.pos (Qden q)))%Z in
  if Qle_bool (scale 2 e) q then e else (e - 1)%Z.

(** The double nearest to [q > 0]: 53 significant bits, exponents down to
    the subnormal [2^-1074]; [None] is the overflow to [Infinity]. *)
Definition toDouble (q : Q) : option Q :=
  let p := Z.max (binade q - 52) (-1074) in
  let x := (inject_Z (roundHalfEven (q / scale 2 p)) * scale 2 p)%Q in
  if Qle_bool (scale 2 1024) x then None else Some x.

(** The number of decimal digits of [z > 0]. *)
Definition decimalLength (z : Z) : Z := Z.of_nat (String.length (digitsOfZ z)).

(** [n] with [10^(n-1) <= x < 10^n], for [x > 0]. *)
Definition magnitude (x : Q) : Z :=
  if Qle_bool 1 x then decimalLength (Qfloor x)
  else (1 - decimalLength (Qceiling (/ x) - 1))%Z.

(** The decimal [s * 10^e] denotes the double [x]. *)
Definition readsBack (x : Q) (s e : Z) : bool :=
  match toDouble (inject_Z s * scale 10 e) with
  | Some y => Qeq_bool y x
  | None => false
  end.

(** The digits [s] and their number [k], as few as read back as [x],
    beginning the search at [k] digits; of two candidates the nearer one,
    and the even one when they are equally near.  Seventeen digits always
    read back. *)
Fixpoint shortest (fuel : nat) (k : Z) (x : Q) (n : Z) : Z * Z :=
  let lo := Qfloor (x / scale 10 (n - k)) in
  let hi := (lo + 1)%Z in
  match fuel with
  | O => (lo, k)
  | S fuel' =>
      let below := (x - inject_Z lo * scale 10 (n - k))%Q in
      let above := (inject_Z hi * scale 10 (n - k) - x)%Q in
      match readsBack x lo (n - k), readsBack x hi (n - k) with
      | true, true =>
          match (below ?= above)%Q with
          | Lt => (lo, k)
          | Gt => (hi, k)
          | Eq => if Z.even lo then (lo, k) else (hi, k)
          end
      | true, false => (lo, k)
      | false, true => (hi, k)
      | false, false => shortest fuel' (k + 1)%Z x n
      end
  end.

Fixpoint zeros (n : nat) : string :=
  match n with
  | O => ""
  | S n' => "0" ++ zeros n'
  end.

Definition exponentText (e : Z) : string :=
  (if (e <? 0)%Z then "e-" else "e+") ++ digitsOfZ (Z.abs e).

(** [Number::toString] of a double [x > 0]. *)
Definition positiveToString (x : Q) : string :=
  let n0 := magnitude x in
  let '(s0, k0) := shortest 17 1 x n0 in
  let '(s, k, n) :=
    if (s0 =? 10 ^ k0)%Z then (1%Z, 1%Z, (n0 + 1)%Z) else (s0, k0, n0) in
  let digits := digitsOfZ s in
  if ((k <=? n) && (n <=? 21))%Z then digits ++ zeros (Z.to_nat (n - k))
  else if ((0 <? n) && (n <=? 21))%Z then
    substring 0 (Z.to_nat n) digits ++ "."
      ++ substring (Z.to_nat n) (Z.to_nat (k - n)) digits
  else if ((-6 <? n) && (n <=? 0))%Z then "0." ++ zeros (Z.to_nat (- n)) ++ digits
  else if (k =? 1)%Z then digits ++ exponentText (n - 1)
  else substring 0 1 digits ++ "." ++ substring 1 (Z.to_nat (k - 1)) digits
         ++ exponentText (n - 1).

Definition numberToString (q : Q) : string :=
  match (q ?= 0)%Q with
  | Eq => "0"
  | Gt => match toDouble q with
          | Some x => positiveToString x
          | None => "Infinity"
          end
  | Lt => match toDouble (- q) with
          | Some x => "-" ++ positiveToString x
          | None => "-Infinity"
          end
  end.

(** *** Object literals as tables

    Indexing an object literal finds its own keys first and then the names
    of [Object.prototype].  What is stored under those is a function, or
    the prototype itself under "__proto__": an object, which is truthy and
    which arithmetic and comparisons read as NaN. *)

Definition objectPrototype : list string :=
  ["constructor"; "__defineGetter__"; "__defineSetter__"; "hasOwnProperty";
   "__lookupGetter__"; "__lookupSetter__"; "isPrototypeOf"; "propertyIsEnumerable";
   "toString"; "valueOf"; "__proto__"; "toLocaleString"].

Inductive looked (A : Type) : Type :=
  | Plain (a : A)
  | Inherited (name : string).
Arguments Plain {A} a.
Arguments Inherited {A} name.

(** [table[key] || fallback] *)
Definition indexOr {A} (truthy : A -> bool) (table : gmap string A) (key : string)
    (fallback : A) : looked A :=
  match table !! key with
  | Some a => Plain (if truthy a then a else fallback)
  | None =>
      if existsb (String.eqb key) objectPrototype then Inherited key
      else Plain fallback
  end.

(** A number is truthy unless it is zero. *)
Definition truthyNum (q : Q) : bool := negb (Qeq_bool q 0).

(** [a - b] and [a < b] where an operand may be an inherited object: the
    difference is then NaN and the comparison false. *)
Definition minus (a b : looked Q) : option Q :=
  match a, b with
  | Plain x, Plain y => Some (x - y)%Q
  | _, _ => None
  end.

End JS.

(** ** Regular expressions

    The patterns of the source are built from single characters, the classes
    [\d] and [\s], greedy [+] and [*] on a class, sequencing and a greedy
    optional group.  Matching is by backtracking with a continuation, as the
    language prescribes: a greedy repetition takes as much as it can and
    gives characters back only when the rest of the pattern fails. *)

Module RegExp.

Inductive atom : Type :=
  | AChar (c : ascii)
  | ADigit
  | ASpace.

Inductive regex : Type :=
  | Eps
  | Atom (a : atom)
  | Plus (a : atom)
  | Star (a : atom)
  | Seq (r1 r2 : regex)
  | Opt (r : regex).

(** The flag [i] compares characters after canonicalisation to upper case. *)
Definition atomb (ignoreCase : bool) (a : atom) (x : ascii) : bool :=
  match a with
  | AChar c => if ignoreCase then Ascii.eqb (JS.upperChar c) (JS.upperChar x)
               else Ascii.eqb c x
  | ADigit => JS.isDigit x
  | ASpace => JS.isWhiteSpace x
  end.

Section Matcher.
Context {R : Type}.
Variable ignoreCase : bool.

Fixpoint star (a : atom) (s : list ascii) (k : list ascii -> option R) : option R :=
  match s with
  | c :: s' =>
      if atomb ignoreCase a c then
        match star a s' k with
        | Some x => Some x
        | None => k s
        end
      else k s
  | [] => k s
  end.

Definition plus (a : atom) (s : list ascii) (k : list ascii -> option R) : option R :=
  match s with
  | c :: s' => if atomb ignoreCase a c then star a s' k else None
  | [] => None
  end.

Fixpoint run (r : regex) (s : list ascii) (k : list ascii -> option R) : option R :=
  match r with
  | Eps => k s
  | Atom a =>
      match s with
      | c :: s' => if atomb ignoreCase a c then k s' else None
      | [] => None
      end
  | Plus a => plus a s k
  | Star a => star a s k
  | Seq r1 r2 => run r1 s (fun s' => run r2 s' k)
  | Opt r1 =>
      match run r1 s k with
      | Some x => Some x
      | None => k s
      end
  end.
End Matcher.

(** A match starting at the head of [s]; the result is what follows it. *)
Definition matchHere (ignoreCase : bool) (r : regex) (s : list ascii) : option (list ascii) :=
  run ignoreCase r s Some.

(** Replacement of the leftmost match only (no flag [g]). *)
Fixpoint replaceFirstL (ic : bool) (r : regex) (rep s : list ascii) : list ascii :=
  match matchHere ic r s with
  | Some rest => rep ++ rest
  | None =>
      match s with
      | [] => []
      | c :: s' => c :: replaceFirstL ic r rep s'
      end
  end.

(** Replacement of every match, scanning left to right (flag [g]); [skip]
    counts the characters of the current match still to be passed over.  An
    empty match is followed by a step of one character. *)
Fixpoint replaceAllL (ic : bool) (r : regex) (rep : list ascii) (skip : nat)
    (s : list ascii) : list ascii :=
  match skip with
  | S n =>
      match s with
      | [] => []
      | _ :: s' => replaceAllL ic r rep n s'
      end
  | O =>
      match matchHere ic r s with
      | Some rest =>
          rep ++
          match s with
          | [] => []
          | c :: s' =>
              match (length s - length rest)%nat with
              | O => c :: replaceAllL ic r rep O s'
              | S n => replaceAllL ic r rep n s'
              end
          end
      | None =>
          match s with
          | [] => []
          | c :: s' => c :: replaceAllL ic r rep O s'
          end
      end
  end.

Record t : Type := mk { pattern : regex; global : bool; ignoreCase : bool }.

(** [s.replace(re, rep)]; the replacement texts of the source contain no
    [$] pattern. *)
Definition replace (s : string) (re : t) (rep : string) : string :=
  JS.str
    (if global re
     then replaceAllL (ignoreCase re) (pattern re) (JS.chars rep) O (JS.chars s)
     else replaceFirstL (ignoreCase re) (pattern re) (JS.chars rep) (JS.chars s)).

(** [s.match(re)] for a pattern anchored by [^]: only the head is tried. *)
Definition matchesAtStart (s : string) (re : t) : bool :=
  match matchHere (ignoreCase re) (pattern re) (JS.chars s) with
  | Some _ => true
  | None => false
  end.

(** [s.replace(re, rep)] for a pattern anchored by [^]. *)
Definition replaceAtStart (s : string) (re : t) (rep : string) : string :=
  match matchHere (ignoreCase re) (pattern re) (JS.chars s) with
  | Some rest => JS.str (JS.chars rep ++ rest)
  | None => s
  end.

Fixpoint lit (l : list ascii) : regex :=
  match l with
  | [] => Eps
  | [c] => Atom (AChar c)
  | c :: l' => Seq (Atom (AChar c)) (lit l')
  end.

Definition text (s : string) : regex := lit (JS.chars s).

(** [\d+\.\d+(\.\d+)?] *)
Definition version : regex :=
  Seq (Plus ADigit)
    (Seq (Atom (AChar "."))
       (Seq (Plus ADigit)
          (Opt (Seq (Atom (AChar ".")) (Plus ADigit))))).

End RegExp.

(** ** Data model (src/types/upgrade-step.ts) *)

Record UpgradeStep : Type := mkStep {
  instruction : string;
  detailedDescription : string;
  from : Q;
  to : Q;
  stepType : option string;
  affectedFile : option string
}.

(** The completion of an [async] function: the promise resolves with a value
    or rejects with an error. *)
Inductive completion (A : Type) : Type :=
  | Returned (a : A)
  | Thrown (e : string).
Arguments Returned {A} a.
Arguments Thrown {A} e.

#[global] Instance completion_ret : MRet completion := fun A a => Returned a.

#[global] Instance completion_bind : MBind completion :=
  fun A B k c =>
    match c with
    | Returned a => k a
    | Thrown e => Thrown e
    end.

Definition tryCatch {A} (body : completion A) (handler : string -> completion A) : completion A :=
  match body with
  | Returned a => Returned a
  | Thrown e => handler e
  end.

(** ** Insertion-ordered containers *)

Module OMap.
Section Defs.
Context {V : Type}.

Definition t : Type := list (string * V).

Definition has (k : string) (m : t) : bool :=
  existsb (fun kv => String.eqb (fst kv) k) m.

(** [m.set(k, v)]: a new key goes last, a known key keeps its place. *)
Fixpoint set (k : string) (v : V) (m : t) : t :=
  match m with
  | [] => [(k, v)]
  | (k', v') :: m' =>
      if String.eqb k' k then (k', v) :: m' else (k', v') :: set k v m'
  end.

(** In-place update of the value stored under [k], as in
    [m.get(k)!.push(x)]. *)
Fixpoint update (k : string) (f : V -> V) (m : t) : t :=
  match m with
  | [] => []
  | (k', v) :: m' =>
      if String.eqb k' k then (k', f v) :: m' else (k', v) :: update k f m'
  end.
End Defs.
Arguments t V : clear implicits.
End OMap.

Module OSet.
Definition t : Type := list string.
Definition has (x : string) (s : t) : bool := existsb (String.eqb x) s.
Definition add (x : string) (s : t) : t := if has x s then s else (s ++ [x])%list.
Definition size (s : t) : nat := length s.
End OSet.

(** The grouping loop shared by both consolidation passes:
    [if (!m.has(k)) m.set(k, []); m.get(k)!.push(x)]. *)
Definition pushGroup {A} (k : string) (x : A) (m : OMap.t (list A)) : OMap.t (list A) :=
  OMap.update k (fun xs => (xs ++ [x])%list)
    (if OMap.has k m then m else OMap.set k [] m).

(** ** [Array.prototype.sort]

    The sort is stable; with a consistent comparator its result is the one
    of insertion from the right, where an element goes in front of the first
    element it does not exceed ([sort_unique] below: a sorted result that
    keeps the order of tied elements is this one).  A comparator's NaN is
    read as [+0].  With a comparator that is not consistent on the elements
    of the array the language leaves the order to the implementation, so
    the order is stated below only where the comparator is consistent. *)
Section Sort.
Context {A : Type}.
Variable cmp : A -> A -> Q.

Fixpoint insertSorted (x : A) (l : list A) : list A :=
  match l with
  | [] => [x]
  | y :: r => if Qle_bool (cmp x y) 0 then x :: l else y :: insertSorted x r
  end.

Definition sort (l : list A) : list A := fold_right insertSorted [] l.
End Sort.

(** The value the sort takes from a call of the comparator. *)
Definition sortCompare {A} (comparefn : A -> A -> option Q) (x y : A) : Q :=
  match comparefn x y with
  | Some v => v
  | None => 0
  end.

(** ** Tables and patterns of the repository *)

(** The priority table of the source (its two copies agree). *)
Definition priorities : gmap string Q :=
  {[ "package-update" := 1%Q; "dependencies" := 2%Q; "configuration" := 3%Q;
     "code-update" := 4%Q; "testing" := 5%Q; "deployment" := 6%Q ]}.

(** The declared result is a number; for a type named like a property of
    [Object.prototype] the lookup finds that property and [|| 10] keeps
    it. *)
Definition getStepTypePriority (stepType : option string) : JS.looked Q :=
  JS.indexOr JS.truthyNum priorities
    (if JS.truthyOpt stepType then default "" stepType else "default") 10%Q.

Definition shouldConsolidate (stepType : string) : bool :=
  existsb (String.eqb stepType) ["package-update"; "dependencies"; "configuration"].

Import RegExp.

(** [/to \d+\.\d+(\.\d+)?/] and its flagged variants *)
Definition reTo (g i : bool) : RegExp.t := mk (Seq (text "to ") version) g i.
(** [/version \d+\.\d+(\.\d+)?/] *)
Definition reVersionWord (g i : bool) : RegExp.t := mk (Seq (text "version ") version) g i.
(** [/\d+\.\d+(\.\d+)?/] *)
Definition reVersion (g : bool) : RegExp.t := mk version g false.
(** [/@\^\d+\.\d+(\.\d+)?/g] *)
Definition reCaret : RegExp.t := mk (Seq (text "@^") version) true false.
(** [/^\d+\.\s*\*\*/] *)
Definition reNumberedBold : RegExp.t :=
  mk (Seq (Plus ADigit) (Seq (Atom (AChar ".")) (Seq (Star ASpace) (text "**")))) false false.
(** [/^\d+\.\s*/] *)
Definition reNumberPrefix : RegExp.t :=
  mk (Seq (Plus ADigit) (Seq (Atom (AChar ".")) (Star ASpace))) false false.
(** [/\*\*/g] *)
Definition reBold : RegExp.t := mk (text "**") true false.
(** [/^\d+\./] *)
Definition reNumbered : RegExp.t :=
  mk (Seq (Plus ADigit) (Atom (AChar "."))) false false.

(** ** The range filter (first statement of [getUpgradeSteps]) *)

Definition inWindow (fromVersion toVersion : Q) (step : UpgradeStep) : bool :=
  Qle_bool fromVersion (from step) && Qle_bool (to step) toVersion.

Definition relevantSteps (allSteps : list UpgradeStep) (fromVersion toVersion : Q)
  : list UpgradeStep :=
  List.filter (inWindow fromVersion toVersion) allSteps.

(** ** Package updates *)

Definition qmin (a b : Q) : Q := if Qle_bool a b then a else b.

(** [Math.min(x, ...rest)] *)
Definition mathMin (x : Q) (rest : list Q) : Q := fold_left qmin rest x.

Definition consolidatePackageUpdates (packageSteps : list UpgradeStep) (targetVersion : Q)
  : option UpgradeStep :=
  match packageSteps with
  | [] => None
  | firstStep :: others =>
      let minVersion := mathMin (from firstStep) (map from others) in
      let baseInstruction :=
        replace (replace (instruction firstStep) (reTo false false) "")
                (reVersion false) "" in
      let consolidatedInstruction :=
        JS.trim baseInstruction ++ " to " ++ JS.numberToString targetVersion in
      let updatedDetailedDescription :=
        replace
          (replace
             (replace (detailedDescription firstStep) reCaret
                ("@^" ++ JS.numberToString targetVersion))
             (reVersionWord true false) ("version " ++ JS.numberToString targetVersion))
          (reTo true false) ("to " ++ JS.numberToString targetVersion) in
      Some {| instruction := consolidatedInstruction;
              detailedDescription := updatedDetailedDescription;
              from := minVersion;
              to := targetVersion;
              stepType := stepType firstStep;
              affectedFile := None |}
  end.

(** ** File consolidation: instruction, description and type of a merge *)

Definition baseInstructionOf (step : UpgradeStep) : string :=
  JS.trim
    (replace
       (replace (replace (instruction step) (reTo true true) "")
          (reVersionWord true true) "")
       (reVersion true) "").

Definition getUniqueInstructions (steps : list UpgradeStep) : list string :=
  fold_left
    (fun (instructions : OSet.t) step =>
       let baseInstruction := baseInstructionOf step in
       if JS.truthy baseInstruction then OSet.add baseInstruction instructions
       else instructions)
    steps [].

Definition createConsolidatedInstruction (instructions : list string) (fileName : string)
  : string :=
  if Nat.eqb (length instructions) 1
  then "Update " ++ fileName ++ " configuration"
  else "Update " ++ fileName ++ " with multiple configuration changes".

(** [sections.get(name)!.add(line)] for every line of [content], after the
    section has been created when it was missing. *)
Definition saveSection (sections : OMap.t OSet.t) (currentSection : string)
    (currentContent : OSet.t) : OMap.t OSet.t :=
  if Nat.ltb 0 (OSet.size currentContent) then
    fold_left
      (fun m content => OMap.update currentSection (OSet.add content) m)
      currentContent
      (if OMap.has currentSection sections then sections
       else OMap.set currentSection [] sections)
  else sections.

Definition isSectionHeader (trimmedLine : string) : bool :=
  matchesAtStart trimmedLine reNumberedBold
  || (JS.startsWith trimmedLine "**" && JS.endsWith trimmedLine "**").

(** One line of a description; the state is the section map, the name of
    the current section and its content so far. *)
Definition scanLine (st : OMap.t OSet.t * string * OSet.t) (line : string)
  : OMap.t OSet.t * string * OSet.t :=
  let '(sections, currentSection, currentContent) := st in
  let trimmedLine := JS.trim line in
  if isSectionHeader trimmedLine then
    (saveSection sections currentSection currentContent,
     JS.toLowerCase (replace (replaceAtStart trimmedLine reNumberPrefix "") reBold ""),
     [])
  else if Nat.ltb 0 (String.length trimmedLine) then
    (sections, currentSection, OSet.add trimmedLine currentContent)
  else st.

Definition scanStep (sections : OMap.t OSet.t) (step : UpgradeStep) : OMap.t OSet.t :=
  let '(sections', currentSection, currentContent) :=
    fold_left scanLine (JS.splitLines (detailedDescription step))
      (sections, "general", []) in
  saveSection sections' currentSection currentContent.

Definition keepLine (line : string) : bool :=
  negb (JS.startsWith line "```") && negb (matchesAtStart line reNumbered).

Definition emitSection (st : list string * Z) (section : string * OSet.t)
  : list string * Z :=
  let '(consolidatedSections, sectionIndex) := st in
  let '(sectionName, content) := section in
  let '(withHeader, sectionIndex') :=
    if negb (String.eqb sectionName "general")
    then ((consolidatedSections
             ++ [JS.digitsOfZ sectionIndex +:+ ". **" +:+ sectionName +:+ "**:"])%list,
          (sectionIndex + 1)%Z)
    else (consolidatedSections, sectionIndex) in
  ((withHeader ++ List.filter keepLine content ++ [""])%list, sectionIndex').

Definition mergeDetailedDescriptions (steps : list UpgradeStep) : string :=
  let sections := fold_left scanStep steps [] in
  let '(consolidatedSections, _) := fold_left emitSection sections ([], 1%Z) in
  JS.trim (JS.join (String "010"%char "") consolidatedSections).

Definition typePriority : gmap string Q := priorities.

(** [highestPriority] starts at [Infinity], here [None]; an inherited
    object is never less than it. *)
Definition getMostImportantStepType (steps : list UpgradeStep) : string :=
  let '(mostImportantType, _) :=
    fold_left
      (fun (st : string * option Q) step =>
         let '(mostImportantType, highestPriority) := st in
         match stepType step with
         | Some ty =>
             if JS.truthy ty then
               match JS.indexOr JS.truthyNum typePriority ty 10%Q with
               | JS.Plain priority =>
                   if match highestPriority with
                      | None => true
                      | Some h => negb (Qle_bool h priority)
                      end
                   then (ty, Some priority)
                   else st
               | JS.Inherited _ => st
               end
             else st
         | None => st
         end)
      steps ("", None) in
  if JS.truthy mostImportantType then mostImportantType else "configuration".

Definition byFrom (a b : UpgradeStep) : Q := from a - from b.

Definition consolidateFileSteps (fileSteps : list UpgradeStep) (fileName : string)
  : option UpgradeStep :=
  let sortedSteps := sort byFrom fileSteps in
  match sortedSteps with
  | [] => None
  | firstStep :: _ =>
      let lastStep := List.last sortedSteps firstStep in
      let uniqueInstructions := getUniqueInstructions sortedSteps in
      let consolidatedInstruction :=
        createConsolidatedInstruction uniqueInstructions fileName in
      let consolidatedDescription := mergeDetailedDescriptions sortedSteps in
      Some {| instruction := consolidatedInstruction;
              detailedDescription := consolidatedDescription;
              from := from firstStep;
              to := to lastStep;
              stepType := Some (getMostImportantStepType sortedSteps);
              affectedFile := Some fileName |}
  end.

(** The key a step is grouped under, if it is grouped at all. *)
Definition fileKey (step : UpgradeStep) : option string :=
  if JS.truthyOpt (affectedFile step) then affectedFile step else None.

Definition groupSteps (key : UpgradeStep -> option string) (steps : list UpgradeStep)
  : OMap.t (list UpgradeStep) * list UpgradeStep :=
  fold_left
    (fun (st : OMap.t (list UpgradeStep) * list UpgradeStep) step =>
       let '(groups, others) := st in
       match key step with
       | Some k => (pushGroup k step groups, others)
       | None => (groups, (others ++ [step])%list)
       end)
    steps ([], []).

Definition emitFileGroup (group : string * list UpgradeStep) : list UpgradeStep :=
  let '(fileName, fileSteps) := group in
  match fileSteps with
  | [only] => [only]
  | _ =>
      match consolidateFileSteps fileSteps fileName with
      | Some consolidated => [consolidated]
      | None => []
      end
  end.

Definition consolidateByAffectedFile (steps : list UpgradeStep) : list UpgradeStep :=
  let '(stepsByFile, stepsWithoutFiles) := groupSteps fileKey steps in
  (flat_map emitFileGroup stepsByFile ++ stepsWithoutFiles)%list.

(** ** Ordering *)

(** The comparator of the final sort; [NaN !== 0] holds, so a NaN
    difference of the priorities is returned as it is. *)
Definition compareSteps (a b : UpgradeStep) : option Q :=
  match JS.minus (getStepTypePriority (stepType a)) (getStepTypePriority (stepType b)) with
  | None => None
  | Some typePriority =>
      if negb (Qeq_bool typePriority 0) then Some typePriority
      else if negb (Qeq_bool (from a) (from b)) then Some (from a - from b)%Q
      else Some (to a - to b)%Q
  end.

(** ** The repository

    Two things come from outside the sources: the MD5 digest of the [crypto]
    module and the two JSON catalogs, which the module imports when it is
    loaded and which its functions then find bound. *)

Definition nextjsPath : string := "../data/nextjs-upgrade-steps.json".
Definition angularPath : string := "../data/angular-upgrade-steps.json".

Definition frameworkKey (framework : string) : string :=
  JS.replaceStr (JS.toLowerCase framework) "." "".

Section Repository.
Variable md5 : string -> string.
Variables nextjsSteps angularSteps : list UpgradeStep.

Definition hashInstruction (instruction : string) : string :=
  md5 (JS.toLowerCase (JS.trim instruction)).

(** The filter callback reads and extends [seenInstructions]. *)
Fixpoint removeDuplicatesFrom (seenInstructions : gset string)
    (steps : list UpgradeStep) : list UpgradeStep :=
  match steps with
  | [] => []
  | step :: rest =>
      let hash := hashInstruction (instruction step) in
      if bool_decide (hash ∈ seenInstructions)
      then removeDuplicatesFrom seenInstructions rest
      else step :: removeDuplicatesFrom ({[hash]} ∪ seenInstructions) rest
  end.

Definition removeDuplicateInstructions (steps : list UpgradeStep) : list UpgradeStep :=
  removeDuplicatesFrom ∅ steps.

Definition typeKey (step : UpgradeStep) : option string :=
  match stepType step with
  | Some ty => if JS.truthy ty && shouldConsolidate ty then Some ty else None
  | None => None
  end.

Definition emitTypeGroup (targetVersion : Q) (group : string * list UpgradeStep)
  : list UpgradeStep :=
  let '(stepType, typeSteps) := group in
  if String.eqb stepType "package-update" then
    match consolidatePackageUpdates typeSteps targetVersion with
    | Some consolidated => [consolidated]
    | None => []
    end
  else removeDuplicateInstructions typeSteps.

Definition consolidateByType (steps : list UpgradeStep) (targetVersion : Q)
  : list UpgradeStep :=
  let '(stepsByType, nonConsolidatedSteps) := groupSteps typeKey steps in
  (flat_map (emitTypeGroup targetVersion) stepsByType ++ nonConsolidatedSteps)%list.

Definition consolidateSimilarSteps (steps : list UpgradeStep) (targetVersion : Q)
  : list UpgradeStep :=
  let typeConsolidatedSteps := consolidateByType steps targetVersion in
  let fileConsolidatedSteps := consolidateByAffectedFile typeConsolidatedSteps in
  fileConsolidatedSteps.

Definition loadStepsFromFile (framework : string) : completion (list UpgradeStep) :=
  let frameworkKey := frameworkKey framework in
  tryCatch
    (if String.eqb frameworkKey "nextjs" then Returned nextjsSteps
     else if String.eqb frameworkKey "angular" then Returned angularSteps
     else Returned [])
    (fun _ => Returned []).

(** The stages after the catalog has been chosen. *)
Definition pipeline (allSteps : list UpgradeStep) (fromVersion toVersion : Q)
  : list UpgradeStep :=
  let relevantSteps := relevantSteps allSteps fromVersion toVersion in
  let consolidatedSteps := consolidateSimilarSteps relevantSteps toVersion in
  sort (sortCompare compareSteps) consolidatedSteps.

Definition getUpgradeSteps (framework : string) (fromVersion toVersion : Q)
  : completion (list UpgradeStep) :=
  allSteps ← loadStepsFromFile framework;
  mret (pipeline allSteps fromVersion toVersion).

Definition hasUpgradePath (framework : string) (fromVersion toVersion : Q)
  : completion bool :=
  steps ← getUpgradeSteps framework fromVersion toVersion;
  mret (Nat.ltb 0 (length steps)).
End Repository.

(** The imports at the head of the module are evaluated before any of its
    functions can be called.  When reading a catalog throws there, the
    module has no exports: the error goes to whoever imports the module,
    and no [try] block of the module is entered. *)
Definition importing {A} (import : string -> completion (list UpgradeStep))
    (call : list UpgradeStep -> list UpgradeStep -> completion A) : completion A :=
  nextjsSteps ← import nextjsPath;
  angularSteps ← import angularPath;
  call nextjsSteps angularSteps.

(** * Specification vocabulary and sample inputs *)

Open Scope list_scope.

(** ** Orders given by a comparator *)

(** [x] does not come after [y]: the comparator is not positive. *)
Definition cmpLe {A : Type} (cmp : A -> A -> Q) (x y : A) : Prop := (cmp x y <= 0)%Q.

(** [x] and [y] are tied: neither comes after the other. *)
Definition cmpTied {A : Type} (cmp : A -> A -> Q) (x y : A) : bool :=
  Qle_bool (cmp x y) 0 && Qle_bool (cmp y x) 0.

(** ** Groups *)

(** The step is grouped under the key [k]. *)
Definition keyIs (key : UpgradeStep -> option string) (k : string) (step : UpgradeStep)
  : bool :=
  match key step with
  | Some k' => String.eqb k' k
  | None => false
  end.

(** The step is not grouped: it goes to the list of the other steps. *)
Definition unkeyed (key : UpgradeStep -> option string) (step : UpgradeStep) : bool :=
  match key step with
  | Some _ => false
  | None => true
  end.

(** What the map holds after the grouping loop: every key once, under it
    the steps of that key in input order, and no key missing. *)
Record Grouped (key : UpgradeStep -> option string) (steps : list UpgradeStep)
    (groups : OMap.t (list UpgradeStep)) : Prop := {
  grouped_nodup : List.NoDup (map fst groups);
  grouped_members : forall k g, In (k, g) groups ->
                      g <> [] /\ g = List.filter (keyIs key k) steps;
  grouped_complete : forall s k, In s steps -> key s = Some k ->
                      In k (map fst groups)
}.

(** ** Subsequences chosen by a property *)

(** [Selected P l r]: [r] consists of the elements of [l] that satisfy [P],
    each as often as in [l] and in the order of [l]. *)
Inductive Selected {A : Type} (P : A -> Prop) : list A -> list A -> Prop :=
  | Selected_nil : Selected P [] []
  | Selected_keep x l r : P x -> Selected P l r -> Selected P (x :: l) (x :: r)
  | Selected_drop x l r : ~ P x -> Selected P l r -> Selected P (x :: l) r.

(** ** The window *)

(** The step lies within the requested window. *)
Definition contained (fromVersion toVersion : Q) (step : UpgradeStep) : Prop :=
  (fromVersion <= from step)%Q /\ (to step <= toVersion)%Q.

(** The invariant of the data model. *)
Definition wellFormed (step : UpgradeStep) : Prop := (from step <= to step)%Q.

(** ** Duplicates *)

(** The text that is hashed: the instruction, trimmed and in lower case. *)
Definition normalized (step : UpgradeStep) : string :=
  JS.toLowerCase (JS.trim (instruction step)).

(** [KeepsFirst earlier steps kept]: going through [steps] after [earlier],
    a step is kept exactly when no step before it has the same normalized
    instruction. *)
Inductive KeepsFirst : list UpgradeStep -> list UpgradeStep -> list UpgradeStep -> Prop :=
  | KeepsFirst_nil earlier : KeepsFirst earlier [] []
  | KeepsFirst_keep earlier s l r :
      (forall e, In e earlier -> normalized e <> normalized s) ->
      KeepsFirst (earlier ++ [s]) l r ->
      KeepsFirst earlier (s :: l) (s :: r)
  | KeepsFirst_drop earlier s l r :
      (exists e, In e earlier /\ normalized e = normalized s) ->
      KeepsFirst (earlier ++ [s]) l r ->
      KeepsFirst earlier (s :: l) r.

Definition dedupSample : list UpgradeStep :=
  [ mkStep "Add redirects config" "a" 13 14 (Some "configuration") None;
    mkStep "Enable strict mode" "b" 13 14 (Some "configuration") None;
    mkStep "  add Redirects CONFIG " "c" 14 15 (Some "configuration") None ].

(** ** Types and files *)

Definition packageUpdate : string := "package-update".

(** The step carries the type [ty]. *)
Definition typeIs (ty : string) (step : UpgradeStep) : bool :=
  match stepType step with
  | Some ty' => String.eqb ty' ty
  | None => false
  end.

(** The step names the file [fileName]. *)
Definition fileIs (fileName : string) (step : UpgradeStep) : bool :=
  match affectedFile step with
  | Some f => String.eqb f fileName
  | None => false
  end.

(** The test [if (step.affectedFile)]: a file is named and its name is not
    empty. *)
Definition hasFile (step : UpgradeStep) : bool := JS.truthyOpt (affectedFile step).

Definition fileSample : list UpgradeStep :=
  [ mkStep "Add redirects config" "x" 14 15 (Some "configuration") (Some "next.config.js");
    mkStep "Note the release" "y" 13 14 None None;
    mkStep "Add images config" "z" 13 14 (Some "code-update") (Some "next.config.js");
    mkStep "Tune the compiler" "w" 14 16 None (Some "next.config.js");
    mkStep "Set the target" "v" 13 14 None (Some "tsconfig.json") ].

Definition pipelineSample : list UpgradeStep :=
  [ mkStep "Update Next.js to 14.0" "npm install next@^14.0" 13 14 (Some "package-update") None;
    mkStep "Add redirects config" "x" 14 15 (Some "configuration") (Some "next.config.js");
    mkStep "Update Next.js to 15.0" "npm install next@^15.0" 14 15 (Some "package-update") None;
    mkStep "Add images config" "z" 13 14 (Some "code-update") (Some "next.config.js");
    mkStep "Run the test suite" "t" 13 15 (Some "testing") None ].

(** ** The sort key *)

(** The priority in the words of the specification: the fixed table, and
    10 for an unknown or absent type. *)
Definition priorityOfType (stepType : option string) : Q :=
  match stepType with
  | Some ty => default 10%Q (priorities !! ty)
  | None => 10%Q
  end.

Definition priorityOf (step : UpgradeStep) : Q := priorityOfType (stepType step).

(** The sort key [(priority, from, to)], compared lexicographically. *)
Definition keyLe (a b : UpgradeStep) : Prop :=
  (priorityOf a < priorityOf b)%Q
  \/ ((priorityOf a == priorityOf b)%Q
      /\ ((from a < from b)%Q
          \/ ((from a == from b)%Q /\ (to a <= to b)%Q))).

(** The two steps have the same key. *)
Definition sameKey (a b : UpgradeStep) : bool :=
  Qeq_bool (priorityOf a) (priorityOf b)
  && Qeq_bool (from a) (from b)
  && Qeq_bool (to a) (to b).

Definition knownTypes : list string :=
  ["package-update"; "dependencies"; "configuration"; "code-update"; "testing"; "deployment"].

(** The comparator of the key: the sign of the first difference among
    priority, [from] and [to]. *)
Definition keyCompare (a b : UpgradeStep) : Q :=
  if negb (Qeq_bool (priorityOf a - priorityOf b) 0) then (priorityOf a - priorityOf b)%Q
  else if negb (Qeq_bool (from a) (from b)) then from a - from b
  else to a - to b.

(** The type is named like a property of [Object.prototype]. *)
Definition inheritedName (stepType : option string) : bool :=
  match stepType with
  | Some ty => existsb (String.eqb ty) JS.objectPrototype
  | None => false
  end.

(** The step's type, if it has one, is not such a name. *)
Definition plainlyTyped (step : UpgradeStep) : Prop :=
  inheritedName (stepType step) = false.

(** A catalog with a step whose type is the name of an inherited
    property. *)
Definition inheritedTypeSample : list UpgradeStep :=
  [ mkStep "Review the constructor calls" "c" 14 15 (Some "constructor") None;
    mkStep "Run the test suite" "t" 13 14 (Some "testing") None ].

(** ** Framework identifiers *)

(** The normalization in the words of the specification: letter case and
    punctuation are ignored. *)
Definition isPunctuation (c : ascii) : bool :=
  let n := JS.code c in
  (Nat.leb 33 n && Nat.leb n 47) || (Nat.leb 58 n && Nat.leb n 64)
  || (Nat.leb 91 n && Nat.leb n 96) || (Nat.leb 123 n && Nat.leb n 126).

Definition specNormalize (framework : string) : string :=
  JS.str (List.filter (fun c => negb (isPunctuation c))
            (map JS.lowerChar (JS.chars framework))).

Definition supportedKey (k : string) : Prop := k = "nextjs" \/ k = "angular".

(** A reader of catalogs that finds the Next.JS catalog and not the
    Angular one. *)
Definition sampleRequire (path : string) : completion (list UpgradeStep) :=
  if String.eqb path nextjsPath then Returned pipelineSample
  else Thrown "Cannot find module".

(** ** Merged instructions *)

Definition updateConfiguration (fileName : string) : string :=
  "Update " +:+ fileName +:+ " configuration".

Definition updateMultiple (fileName : string) : string :=
  "Update " +:+ fileName +:+ " with multiple configuration changes".

(** The derivation in the words of the specification: every member's base
    instruction enters the set, empty or not. *)
Definition specBaseInstructions (steps : list UpgradeStep) : list string :=
  fold_left (fun (set : OSet.t) step => OSet.add (baseInstructionOf step) set) steps [].

Definition redirectsSample : list UpgradeStep :=
  [ mkStep "Add redirects config" "a" 13 14 (Some "configuration") (Some "next.config.js");
    mkStep "Add redirects config" "b" 14 15 (Some "configuration") (Some "next.config.js") ].

Definition versionOnlySample : list UpgradeStep :=
  [ mkStep "to 14.0" "a" 13 14 (Some "configuration") (Some "next.config.js");
    mkStep "to 14.0" "b" 14 15 (Some "configuration") (Some "next.config.js") ].

(** ** The meaning of the patterns *)

(** [Matches ic r m]: the text [m] belongs to the language of [r] (with the
    flag [i] when [ic] is set). *)
Inductive Matches (ic : bool) : regex -> list ascii -> Prop :=
  | Matches_Eps : Matches ic Eps []
  | Matches_Atom a c : atomb ic a c = true -> Matches ic (Atom a) [c]
  | Matches_Plus a c m :
      atomb ic a c = true -> Forall (fun x => atomb ic a x = true) m ->
      Matches ic (Plus a) (c :: m)
  | Matches_Star a m :
      Forall (fun x => atomb ic a x = true) m -> Matches ic (Star a) m
  | Matches_Seq r1 r2 m1 m2 :
      Matches ic r1 m1 -> Matches ic r2 m2 -> Matches ic (Seq r1 r2) (m1 ++ m2)
  | Matches_Opt_some r m : Matches ic r m -> Matches ic (Opt r) m
  | Matches_Opt_none r : Matches ic (Opt r) [].

(** A match begins at the head of [s]. *)
Definition MatchAt (ic : bool) (r : regex) (s : list ascii) : Prop :=
  exists m rest, s = m ++ rest /\ Matches ic r m.

(** [LongestMatch ic r m rest]: [m] is a text of [r] and no longer text of
    [r] begins [m ++ rest].  The greedy match of each version pattern of
    the source is the longest one ([version_longest] below). *)
Definition LongestMatch (ic : bool) (r : regex) (m rest : list ascii) : Prop :=
  Matches ic r m
  /\ forall m' rest', m ++ rest = m' ++ rest' -> Matches ic r m' ->
       (length m' <= length m)%nat.

(** [FirstReplaced ic r rep s out]: [out] is [s] with the leftmost match of
    [r], in its longest extent, replaced by [rep], or [s] itself when there
    is no match. *)
Inductive FirstReplaced (ic : bool) (r : regex) (rep : list ascii)
  : list ascii -> list ascii -> Prop :=
  | FirstReplaced_here m rest :
      LongestMatch ic r m rest -> FirstReplaced ic r rep (m ++ rest) (rep ++ rest)
  | FirstReplaced_later c s out :
      ~ MatchAt ic r (c :: s) -> FirstReplaced ic r rep s out ->
      FirstReplaced ic r rep (c :: s) (c :: out)
  | FirstReplaced_none : ~ MatchAt ic r [] -> FirstReplaced ic r rep [] [].

(** [EveryReplaced ic r rep s out]: scanning [s] from the left, every match
    of [r] found, in its longest extent, is replaced by [rep] and the scan
    goes on behind it; a character at which no match begins is kept. *)
Inductive EveryReplaced (ic : bool) (r : regex) (rep : list ascii)
  : list ascii -> list ascii -> Prop :=
  | EveryReplaced_nil : EveryReplaced ic r rep [] []
  | EveryReplaced_here m rest out :
      m <> [] -> LongestMatch ic r m rest -> EveryReplaced ic r rep rest out ->
      EveryReplaced ic r rep (m ++ rest) (rep ++ out)
  | EveryReplaced_skip c s out :
      ~ MatchAt ic r (c :: s) -> EveryReplaced ic r rep s out ->
      EveryReplaced ic r rep (c :: s) (c :: out).

(** The matcher finds the longest match of [r] wherever it finds one. *)
Definition GreedyIsLongest (ic : bool) (r : regex) : Prop :=
  forall s rest, matchHere ic r s = Some rest ->
    forall m' rest', s = m' ++ rest' -> Matches ic r m' ->
      (length rest <= length rest')%nat.

(** A pattern that can match the empty text. *)
Fixpoint nullable (r : regex) : bool :=
  match r with
  | Eps | Star _ | Opt _ => true
  | Atom _ | Plus _ => false
  | Seq r1 r2 => nullable r1 && nullable r2
  end.

(** [Trimmed l t]: [t] is [l] without its leading and trailing white
    space. *)
Definition Trimmed (l t : list ascii) : Prop :=
  exists pre post,
    l = pre ++ t ++ post
    /\ Forall (fun c => JS.isWhiteSpace c = true) pre
    /\ Forall (fun c => JS.isWhiteSpace c = true) post
    /\ (forall c r, t = c :: r -> JS.isWhiteSpace c = false)
    /\ (forall c r, t = r ++ [c] -> JS.isWhiteSpace c = false).

(** The patterns of the three phrases. *)
Definition toPhrase : regex := Seq (text "to ") version.

Definition versionPhrase : regex := Seq (text "version ") version.

Definition caretPhrase : regex := Seq (text "@^") version.

(** The two texts in the words of the specification: every phrase and
    every token is stripped from the instruction; in the description every
    phrase and every token, with or without "@^", becomes the target. *)
Definition specStripped (text : string) : string :=
  JS.trim (replace (replace text (reTo true false) "") (reVersion true) "").

Definition reOptionalCaret : RegExp.t := mk (Seq (Opt (text "@^")) version) true false.

Definition specRetargeted (text target : string) : string :=
  replace
    (replace (replace text (reTo true false) target) (reVersionWord true false) target)
    reOptionalCaret target.

Definition twoVersionsSample : UpgradeStep :=
  mkStep "Update next 13.0 and react 18.2" "Requires Node 18.17"
    13 14 (Some "package-update") None.

(** * Further code of the repository *)

(** ** The earlier data layer (src/unnamed/part_001)

    It reads the catalogs by [require] inside the [try] block and has no
    consolidation by file: its [consolidateSimilarSteps] is the body that
    the current layer calls [consolidateByType]. *)

Module Legacy.
Section Repository.
Variable md5 : string -> string.
Variable require : string -> completion (list UpgradeStep).

Definition loadStepsFromFile (framework : string) : completion (list UpgradeStep) :=
  let frameworkKey := frameworkKey framework in
  tryCatch
    (if String.eqb frameworkKey "nextjs" then require nextjsPath
     else if String.eqb frameworkKey "angular" then require angularPath
     else Returned [])
    (fun _ => Returned []).

Definition consolidateSimilarSteps (steps : list UpgradeStep) (targetVersion : Q)
  : list UpgradeStep :=
  let '(stepsByType, nonConsolidatedSteps) := groupSteps typeKey steps in
  (flat_map (emitTypeGroup md5 targetVersion) stepsByType ++ nonConsolidatedSteps)%list.

(** The stages after the catalog has been read. *)
Definition stages (allSteps : list UpgradeStep) (fromVersion toVersion : Q)
  : list UpgradeStep :=
  let relevantSteps := relevantSteps allSteps fromVersion toVersion in
  let consolidatedSteps := consolidateSimilarSteps relevantSteps toVersion in
  sort (sortCompare compareSteps) consolidatedSteps.

Definition getUpgradeSteps (framework : string) (fromVersion toVersion : Q)
  : completion (list UpgradeStep) :=
  allSteps ← loadStepsFromFile framework;
  mret (stages allSteps fromVersion toVersion).

Definition hasUpgradePath (framework : string) (fromVersion toVersion : Q)
  : completion bool :=
  steps ← getUpgradeSteps framework fromVersion toVersion;
  mret (Nat.ltb 0 (length steps)).
End Repository.
End Legacy.

(** ** The step card (src/components/UpgradeStep.tsx) *)





(** What [formatDetailedDescription] renders for one line: nothing, a
    heading, a list item, a line break or a paragraph. *)
Inductive rendered : Type :=
  | Skipped
  | Heading (text : string)
  | ListItem (text : string)
  | LineBreak
  | Paragraph (text : string).

(** [/^#+\s*/] *)
Definition reHashes : RegExp.t :=
  mk (Seq (Plus (AChar "#")) (Star ASpace)) false false.

(** The class [[\s\-\*]]. *)
Definition isBulletChar (c : ascii) : bool :=
  JS.isWhiteSpace c || Ascii.eqb c "-" || Ascii.eqb c "*".

Fixpoint dropBulletChars (l : list ascii) : list ascii :=
  match l with
  | c :: r => if isBulletChar c then dropBulletChars r else l
  | [] => []
  end.

(** [line.replace(/^[\s\-\*]+/, '')]: the pattern is anchored and nothing
    follows the repetition, so the match is the longest head of the line
    made of characters of the class. *)
Definition stripBullet (line : string) : string :=
  JS.str (dropBulletChars (JS.chars line)).

Definition formatLine (line : string) : rendered :=
  if JS.startsWith line "```" then Skipped
  else if JS.startsWith (JS.trim line) "#" then
    Heading (replaceAtStart line reHashes "")
  else if JS.startsWith (JS.trim line) "- " || JS.startsWith (JS.trim line) "* " then
    ListItem (stripBullet line)
  else if Nat.eqb (String.length (JS.trim line)) 0 then LineBreak
  else Paragraph line.

Definition formatDetailedDescription (description : string) : list rendered :=
  map formatLine (JS.splitLines description).

(** ** Vocabulary of the further properties *)

(** The test of the type-grouping loop: the step has a type that is
    consolidated. *)
Definition consolidatable (step : UpgradeStep) : bool :=
  match stepType step with
  | Some ty => JS.truthy ty && shouldConsolidate ty
  | None => false
  end.

(** The keys of the steps that have one, in input order. *)
Definition keysOf (key : UpgradeStep -> option string) (steps : list UpgradeStep)
  : list string :=
  flat_map (fun s => match key s with Some k => [k] | None => [] end) steps.

(** The keys in the order of their first occurrence, each once. *)
Definition firstKeys (key : UpgradeStep -> option string) (steps : list UpgradeStep)
  : list string :=
  rev (nodup string_dec (rev (keysOf key steps))).

(** The priority of a type that is not an inherited name, as
    [getMostImportantStepType] reads it. *)
Definition typePriorityOf (ty : string) : Q := priorityOfType (Some ty).

(** The lines that [mergeDetailedDescriptions] joins and trims. *)
Definition sectionsOf (steps : list UpgradeStep) : OMap.t OSet.t :=
  fold_left scanStep steps [].

Definition consolidatedSections (steps : list UpgradeStep) : list string :=
  fst (fold_left emitSection (sectionsOf steps) ([], 1%Z)).

(** A content line of a member's description: a line of it, trimmed, not
    empty and not a section header. *)
Definition contentLineOf (steps : list UpgradeStep) (line : string) : Prop :=
  exists step raw,
    In step steps
    /\ In raw (JS.splitLines (detailedDescription step))
    /\ line = JS.trim raw
    /\ line <> ""
    /\ isSectionHeader line = false.

(** The section map is in order: every name once, and under it lines
    that satisfy [P], each once. *)
Definition SectionsOk (P : string -> Prop) (sections : OMap.t OSet.t) : Prop :=
  List.NoDup (map fst sections)
  /\ forall name content, In (name, content) sections ->
       List.NoDup content /\ Forall P content.

(** The header line emitted for a section that is not the general one. *)
Definition headerLine (index : Z) (sectionName : string) : string :=
  JS.digitsOfZ index +:+ ". **" +:+ sectionName +:+ "**:".

(** ** Further sample inputs *)

Definition typedSample : list UpgradeStep :=
  [ mkStep "Pin the runtime" "a" 13 14 (Some "dependencies") None;
    mkStep "Add redirects config" "b" 13 14 (Some "configuration") None;
    mkStep "pin the runtime " "c" 14 15 (Some "dependencies") None;
    mkStep "Run the test suite" "d" 13 15 (Some "testing") None ].

(** * Properties *)

(** ** Sorting *)

Lemma last_In_cons {A} (x : A) (l : list A) (d : A) :
  In (List.last (x :: l) d) (x :: l).
Proof.
  revert x. induction l as [| y r IH]; intros x.
  - now left.
  - right. apply IH.
Qed.

Section SortFacts.
Context {A : Type}.
Variable cmp : A -> A -> Q.

Hypothesis cmp_total : forall x y, cmpLe cmp x y \/ cmpLe cmp y x.
Hypothesis cmp_trans : forall x y z, cmpLe cmp x y -> cmpLe cmp y z -> cmpLe cmp x z.

Lemma insertSorted_perm (x : A) (l : list A) :
  Permutation (x :: l) (insertSorted cmp x l).
Proof.
  induction l as [| y r IH]; simpl.
  - apply Permutation_refl.
  - destruct (Qle_bool (cmp x y) 0).
    + apply Permutation_refl.
    + eapply perm_trans; [apply perm_swap |].
      apply perm_skip, IH.
Qed.

Lemma sort_perm (l : list A) : Permutation l (sort cmp l).
Proof.
  induction l as [| x l IH]; simpl.
  - apply perm_nil.
  - eapply perm_trans; [apply perm_skip, IH |].
    apply insertSorted_perm.
Qed.

Lemma sort_length (l : list A) : length (sort cmp l) = length l.
Proof. symmetry. apply Permutation_length, sort_perm. Qed.

Lemma sort_In (l : list A) (x : A) : In x (sort cmp l) <-> In x l.
Proof.
  split; intros H.
  - eapply Permutation_in; [apply Permutation_sym, sort_perm | exact H].
  - eapply Permutation_in; [apply sort_perm | exact H].
Qed.

Lemma insertSorted_sorted (x : A) (l : list A) :
  StronglySorted (cmpLe cmp) l -> StronglySorted (cmpLe cmp) (insertSorted cmp x l).
Proof.
  induction l as [| y r IH]; intros Hs; simpl.
  - constructor; [constructor | constructor].
  - destruct (Qle_bool (cmp x y) 0) eqn:E.
    + apply Qle_bool_iff in E.
      constructor; [exact Hs |].
      constructor; [exact E |].
      apply StronglySorted_inv in Hs as [_ Hall].
      eapply List.Forall_impl; [| exact Hall].
      intros z Hz. eapply cmp_trans; [exact E | exact Hz].
    + assert (Hyx : cmpLe cmp y x).
      { destruct (cmp_total x y) as [Hxy | Hyx]; [| exact Hyx].
        apply Qle_bool_iff in Hxy. congruence. }
      apply StronglySorted_inv in Hs as [Hr Hall].
      constructor; [apply IH, Hr |].
      rewrite List.Forall_forall in *. intros z Hz.
      eapply Permutation_in in Hz;
        [| apply Permutation_sym, insertSorted_perm].
      destruct Hz as [<- | Hz]; [exact Hyx | apply Hall, Hz].
Qed.

Lemma sort_sorted (l : list A) : StronglySorted (cmpLe cmp) (sort cmp l).
Proof.
  induction l as [| x l IH]; simpl.
  - constructor.
  - apply insertSorted_sorted, IH.
Qed.

(** Stability: a class of mutually equal elements keeps its order. *)
Lemma insertSorted_filter (p : A -> bool) (x : A) (l : list A) :
  (forall a b, p a = true -> p b = true -> cmpLe cmp a b) ->
  List.filter p (insertSorted cmp x l) = List.filter p (x :: l).
Proof.
  intros Hp. induction l as [| y r IH]; simpl; [reflexivity |].
  destruct (Qle_bool (cmp x y) 0) eqn:E; [reflexivity |].
  simpl. rewrite IH. simpl.
  destruct (p x) eqn:Ex, (p y) eqn:Ey; try reflexivity.
  specialize (Hp x y Ex Ey). apply Qle_bool_iff in Hp. congruence.
Qed.

Lemma sort_stable (p : A -> bool) (l : list A) :
  (forall a b, p a = true -> p b = true -> cmpLe cmp a b) ->
  List.filter p (sort cmp l) = List.filter p l.
Proof.
  intros Hp. induction l as [| x l IH]; simpl; [reflexivity |].
  rewrite (insertSorted_filter p x (sort cmp l) Hp). simpl.
  now rewrite IH.
Qed.

Lemma sorted_head_least (x : A) (l : list A) :
  StronglySorted (cmpLe cmp) (x :: l) -> Forall (fun y => cmpLe cmp x y) l.
Proof. intros H. now apply StronglySorted_inv in H as [_ H]. Qed.

Lemma sorted_last_greatest (l : list A) (d : A) :
  StronglySorted (cmpLe cmp) l ->
  forall y, In y l -> y = List.last l d \/ cmpLe cmp y (List.last l d).
Proof.
  induction l as [| x r IH]; intros Hs y Hy; [destruct Hy |].
  apply StronglySorted_inv in Hs as [Hr Hall].
  destruct r as [| z r'].
  - destruct Hy as [<- | []]. now left.
  - change (List.last (x :: z :: r') d) with (List.last (z :: r') d).
    destruct Hy as [<- | Hy].
    + right. rewrite List.Forall_forall in Hall. apply Hall.
      apply last_In_cons.
    + apply IH; assumption.
Qed.
Lemma cmpTied_le (x y : A) : cmpTied cmp x y = true <-> cmpLe cmp x y /\ cmpLe cmp y x.
Proof. unfold cmpTied, cmpLe. now rewrite andb_true_iff, !Qle_bool_iff. Qed.

Lemma cmpTied_refl (x : A) : cmpTied cmp x x = true.
Proof. apply cmpTied_le. destruct (cmp_total x x); auto. Qed.

Lemma sort_keeps_ties (l : list A) (x : A) :
  List.filter (cmpTied cmp x) (sort cmp l) = List.filter (cmpTied cmp x) l.
Proof.
  apply sort_stable. intros a b Ha Hb.
  apply cmpTied_le in Ha as [_ Ha]. apply cmpTied_le in Hb as [Hb _].
  eapply cmp_trans; eassumption.
Qed.

(** A sorted list is determined by its classes of tied elements: whatever
    stable algorithm the engine runs, it returns what [sort] returns. *)
Lemma sorted_by_ties_unique (l1 l2 : list A) :
  StronglySorted (cmpLe cmp) l1 ->
  StronglySorted (cmpLe cmp) l2 ->
  (forall x, List.filter (cmpTied cmp x) l1 = List.filter (cmpTied cmp x) l2) ->
  l1 = l2.
Proof.
  revert l2. induction l1 as [| a l1 IH]; intros l2 H1 H2 Hties.
  - destruct l2 as [| b l2]; [reflexivity |].
    specialize (Hties b). simpl in Hties. rewrite cmpTied_refl in Hties. discriminate.
  - destruct l2 as [| b l2].
    { specialize (Hties a). simpl in Hties. rewrite cmpTied_refl in Hties. discriminate. }
    assert (Hab : cmpLe cmp a b).
    { pose proof (Hties b) as Hb. simpl in Hb. rewrite (cmpTied_refl b) in Hb.
      destruct (cmpTied cmp b a) eqn:E; [now apply cmpTied_le in E |].
      assert (Hin : In b (List.filter (cmpTied cmp b) l1)) by (rewrite Hb; now left).
      apply filter_In in Hin as [Hin _].
      apply sorted_head_least in H1. rewrite List.Forall_forall in H1. now apply H1. }
    assert (Hba : cmpLe cmp b a).
    { pose proof (Hties a) as Ha. simpl in Ha. rewrite (cmpTied_refl a) in Ha.
      destruct (cmpTied cmp a b) eqn:E; [now apply cmpTied_le in E |].
      assert (Hin : In a (List.filter (cmpTied cmp a) l2)) by (rewrite <- Ha; now left).
      apply filter_In in Hin as [Hin _].
      apply sorted_head_least in H2. rewrite List.Forall_forall in H2. now apply H2. }
    assert (Heq : a = b).
    { pose proof (Hties a) as Ha. simpl in Ha. rewrite (cmpTied_refl a) in Ha.
      assert (E : cmpTied cmp a b = true) by (apply cmpTied_le; auto).
      rewrite E in Ha. now inversion Ha. }
    subst b. f_equal.
    apply StronglySorted_inv in H1 as [H1 _]. apply StronglySorted_inv in H2 as [H2 _].
    apply IH; [exact H1 | exact H2 |].
    intros x. specialize (Hties x). simpl in Hties.
    destruct (cmpTied cmp x a); [now inversion Hties | exact Hties].
Qed.

Lemma sort_unique (l result : list A) :
  StronglySorted (cmpLe cmp) result ->
  (forall x, List.filter (cmpTied cmp x) result = List.filter (cmpTied cmp x) l) ->
  result = sort cmp l.
Proof.
  intros Hsorted Hstable. apply sorted_by_ties_unique; [exact Hsorted | apply sort_sorted |].
  intros x. now rewrite Hstable, sort_keeps_ties.
Qed.
End SortFacts.

(** ** Insertion-ordered maps and the grouping loop *)

Section OMapFacts.
Context {V : Type}.
Implicit Types (m : OMap.t V) (k : string) (v : V).

Lemma has_In k m : OMap.has k m = true <-> In k (map fst m).
Proof.
  unfold OMap.has. rewrite existsb_exists. split.
  - intros [[k' v] [Hin Heq]]. simpl in Heq.
    apply String.eqb_eq in Heq. subst k'.
    apply in_map_iff. now exists (k, v).
  - intros Hin. apply in_map_iff in Hin as [[k' v] [Heq Hin]].
    simpl in Heq. subst k'. exists (k, v). split; [exact Hin |].
    apply String.eqb_refl.
Qed.

Lemma has_false_notin k m : OMap.has k m = false <-> ~ In k (map fst m).
Proof.
  rewrite <- has_In. destruct (OMap.has k m); split; intros H; congruence.
Qed.

Lemma set_absent k v m : OMap.has k m = false -> OMap.set k v m = (m ++ [(k, v)])%list.
Proof.
  induction m as [| [k' v'] m IH]; simpl; intros H; [reflexivity |].
  destruct (String.eqb k' k); [discriminate |].
  simpl in H. now rewrite IH.
Qed.

Lemma update_absent k (f : V -> V) m : OMap.has k m = false -> OMap.update k f m = m.
Proof.
  induction m as [| [k' v'] m IH]; simpl; intros H; [reflexivity |].
  destruct (String.eqb k' k); [discriminate |].
  simpl in H. now rewrite IH.
Qed.

Lemma update_app_absent k (f : V -> V) m m' :
  OMap.has k m = false -> OMap.update k f (m ++ m') = (m ++ OMap.update k f m')%list.
Proof.
  induction m as [| [k' v'] m IH]; simpl; intros H; [reflexivity |].
  destruct (String.eqb k' k); [discriminate |].
  simpl in H. now rewrite IH.
Qed.

Lemma update_keys k (f : V -> V) m : map fst (OMap.update k f m) = map fst m.
Proof.
  induction m as [| [k' v'] m IH]; simpl; [reflexivity |].
  destruct (String.eqb k' k); simpl; [reflexivity | now rewrite IH].
Qed.

Lemma update_In k (f : V -> V) m k' v' :
  List.NoDup (map fst m) ->
  In (k', v') (OMap.update k f m) <->
  (k' <> k /\ In (k', v') m) \/ (k' = k /\ exists v, In (k, v) m /\ v' = f v).
Proof.
  induction m as [| [k0 v0] m IH]; simpl; intros Hnd.
  - split; [intros [] | intros [[_ []] | [_ [v [[] _]]]]].
  - apply List.NoDup_cons_iff in Hnd as [Hnotin Hnd].
    destruct (String.eqb_spec k0 k) as [-> | Hne]; simpl.
    + split.
      * intros [Heq | Hin].
        -- inversion Heq; subst. right. split; [reflexivity |]. eauto.
        -- left. split; [| now right].
           intros ->. apply Hnotin. apply in_map_iff. now exists (k, v').
      * intros [[Hne [Heq | Hin]] | [-> [v [[Heq | Hin] ->]]]].
        -- inversion Heq; subst. congruence.
        -- now right.
        -- inversion Heq; subst. now left.
        -- exfalso. apply Hnotin. apply in_map_iff. now exists (k, v).
    + rewrite (IH Hnd). split.
      * intros [Heq | [[Hne' Hin] | [-> [v [Hin ->]]]]].
        -- inversion Heq; subst. left. split; [exact Hne | now left].
        -- left. split; [exact Hne' | now right].
        -- right. split; [reflexivity |]. exists v. split; [now right | reflexivity].
      * intros [[Hne' [Heq | Hin]] | [-> [v [[Heq | Hin] ->]]]].
        -- now left.
        -- right. left. now split.
        -- inversion Heq; subst. congruence.
        -- right. right. split; [reflexivity |]. now exists v.
Qed.
End OMapFacts.

Section GroupFacts.
Variable key : UpgradeStep -> option string.

Lemma pushGroup_absent (k : string) (x : UpgradeStep) (m : OMap.t (list UpgradeStep)) :
  OMap.has k m = false -> pushGroup k x m = (m ++ [(k, [x])])%list.
Proof.
  intros H. unfold pushGroup. rewrite H, (set_absent _ _ _ H).
  rewrite (update_app_absent _ _ _ _ H). simpl.
  now rewrite String.eqb_refl.
Qed.

Lemma pushGroup_present (k : string) (x : UpgradeStep) (m : OMap.t (list UpgradeStep)) :
  OMap.has k m = true ->
  pushGroup k x m = OMap.update k (fun xs => (xs ++ [x])%list) m.
Proof. intros H. unfold pushGroup. now rewrite H. Qed.

Lemma groupSteps_snoc (steps : list UpgradeStep) (x : UpgradeStep) :
  groupSteps key (steps ++ [x]) =
  match key x with
  | Some k => (pushGroup k x (fst (groupSteps key steps)), snd (groupSteps key steps))
  | None => (fst (groupSteps key steps), (snd (groupSteps key steps) ++ [x])%list)
  end.
Proof.
  unfold groupSteps. rewrite fold_left_app. simpl.
  destruct (fold_left _ steps _) as [g o]. reflexivity.
Qed.

Lemma groupSteps_others (steps : list UpgradeStep) :
  snd (groupSteps key steps) = List.filter (unkeyed key) steps.
Proof.
  induction steps as [| x steps IH] using rev_ind; [reflexivity |].
  rewrite groupSteps_snoc, List.filter_app. simpl. unfold unkeyed at 2.
  destruct (key x); simpl; rewrite IH; [now rewrite app_nil_r | reflexivity].
Qed.

Lemma keyIs_true (k : string) (s : UpgradeStep) : keyIs key k s = true <-> key s = Some k.
Proof.
  unfold keyIs. destruct (key s) as [k' |]; [| split; discriminate].
  rewrite String.eqb_eq. split; congruence.
Qed.

Lemma filter_keyIs_absent (k : string) (steps : list UpgradeStep) :
  (forall s, In s steps -> key s <> Some k) -> List.filter (keyIs key k) steps = [].
Proof.
  induction steps as [| x steps IH]; intros H; simpl; [reflexivity |].
  destruct (keyIs key k x) eqn:E.
  - apply keyIs_true in E. exfalso. apply (H x); [now left | exact E].
  - apply IH. intros s Hs. apply H. now right.
Qed.

Lemma groupSteps_grouped (steps : list UpgradeStep) :
  Grouped key steps (fst (groupSteps key steps)).
Proof.
  induction steps as [| x steps IH] using rev_ind.
  - split; simpl; [constructor | intros k g [] | intros s k []].
  - rewrite groupSteps_snoc. destruct IH as [Hnd Hmem Hcomp].
    destruct (key x) as [k |] eqn:Ek; simpl.
    + destruct (OMap.has k (fst (groupSteps key steps))) eqn:Hhas.
      * rewrite (pushGroup_present _ _ _ Hhas). split.
        -- now rewrite update_keys.
        -- intros k' g' Hin. apply (update_In _ _ _ _ _ Hnd) in Hin.
           rewrite List.filter_app. simpl.
           destruct Hin as [[Hne Hin] | [-> [g [Hin ->]]]].
           ++ destruct (Hmem _ _ Hin) as [Hg ->]. split; [exact Hg |].
              unfold keyIs at 3. rewrite Ek.
              destruct (String.eqb_spec k k'); [congruence |].
              now rewrite app_nil_r.
           ++ destruct (Hmem _ _ Hin) as [Hg ->]. split.
              ** intros Hnil. now apply app_eq_nil in Hnil as [_ Hnil].
              ** unfold keyIs at 3. rewrite Ek, String.eqb_refl. reflexivity.
        -- intros s k' Hs Hk. rewrite update_keys.
           apply in_app_or in Hs as [Hs | [<- | []]].
           ++ eapply Hcomp; eassumption.
           ++ rewrite Ek in Hk. inversion Hk; subst. now apply has_In.
      * rewrite (pushGroup_absent _ _ _ Hhas).
        apply has_false_notin in Hhas.
        assert (Hnone : List.filter (keyIs key k) steps = []).
        { apply filter_keyIs_absent. intros s Hs Hk. apply Hhas.
          eapply Hcomp; eassumption. }
        split.
        -- rewrite map_app. simpl. apply List.NoDup_app; [exact Hnd | |].
           ++ constructor; [intros [] | constructor].
           ++ intros k' Hk' [<- | []]. now apply Hhas.
        -- intros k' g' Hin. rewrite List.filter_app. simpl.
           apply in_app_or in Hin as [Hin | [Heq | []]].
           ++ destruct (Hmem _ _ Hin) as [Hg ->]. split; [exact Hg |].
              unfold keyIs at 3. rewrite Ek.
              destruct (String.eqb_spec k k') as [<- | Hne].
              ** exfalso. apply Hhas. apply in_map_iff.
                 now exists (k, List.filter (keyIs key k) steps).
              ** now rewrite app_nil_r.
           ++ inversion Heq; subst. split; [discriminate |].
              rewrite Hnone. unfold keyIs. now rewrite Ek, String.eqb_refl.
        -- intros s k' Hs Hk. rewrite map_app. apply in_or_app.
           apply in_app_or in Hs as [Hs | [<- | []]].
           ++ left. eapply Hcomp; eassumption.
           ++ right. rewrite Ek in Hk. inversion Hk; subst. now left.
    + split; [exact Hnd | |].
      * intros k g Hin. destruct (Hmem _ _ Hin) as [Hg ->].
        split; [exact Hg |]. rewrite List.filter_app. simpl.
        unfold keyIs at 3. rewrite Ek. now rewrite app_nil_r.
      * intros s k Hs Hk. apply in_app_or in Hs as [Hs | [<- | []]].
        -- eapply Hcomp; eassumption.
        -- congruence.
Qed.
End GroupFacts.

(** ** Selection and emission *)

Lemma filter_Selected {A} (p : A -> bool) (P : A -> Prop) (l : list A) :
  (forall x, p x = true <-> P x) -> Selected P l (List.filter p l).
Proof.
  intros Hp. induction l as [| x l IH]; simpl; [constructor |].
  destruct (p x) eqn:E.
  - apply Selected_keep; [now apply Hp | exact IH].
  - apply Selected_drop; [| exact IH].
    intros HP. apply Hp in HP. congruence.
Qed.

Lemma Selected_functional {A} (P : A -> Prop) (l r1 r2 : list A) :
  Selected P l r1 -> Selected P l r2 -> r1 = r2.
Proof.
  intros H1. revert r2. induction H1; intros r2 H2; inversion H2; subst;
    try reflexivity; try contradiction.
  - f_equal. now apply IHSelected.
  - now apply IHSelected.
Qed.

Lemma filter_flat_map {A B} (p : B -> bool) (f : A -> list B) (l : list A) :
  List.filter p (flat_map f l) = flat_map (fun x => List.filter p (f x)) l.
Proof.
  induction l as [| x l IH]; simpl; [reflexivity |].
  now rewrite List.filter_app, IH.
Qed.

Lemma filter_none {A} (p : A -> bool) (l : list A) :
  (forall x, In x l -> p x = false) -> List.filter p l = [].
Proof.
  induction l as [| x l IH]; intros H; simpl; [reflexivity |].
  rewrite (H x (or_introl eq_refl)). apply IH. intros y Hy. apply H. now right.
Qed.

Lemma filter_all {A} (p : A -> bool) (l : list A) :
  (forall x, In x l -> p x = true) -> List.filter p l = l.
Proof.
  induction l as [| x l IH]; intros H; simpl; [reflexivity |].
  rewrite (H x (or_introl eq_refl)). f_equal. apply IH. intros y Hy. apply H. now right.
Qed.

(** Filtering the emitted steps by a property that singles out one group. *)
Lemma filter_emitted_one {V B} (emit : string * V -> list B) (p : B -> bool)
    (groups : OMap.t V) (f : string) (g : V) :
  List.NoDup (map fst groups) ->
  In (f, g) groups ->
  (forall k v, In (k, v) groups -> k <> f -> forall e, In e (emit (k, v)) -> p e = false) ->
  (forall e, In e (emit (f, g)) -> p e = true) ->
  List.filter p (flat_map emit groups) = emit (f, g).
Proof.
  intros Hnd Hin Hother Hown. rewrite filter_flat_map.
  induction groups as [| [k v] groups IH]; [destruct Hin |].
  simpl in Hnd. apply List.NoDup_cons_iff in Hnd as [Hnotin Hnd]. simpl.
  destruct Hin as [Heq | Hin].
  - inversion Heq; subst. rewrite (filter_all _ _ Hown).
    replace (flat_map _ groups) with (@nil B); [apply app_nil_r |].
    symmetry. clear IH. induction groups as [| [k v] groups IHg]; [reflexivity |].
    simpl. rewrite filter_none.
    + apply IHg.
      * intros Hf. apply Hnotin. now right.
      * now apply List.NoDup_cons_iff in Hnd.
      * intros k' v' Hk'. apply Hother. destruct Hk' as [Hk' | Hk']; [now left |].
        right. now right.
    + apply (Hother k v); [right; now left |].
      intros ->. apply Hnotin. now left.
  - assert (Hne : k <> f).
    { intros ->. apply Hnotin. apply in_map_iff. now exists (f, g). }
    rewrite filter_none.
    + apply IH; [exact Hnd | exact Hin |].
      intros k' v' Hk'. apply Hother. now right.
    + apply (Hother k v); [now left | exact Hne].
Qed.

Lemma filter_emitted_none {V B} (emit : string * V -> list B) (p : B -> bool)
    (groups : OMap.t V) :
  (forall k v, In (k, v) groups -> forall e, In e (emit (k, v)) -> p e = false) ->
  List.filter p (flat_map emit groups) = [].
Proof.
  intros H. apply filter_none. intros e He.
  apply in_flat_map in He as [[k v] [Hin He]]. eapply H; eassumption.
Qed.

(** ** C1: the range filter *)

Lemma inWindow_contained (f t : Q) (s : UpgradeStep) :
  inWindow f t s = true <-> contained f t s.
Proof.
  unfold inWindow, contained.
  now rewrite andb_true_iff, !Qle_bool_iff.
Qed.

(** C1. For every catalog and window the range filter returns exactly the
    steps with [from >= fromVersion] and [to <= toVersion], in catalog
    order; every returned step lies within the window. *)
Theorem C1_range_filter (allSteps : list UpgradeStep) (fromVersion toVersion : Q) :
  Selected (contained fromVersion toVersion) allSteps
    (relevantSteps allSteps fromVersion toVersion)
  /\ Forall (contained fromVersion toVersion)
       (relevantSteps allSteps fromVersion toVersion).
Proof.
  split.
  - apply filter_Selected. intros x. apply inWindow_contained.
  - apply List.Forall_forall. intros x Hx.
    apply filter_In in Hx as [_ Hx]. now apply inWindow_contained.
Qed.

(** A step that only overlaps the window is not returned. *)
Example range_filter_is_not_overlap :
  relevantSteps [mkStep "a" "b" 13 15 None None] 14 16 = [].
Proof. reflexivity. Qed.

(** ** C4: removal of duplicate instructions *)

Lemma KeepsFirst_represented (earlier l r : list UpgradeStep) :
  KeepsFirst earlier l r ->
  forall x, In x l -> exists y, In y (earlier ++ r) /\ normalized y = normalized x.
Proof.
  induction 1 as [earlier | earlier s l r Hfirst _ IH | earlier s l r [e [He Heq]] _ IH];
    intros x Hx.
  - destruct Hx.
  - destruct Hx as [<- | Hx].
    + exists s. split; [apply in_or_app; right; now left | reflexivity].
    + destruct (IH x Hx) as [y [Hy Hyx]]. exists y. split; [| exact Hyx].
      rewrite <- app_assoc in Hy. exact Hy.
  - destruct Hx as [<- | Hx].
    + exists e. split; [apply in_or_app; now left | exact Heq].
    + destruct (IH x Hx) as [y [Hy Hyx]].
      rewrite <- app_assoc in Hy. apply in_app_or in Hy as [Hy | [<- | Hy]].
      * exists y. split; [apply in_or_app; now left | exact Hyx].
      * exists e. split; [apply in_or_app; now left | congruence].
      * exists y. split; [apply in_or_app; now right | exact Hyx].
Qed.

Lemma KeepsFirst_distinct (earlier l r : list UpgradeStep) :
  KeepsFirst earlier l r ->
  List.NoDup (map normalized r)
  /\ (forall y e, In y r -> In e earlier -> normalized e <> normalized y).
Proof.
  induction 1 as [earlier | earlier s l r Hfirst _ [IHnd IHne] | earlier s l r _ _ [IHnd IHne]].
  - split; [constructor | intros y e []].
  - split.
    + simpl. constructor; [| exact IHnd].
      intros Hin. apply in_map_iff in Hin as [y [Heq Hy]].
      apply (IHne y s Hy); [apply in_or_app; right; now left | congruence].
    + intros y e [<- | Hy] He; [now apply Hfirst |].
      apply IHne; [exact Hy | apply in_or_app; now left].
  - split; [exact IHnd |].
    intros y e Hy He. apply IHne; [exact Hy | apply in_or_app; now left].
Qed.

Lemma KeepsFirst_sub (earlier l r : list UpgradeStep) :
  KeepsFirst earlier l r -> forall x, In x r -> In x l.
Proof.
  induction 1; intros x Hx; [destruct Hx | |].
  - destruct Hx as [<- | Hx]; [now left | right; auto].
  - right. auto.
Qed.

Section Dedup.
Variable md5 : string -> string.

Lemma removeDuplicatesFrom_sub (seen : gset string) (steps : list UpgradeStep) :
  forall x, In x (removeDuplicatesFrom md5 seen steps) -> In x steps.
Proof.
  revert seen. induction steps as [| s steps IH]; intros seen x Hx; [destruct Hx |].
  simpl in Hx. case_bool_decide.
  - right. eapply IH, Hx.
  - destruct Hx as [<- | Hx]; [now left | right; eapply IH, Hx].
Qed.

Lemma removeDuplicatesFrom_keeps_first (earlier steps : list UpgradeStep)
    (seen : gset string) :
  (forall a b, In a (earlier ++ steps) -> In b (earlier ++ steps) ->
     md5 (normalized a) = md5 (normalized b) -> normalized a = normalized b) ->
  (forall h, h ∈ seen <-> exists e, In e earlier /\ md5 (normalized e) = h) ->
  KeepsFirst earlier steps (removeDuplicatesFrom md5 seen steps).
Proof.
  revert earlier seen. induction steps as [| s steps IH]; intros earlier seen Hfree Hseen.
  - constructor.
  - simpl. unfold hashInstruction. fold (normalized s).
    assert (Hfree' : forall a b, In a ((earlier ++ [s]) ++ steps) ->
              In b ((earlier ++ [s]) ++ steps) ->
              md5 (normalized a) = md5 (normalized b) -> normalized a = normalized b).
    { intros a b. rewrite <- !app_assoc. apply Hfree. }
    case_bool_decide as Hin.
    + apply Hseen in Hin as [e [He Heq]].
      apply KeepsFirst_drop.
      * exists e. split; [exact He |].
        apply Hfree; [apply in_or_app; now left
                     | apply in_or_app; right; now left | exact Heq].
      * apply IH; [exact Hfree' |].
        intros h. rewrite Hseen. split.
        -- intros [e' [He' Hh]]. exists e'. split; [apply in_or_app; now left | exact Hh].
        -- intros [e' [He' Hh]]. apply in_app_or in He' as [He' | [<- | []]].
           ++ now exists e'.
           ++ exists e. split; [exact He | congruence].
    + apply KeepsFirst_keep.
      * intros e He Heq. apply Hin. apply Hseen. exists e.
        split; [exact He | now rewrite Heq].
      * apply IH; [exact Hfree' |].
        intros h. rewrite elem_of_union, elem_of_singleton, Hseen. split.
        -- intros [-> | [e [He Hh]]].
           ++ exists s. split; [apply in_or_app; right; now left | reflexivity].
           ++ exists e. split; [apply in_or_app; now left | exact Hh].
        -- intros [e [He Hh]]. apply in_app_or in He as [He | [<- | []]].
           ++ right. now exists e.
           ++ now left.
Qed.

(** C4. On a group whose normalized instructions have pairwise distinct
    digests unless they are equal, duplicate removal keeps exactly the
    first step of every class of instructions equal after trimming and
    lower-casing: a step is dropped only when an earlier step of the
    group is equivalent to it, the kept steps stay in input order, they
    are pairwise inequivalent, and every input step has a kept
    representative. *)
Theorem C4_first_occurrence_wins (steps : list UpgradeStep)
    (collision_free : forall a b, In a steps -> In b steps ->
       md5 (normalized a) = md5 (normalized b) -> normalized a = normalized b) :
  KeepsFirst [] steps (removeDuplicateInstructions md5 steps)
  /\ List.NoDup (map normalized (removeDuplicateInstructions md5 steps))
  /\ (forall x, In x steps ->
        exists y, In y (removeDuplicateInstructions md5 steps)
                  /\ normalized y = normalized x).
Proof.
  assert (H : KeepsFirst [] steps (removeDuplicateInstructions md5 steps)).
  { apply removeDuplicatesFrom_keeps_first; [exact collision_free |].
    intros h. split; [intros Hh; now apply not_elem_of_empty in Hh |].
    intros [e [[] _]]. }
  split; [exact H |]. split.
  - apply (KeepsFirst_distinct _ _ _ H).
  - intros x Hx. apply (KeepsFirst_represented _ _ _ H x Hx).
Qed.
End Dedup.

Lemma C4_witness :
  removeDuplicateInstructions (fun s => s) dedupSample = firstn 2 dedupSample
  /\ KeepsFirst [] dedupSample (removeDuplicateInstructions (fun s => s) dedupSample).
Proof.
  split; [vm_compute; reflexivity |].
  apply (C4_first_occurrence_wins (fun s => s) dedupSample).
  intros a b _ _ H. exact H.
Defined.

(** ** C2: the merge of package updates *)

Lemma typeIs_true (ty : string) (s : UpgradeStep) :
  typeIs ty s = true <-> stepType s = Some ty.
Proof.
  unfold typeIs. destruct (stepType s) as [ty' |]; [| split; discriminate].
  rewrite String.eqb_eq. split; congruence.
Qed.

Lemma qmin_cases (a b : Q) :
  (qmin a b = a /\ (a <= b)%Q) \/ (qmin a b = b /\ (b <= a)%Q).
Proof.
  unfold qmin. destruct (Qle_bool a b) eqn:E.
  - left. split; [reflexivity | now apply Qle_bool_iff].
  - right. split; [reflexivity |].
    destruct (Qlt_le_dec b a) as [H | H]; [now apply Qlt_le_weak |].
    apply Qle_bool_iff in H. congruence.
Qed.

Lemma mathMin_spec (x : Q) (rest : list Q) :
  In (mathMin x rest) (x :: rest)
  /\ Forall (fun y => (mathMin x rest <= y)%Q) (x :: rest).
Proof.
  unfold mathMin. revert x. induction rest as [| y rest IH]; intros x; simpl.
  - split; [now left |]. constructor; [apply Qle_refl | constructor].
  - destruct (IH (qmin x y)) as [Hin Hall].
    apply Forall_cons_iff in Hall as [Hm Hall].
    destruct (qmin_cases x y) as [[Heq Hle] | [Heq Hle]]; rewrite Heq in *.
    + split.
      * destruct Hin as [Hin | Hin]; [now left | right; now right].
      * constructor; [exact Hm |]. constructor; [| exact Hall].
        eapply Qle_trans; eassumption.
    + split.
      * destruct Hin as [Hin | Hin]; [right; now left | right; now right].
      * constructor; [eapply Qle_trans; eassumption |].
        constructor; [exact Hm | exact Hall].
Qed.

Lemma consolidatePackageUpdates_fields (group : list UpgradeStep) (T : Q)
    (firstStep : UpgradeStep) (others : list UpgradeStep) :
  group = firstStep :: others ->
  exists merged,
    consolidatePackageUpdates group T = Some merged
    /\ In (from merged) (map from group)
    /\ Forall (fun s => (from merged <= from s)%Q) group
    /\ to merged = T
    /\ stepType merged = stepType firstStep
    /\ affectedFile merged = None.
Proof.
  intros ->. eexists. split; [reflexivity |]. simpl.
  destruct (mathMin_spec (from firstStep) (map from others)) as [Hin Hall].
  split; [exact Hin |]. split; [| auto].
  change (Forall (fun s => (mathMin (from firstStep) (map from others) <= from s)%Q)
            (firstStep :: others)).
  rewrite List.Forall_forall in *. intros s Hs. apply Hall.
  change (In (from s) (map from (firstStep :: others))). now apply in_map.
Qed.

Section TypeConsolidation.
Variable md5 : string -> string.

Lemma typeKey_Some (s : UpgradeStep) (k : string) :
  typeKey s = Some k <->
  stepType s = Some k /\ JS.truthy k = true /\ shouldConsolidate k = true.
Proof.
  unfold typeKey. destruct (stepType s) as [ty |].
  - destruct (JS.truthy ty && shouldConsolidate ty) eqn:E.
    + apply andb_true_iff in E as [E1 E2]. split.
      * intros H. inversion H; subst. auto.
      * intros [H _]. exact H.
    + split; [discriminate |]. intros [H [H1 H2]]. inversion H; subst.
      rewrite H1, H2 in E. discriminate.
  - split; [discriminate | intros [H _]; discriminate].
Qed.

Lemma keyIs_typeKey_package (s : UpgradeStep) :
  keyIs typeKey packageUpdate s = typeIs packageUpdate s.
Proof.
  apply eq_true_iff_eq. rewrite keyIs_true, typeIs_true, typeKey_Some.
  split; [intros [H _]; exact H |]. intros H. repeat split; [exact H | reflexivity..].
Qed.

Lemma unkeyed_not_package (s : UpgradeStep) :
  unkeyed typeKey s = true -> typeIs packageUpdate s = false.
Proof.
  unfold unkeyed. intros H. destruct (typeIs packageUpdate s) eqn:E; [| reflexivity].
  rewrite <- keyIs_typeKey_package in E. apply keyIs_true in E.
  rewrite E in H. discriminate.
Qed.

Lemma consolidateByType_eq (steps : list UpgradeStep) (T : Q) :
  consolidateByType md5 steps T =
  flat_map (emitTypeGroup md5 T) (fst (groupSteps typeKey steps))
    ++ List.filter (unkeyed typeKey) steps.
Proof.
  unfold consolidateByType. rewrite <- groupSteps_others.
  now destruct (groupSteps typeKey steps).
Qed.

Lemma emitTypeGroup_other (T : Q) (k : string) (v : list UpgradeStep) :
  k <> packageUpdate -> emitTypeGroup md5 T (k, v) = removeDuplicateInstructions md5 v.
Proof.
  intros Hne. unfold emitTypeGroup.
  destruct (String.eqb_spec k "package-update") as [-> | _]; [now elim Hne | reflexivity].
Qed.

Lemma emitTypeGroup_package (T : Q) (v : list UpgradeStep) :
  emitTypeGroup md5 T (packageUpdate, v) =
  match consolidatePackageUpdates v T with
  | Some consolidated => [consolidated]
  | None => []
  end.
Proof. reflexivity. Qed.

Lemma package_group_of_map (steps : list UpgradeStep)
    (firstStep : UpgradeStep) (others : list UpgradeStep) :
  List.filter (typeIs packageUpdate) steps = firstStep :: others ->
  In (packageUpdate, firstStep :: others) (fst (groupSteps typeKey steps)).
Proof.
  intros Hgroup.
  destruct (groupSteps_grouped typeKey steps) as [Hnd Hmem Hcomp].
  assert (Hin : In firstStep (List.filter (typeIs packageUpdate) steps))
    by (rewrite Hgroup; now left).
  apply filter_In in Hin as [Hin Hty]. apply typeIs_true in Hty.
  assert (Hk : In packageUpdate (map fst (fst (groupSteps typeKey steps)))).
  { apply (Hcomp firstStep); [exact Hin |].
    apply typeKey_Some. repeat split; [exact Hty | reflexivity..]. }
  apply in_map_iff in Hk as [[k v] [Hk Hkv]]. simpl in Hk. subst k.
  destruct (Hmem _ _ Hkv) as [_ Hv].
  rewrite (filter_ext _ _ keyIs_typeKey_package), Hgroup in Hv.
  now subst v.
Qed.

Lemma other_groups_not_package (steps : list UpgradeStep) (T : Q) (k : string)
    (v : list UpgradeStep) :
  In (k, v) (fst (groupSteps typeKey steps)) ->
  k <> packageUpdate ->
  forall e, In e (emitTypeGroup md5 T (k, v)) -> typeIs packageUpdate e = false.
Proof.
  intros Hin Hne e He. rewrite (emitTypeGroup_other _ _ _ Hne) in He.
  apply removeDuplicatesFrom_sub in He.
  destruct (groupSteps_grouped typeKey steps) as [_ Hmem _].
  destruct (Hmem _ _ Hin) as [_ ->]. apply filter_In in He as [_ He].
  apply keyIs_true, typeKey_Some in He as [He _].
  unfold typeIs. rewrite He. now apply String.eqb_neq.
Qed.

Lemma package_steps_of_output (steps : list UpgradeStep) (T : Q) :
  List.filter (typeIs packageUpdate) (consolidateByType md5 steps T)
  = List.filter (typeIs packageUpdate)
      (flat_map (emitTypeGroup md5 T) (fst (groupSteps typeKey steps))).
Proof.
  rewrite consolidateByType_eq, List.filter_app.
  rewrite (filter_none (typeIs packageUpdate) (List.filter (unkeyed typeKey) steps)).
  - apply app_nil_r.
  - intros x Hx. apply filter_In in Hx as [_ Hx]. now apply unkeyed_not_package.
Qed.

(** The one step emitted for a non-empty package-update group. *)
Lemma package_merge_emitted (steps : list UpgradeStep) (T : Q)
    (firstStep : UpgradeStep) (others : list UpgradeStep) :
  List.filter (typeIs packageUpdate) steps = firstStep :: others ->
  exists merged,
    List.filter (typeIs packageUpdate) (consolidateByType md5 steps T) = [merged]
    /\ consolidatePackageUpdates (firstStep :: others) T = Some merged.
Proof.
  intros Hgroup. rewrite package_steps_of_output.
  destruct (groupSteps_grouped typeKey steps) as [Hnd _ _].
  pose proof (package_group_of_map steps firstStep others Hgroup) as Hin.
  destruct (consolidatePackageUpdates_fields (firstStep :: others) T firstStep others eq_refl)
    as (merged & Hm & _ & _ & _ & Hty & _).
  assert (Hfirst : stepType firstStep = Some packageUpdate).
  { apply typeIs_true.
    assert (H : In firstStep (List.filter (typeIs packageUpdate) steps))
      by (rewrite Hgroup; now left).
    now apply filter_In in H. }
  exists merged. split; [| exact Hm].
  rewrite (filter_emitted_one _ _ _ _ _ Hnd Hin (other_groups_not_package steps T)).
  - now rewrite emitTypeGroup_package, Hm.
  - intros e He. rewrite emitTypeGroup_package, Hm in He.
    destruct He as [<- | []]. apply typeIs_true. now rewrite Hty.
Qed.

(** C2. Type consolidation emits exactly one package-update step when the
    input has any and none otherwise; the emitted step is the merge of
    the whole group: its [from] is the least [from] of the group, its
    [to] is the requested [toVersion], its type is package-update and it
    names no file. *)
Theorem C2_package_update_merge (steps : list UpgradeStep) (toVersion : Q) :
  consolidatePackageUpdates [] toVersion = None
  /\ match List.filter (typeIs packageUpdate) steps with
     | [] =>
         List.filter (typeIs packageUpdate) (consolidateByType md5 steps toVersion) = []
     | group =>
         exists merged,
           List.filter (typeIs packageUpdate) (consolidateByType md5 steps toVersion)
             = [merged]
           /\ consolidatePackageUpdates group toVersion = Some merged
           /\ In (from merged) (map from group)
           /\ Forall (fun s => (from merged <= from s)%Q) group
           /\ to merged = toVersion
           /\ stepType merged = Some packageUpdate
           /\ affectedFile merged = None
     end.
Proof.
  split; [reflexivity |].
  destruct (List.filter (typeIs packageUpdate) steps) as [| firstStep others] eqn:Hgroup.
  - rewrite package_steps_of_output. apply filter_emitted_none. intros k v Hin e He.
    destruct (String.eqb_spec k packageUpdate) as [-> | Hne].
    + destruct (groupSteps_grouped typeKey steps) as [_ Hmem _].
      destruct (Hmem _ _ Hin) as [Hv Heq]. exfalso. apply Hv. rewrite Heq.
      rewrite <- Hgroup. apply filter_ext. intros a. apply keyIs_typeKey_package.
    + eapply other_groups_not_package; eassumption.
  - destruct (package_merge_emitted steps toVersion firstStep others Hgroup)
      as (merged & Hout & Hm).
    destruct (consolidatePackageUpdates_fields (firstStep :: others) toVersion
                firstStep others eq_refl)
      as (merged' & Hm' & Hfrom & Hmin & Hto & Hty & Hfile).
    rewrite Hm in Hm'. inversion Hm'; subst merged'.
    assert (Hfirst : stepType firstStep = Some packageUpdate).
    { apply typeIs_true.
      assert (H : In firstStep (List.filter (typeIs packageUpdate) steps))
        by (rewrite Hgroup; now left).
      now apply filter_In in H. }
    exists merged. rewrite Hty, Hfirst. repeat split; assumption.
Qed.
End TypeConsolidation.

(** The scenario of the specification: three package updates (1,2), (2,3),
    (3,4) and the window (1,4) give one step from 1 to 4 whose instruction
    ends in "to 4". *)
Example package_update_scenario :
  pipeline (fun s => s)
    [ mkStep "Update Next.js to 2.0" "next@^2.0" 1 2 (Some "package-update") None;
      mkStep "Update Next.js to 3.0" "next@^3.0" 2 3 (Some "package-update") None;
      mkStep "Update Next.js to 4.0" "next@^4.0" 3 4 (Some "package-update") None ] 1 4
  = [ mkStep "Update Next.js to 4" "next@^4" 1 4 (Some "package-update") None ].
Proof. vm_compute. reflexivity. Qed.

(** ** C5: consolidation by affected file *)

Lemma byFrom_le (x y : UpgradeStep) : cmpLe byFrom x y <-> (from x <= from y)%Q.
Proof. unfold cmpLe, byFrom. split; intros H; lra. Qed.

Lemma byFrom_total (x y : UpgradeStep) : cmpLe byFrom x y \/ cmpLe byFrom y x.
Proof.
  rewrite !byFrom_le. destruct (Qlt_le_dec (from y) (from x)) as [H | H].
  - right. now apply Qlt_le_weak.
  - now left.
Qed.

Lemma byFrom_trans (x y z : UpgradeStep) :
  cmpLe byFrom x y -> cmpLe byFrom y z -> cmpLe byFrom x z.
Proof. rewrite !byFrom_le. apply Qle_trans. Qed.

Lemma fileIs_true (f : string) (s : UpgradeStep) :
  fileIs f s = true <-> affectedFile s = Some f.
Proof.
  unfold fileIs. destruct (affectedFile s) as [f' |]; [| split; discriminate].
  rewrite String.eqb_eq. split; congruence.
Qed.

Lemma fileKey_Some (s : UpgradeStep) (k : string) :
  fileKey s = Some k <-> affectedFile s = Some k /\ JS.truthy k = true.
Proof.
  unfold fileKey, JS.truthyOpt. destruct (affectedFile s) as [f |].
  - destruct (JS.truthy f) eqn:E; split.
    + intros H. inversion H; subst. auto.
    + now intros [H _].
    + discriminate.
    + intros [H Hk]. inversion H; subst. congruence.
  - split; [discriminate | intros [H _]; discriminate].
Qed.

Lemma unkeyed_fileKey (s : UpgradeStep) : unkeyed fileKey s = negb (hasFile s).
Proof.
  unfold unkeyed, fileKey, hasFile.
  destruct (JS.truthyOpt (affectedFile s)) eqn:E; [| reflexivity].
  destruct (affectedFile s); [reflexivity | discriminate].
Qed.

Lemma keyIs_fileKey (f : string) (s : UpgradeStep) :
  JS.truthy f = true -> keyIs fileKey f s = fileIs f s.
Proof.
  intros Hf. apply eq_true_iff_eq. rewrite keyIs_true, fileIs_true, fileKey_Some.
  split; [now intros [H _] | auto].
Qed.

Lemma consolidateByAffectedFile_eq (steps : list UpgradeStep) :
  consolidateByAffectedFile steps =
  flat_map emitFileGroup (fst (groupSteps fileKey steps))
    ++ List.filter (fun s => negb (hasFile s)) steps.
Proof.
  unfold consolidateByAffectedFile.
  rewrite <- (filter_ext _ _ unkeyed_fileKey), <- groupSteps_others.
  now destruct (groupSteps fileKey steps).
Qed.

(** The merge of a non-empty group, in terms of the sorted group. *)
Lemma consolidateFileSteps_fields (group : list UpgradeStep) (fileName : string) :
  group <> [] ->
  exists merged firstStep lastStep,
    consolidateFileSteps group fileName = Some merged
    /\ hd_error (sort byFrom group) = Some firstStep
    /\ List.last (sort byFrom group) firstStep = lastStep
    /\ In firstStep group /\ In lastStep group
    /\ Forall (fun s => (from firstStep <= from s)%Q) group
    /\ Forall (fun s => (from s <= from lastStep)%Q) group
    /\ from merged = from firstStep
    /\ to merged = to lastStep
    /\ affectedFile merged = Some fileName.
Proof.
  intros Hne. unfold consolidateFileSteps.
  pose proof (sort_sorted byFrom byFrom_total byFrom_trans group) as Hsorted.
  pose proof (sort_In byFrom group) as HIn.
  destruct (sort byFrom group) as [| firstStep tail] eqn:Hs.
  { exfalso. apply Hne. apply length_zero_iff_nil.
    rewrite <- (sort_length byFrom group), Hs. reflexivity. }
  eexists. exists firstStep, (List.last (firstStep :: tail) firstStep).
  split; [reflexivity |]. split; [reflexivity |]. split; [reflexivity |].
  split; [apply HIn; now left |].
  split; [apply HIn, last_In_cons |].
  split; [| split; [| repeat split]].
  - apply List.Forall_forall. intros s Hin. apply HIn in Hin as [<- | Hin].
    + apply Qle_refl.
    + apply byFrom_le. apply sorted_head_least in Hsorted.
      rewrite List.Forall_forall in Hsorted. now apply Hsorted.
  - apply List.Forall_forall. intros s Hin. apply HIn in Hin.
    destruct (sorted_last_greatest byFrom (firstStep :: tail) firstStep Hsorted s Hin)
      as [<- | Hle].
    + apply Qle_refl.
    + now apply byFrom_le.
Qed.

Lemma emitFileGroup_file (k : string) (g : list UpgradeStep) (e : UpgradeStep) :
  (forall s, In s g -> affectedFile s = Some k) ->
  In e (emitFileGroup (k, g)) -> affectedFile e = Some k.
Proof.
  intros Hg He. unfold emitFileGroup in He.
  destruct g as [| a [| b r]].
  - destruct He.
  - destruct He as [<- | []]. apply Hg. now left.
  - destruct (consolidateFileSteps_fields (a :: b :: r) k)
      as (merged & f & l & Hm & _ & _ & _ & _ & _ & _ & _ & _ & Hfile); [discriminate |].
    rewrite Hm in He. destruct He as [<- | []]. exact Hfile.
Qed.

Lemma grouped_file_members (steps : list UpgradeStep) (k : string) (g : list UpgradeStep) :
  In (k, g) (fst (groupSteps fileKey steps)) ->
  g <> [] /\ JS.truthy k = true /\ g = List.filter (fileIs k) steps.
Proof.
  intros Hin. destruct (groupSteps_grouped fileKey steps) as [_ Hmem _].
  destruct (Hmem _ _ Hin) as [Hne Heq]. split; [exact Hne |].
  assert (Hk : JS.truthy k = true).
  { destruct g as [| s g']; [congruence |].
    assert (Hs : In s (List.filter (keyIs fileKey k) steps)) by (rewrite <- Heq; now left).
    apply filter_In in Hs as [_ Hs]. now apply keyIs_true, fileKey_Some in Hs. }
  split; [exact Hk |]. rewrite Heq. apply filter_ext. intros s. now apply keyIs_fileKey.
Qed.

(** C5. Steps without a file pass through unchanged, in order, after the
    steps that come from the file groups.  For a file name, the steps of the
    output naming it are: the single member of its group when the group has
    one member, and otherwise one merged step whose [from] is that of the
    first and whose [to] is that of the last member of the group sorted by
    [from] ascending, that is the least [from] of the group and the [to] of a
    member with the greatest [from]. *)
Theorem C5_file_consolidation (steps : list UpgradeStep) (fileName : string)
    (named : JS.truthy fileName = true) :
  (exists grouped,
     consolidateByAffectedFile steps
       = grouped ++ List.filter (fun s => negb (hasFile s)) steps
     /\ Forall (fun s => hasFile s = true) grouped)
  /\ match List.filter (fileIs fileName) steps with
     | [] => List.filter (fileIs fileName) (consolidateByAffectedFile steps) = []
     | [only] => List.filter (fileIs fileName) (consolidateByAffectedFile steps) = [only]
     | group =>
         exists merged firstStep lastStep,
           List.filter (fileIs fileName) (consolidateByAffectedFile steps) = [merged]
           /\ hd_error (sort byFrom group) = Some firstStep
           /\ List.last (sort byFrom group) firstStep = lastStep
           /\ In firstStep group /\ In lastStep group
           /\ Forall (fun s => (from firstStep <= from s)%Q) group
           /\ Forall (fun s => (from s <= from lastStep)%Q) group
           /\ from merged = from firstStep
           /\ to merged = to lastStep
           /\ affectedFile merged = Some fileName
     end.
Proof.
  rewrite consolidateByAffectedFile_eq.
  destruct (groupSteps_grouped fileKey steps) as [Hnd Hmem Hcomp].
  assert (Hmembers : forall k g, In (k, g) (fst (groupSteps fileKey steps)) ->
            forall s, In s g -> affectedFile s = Some k).
  { intros k g Hin s Hs. destruct (grouped_file_members _ _ _ Hin) as [_ [_ ->]].
    apply filter_In in Hs as [_ Hs]. now apply fileIs_true. }
  split.
  - eexists. split; [reflexivity |].
    apply List.Forall_forall. intros e He.
    apply in_flat_map in He as [[k g] [Hin He]].
    destruct (grouped_file_members _ _ _ Hin) as [_ [Hk _]].
    apply (emitFileGroup_file k g e (Hmembers k g Hin)) in He.
    unfold hasFile. now rewrite He.
  - rewrite List.filter_app.
    rewrite (filter_none (fileIs fileName) (List.filter _ steps)).
    2:{ intros x Hx. apply filter_In in Hx as [_ Hx].
        destruct (fileIs fileName x) eqn:E; [| reflexivity].
        apply fileIs_true in E. unfold hasFile in Hx. rewrite E in Hx.
        simpl in Hx. rewrite named in Hx. discriminate. }
    rewrite app_nil_r.
    assert (Hother : forall k v, In (k, v) (fst (groupSteps fileKey steps)) ->
              k <> fileName ->
              forall e, In e (emitFileGroup (k, v)) -> fileIs fileName e = false).
    { intros k v Hin Hne e He.
      apply (emitFileGroup_file k v e (Hmembers k v Hin)) in He.
      unfold fileIs. rewrite He. now apply String.eqb_neq. }
    destruct (List.filter (fileIs fileName) steps) as [| a rest] eqn:Hgroup.
    + apply filter_emitted_none. intros k v Hin e He.
      destruct (String.eqb_spec k fileName) as [-> | Hne].
      * destruct (grouped_file_members _ _ _ Hin) as [Hv [_ Heq]]. congruence.
      * eapply Hother; eassumption.
    + assert (Hin : In (fileName, a :: rest) (fst (groupSteps fileKey steps))).
      { assert (Ha : In a (List.filter (fileIs fileName) steps)) by (rewrite Hgroup; now left).
        apply filter_In in Ha as [Ha Hfa]. apply fileIs_true in Hfa.
        assert (Hk : In fileName (map fst (fst (groupSteps fileKey steps)))).
        { apply (Hcomp a); [exact Ha |]. now apply fileKey_Some. }
        apply in_map_iff in Hk as [[k v] [Hk Hin]]. simpl in Hk. subst k.
        destruct (grouped_file_members _ _ _ Hin) as [_ [_ Hv]]. congruence. }
      assert (Hown : forall e, In e (emitFileGroup (fileName, a :: rest)) ->
                fileIs fileName e = true).
      { intros e He. apply fileIs_true.
        exact (emitFileGroup_file _ _ e (Hmembers _ _ Hin) He). }
      rewrite (filter_emitted_one _ _ _ _ _ Hnd Hin Hother Hown).
      destruct rest as [| b r]; [reflexivity |].
      destruct (consolidateFileSteps_fields (a :: b :: r) fileName)
        as [merged [f [l [Hm Hrest]]]]; [discriminate |].
      exists merged, f, l. split; [| exact Hrest].
      unfold emitFileGroup. now rewrite Hm.
Qed.

Lemma C5_witness :
  JS.truthy "next.config.js" = true
  /\ exists merged,
       List.filter (fileIs "next.config.js") (consolidateByAffectedFile fileSample) = [merged]
       /\ from merged = 13%Q /\ to merged = 16%Q
       /\ affectedFile merged = Some "next.config.js".
Proof.
  split; [reflexivity |].
  destruct (C5_file_consolidation fileSample "next.config.js" eq_refl) as [_ H].
  change (List.filter (fileIs "next.config.js") fileSample)
    with [nth 0 fileSample (mkStep "" "" 0 0 None None);
          nth 2 fileSample (mkStep "" "" 0 0 None None);
          nth 3 fileSample (mkStep "" "" 0 0 None None)] in H.
  destruct H as (merged & f & l & Hout & Hhd & Hlast & _ & _ & _ & _ & Hfrom & Hto & Hfile).
  exists merged. vm_compute in Hhd. inversion Hhd; subst f.
  vm_compute in Hlast. subst l.
  repeat split; assumption.
Defined.

(** ** C10: the result keeps [from <= to] *)

Lemma consolidatePackageUpdates_wellFormed (group : list UpgradeStep) (T : Q)
    (merged : UpgradeStep) :
  Forall wellFormed group ->
  Forall (fun s => (to s <= T)%Q) group ->
  consolidatePackageUpdates group T = Some merged ->
  wellFormed merged /\ (to merged <= T)%Q.
Proof.
  intros Hwf Hto Hm. destruct group as [| firstStep others]; [discriminate |].
  destruct (consolidatePackageUpdates_fields (firstStep :: others) T firstStep others eq_refl)
    as (m & Hm' & _ & Hmin & HT & _).
  rewrite Hm in Hm'. inversion Hm'; subst m. unfold wellFormed. rewrite HT.
  split; [| apply Qle_refl].
  apply Forall_cons_iff in Hmin as [Hmin _].
  apply Forall_cons_iff in Hwf as [Hwf _].
  apply Forall_cons_iff in Hto as [Hto _].
  unfold wellFormed in Hwf. lra.
Qed.

Lemma consolidateFileSteps_wellFormed (group : list UpgradeStep) (fileName : string)
    (merged : UpgradeStep) :
  Forall wellFormed group ->
  consolidateFileSteps group fileName = Some merged ->
  wellFormed merged.
Proof.
  intros Hwf Hm. destruct group as [| a r]; [discriminate |].
  destruct (consolidateFileSteps_fields (a :: r) fileName)
    as (m & f & l & Hm' & _ & _ & Hf & Hl & _ & Hmax & Hfrom & Hto & _); [discriminate |].
  rewrite Hm in Hm'. inversion Hm'; subst m.
  rewrite List.Forall_forall in Hwf, Hmax.
  specialize (Hmax f Hf). specialize (Hwf l Hl).
  unfold wellFormed in *. rewrite Hfrom, Hto. lra.
Qed.

Section Invariant.
Variable md5 : string -> string.

Lemma consolidateByType_origin (steps : list UpgradeStep) (T : Q) (x : UpgradeStep) :
  In x (consolidateByType md5 steps T) ->
  In x steps
  \/ exists g, incl g steps /\ consolidatePackageUpdates g T = Some x.
Proof.
  rewrite consolidateByType_eq. intros Hx.
  apply in_app_or in Hx as [Hx | Hx].
  - apply in_flat_map in Hx as [[k g] [Hin Hx]].
    destruct (groupSteps_grouped typeKey steps) as [_ Hmem _].
    destruct (Hmem _ _ Hin) as [_ Hg].
    assert (Hincl : incl g steps).
    { intros s Hs. rewrite Hg in Hs. now apply filter_In in Hs. }
    unfold emitTypeGroup in Hx. destruct (String.eqb k "package-update").
    + destruct (consolidatePackageUpdates g T) as [c |] eqn:Hc; [| destruct Hx].
      destruct Hx as [<- | []]. right. now exists g.
    + left. apply Hincl. eapply removeDuplicatesFrom_sub, Hx.
  - left. now apply filter_In in Hx.
Qed.

Lemma consolidateByAffectedFile_origin (steps : list UpgradeStep) (x : UpgradeStep) :
  In x (consolidateByAffectedFile steps) ->
  In x steps
  \/ exists g f, incl g steps /\ consolidateFileSteps g f = Some x.
Proof.
  rewrite consolidateByAffectedFile_eq. intros Hx.
  apply in_app_or in Hx as [Hx | Hx].
  - apply in_flat_map in Hx as [[k g] [Hin Hx]].
    destruct (grouped_file_members _ _ _ Hin) as [_ [_ Hg]].
    assert (Hincl : incl g steps).
    { intros s Hs. rewrite Hg in Hs. now apply filter_In in Hs. }
    unfold emitFileGroup in Hx. destruct g as [| a [| b r]].
    + destruct Hx.
    + destruct Hx as [<- | []]. left. apply Hincl. now left.
    + destruct (consolidateFileSteps (a :: b :: r) k) as [c |] eqn:Hc; [| destruct Hx].
      destruct Hx as [<- | []]. right. now exists (a :: b :: r), k.
  - left. now apply filter_In in Hx.
Qed.

Lemma Forall_of_incl {A} (P : A -> Prop) (g l : list A) :
  incl g l -> Forall P l -> Forall P g.
Proof.
  intros Hincl Hl. rewrite List.Forall_forall in *. intros x Hx. apply Hl, Hincl, Hx.
Qed.

(** C10. If every catalog step has [from <= to], so has every step the
    pipeline returns: a merged package update runs from the least [from]
    of steps inside the window up to [toVersion], and a merged file group
    from its least [from] to the [to] of a member with the greatest
    [from]. *)
Theorem C10_from_le_to_preserved (allSteps : list UpgradeStep) (fromVersion toVersion : Q)
    (catalog_ok : Forall wellFormed allSteps) :
  Forall wellFormed (pipeline md5 allSteps fromVersion toVersion).
Proof.
  unfold pipeline, consolidateSimilarSteps.
  set (relevant := relevantSteps allSteps fromVersion toVersion).
  assert (Hrel : Forall (fun s => wellFormed s /\ (to s <= toVersion)%Q) relevant).
  { apply List.Forall_forall. intros s Hs. apply filter_In in Hs as [Hs Hw].
    apply inWindow_contained in Hw as [_ Hw].
    rewrite List.Forall_forall in catalog_ok. auto. }
  assert (Htype : Forall wellFormed (consolidateByType md5 relevant toVersion)).
  { apply List.Forall_forall. intros x Hx.
    apply consolidateByType_origin in Hx as [Hx | (g & Hincl & Hm)].
    - rewrite List.Forall_forall in Hrel. now apply Hrel.
    - pose proof (Forall_of_incl _ _ _ Hincl Hrel) as Hg.
      eapply (consolidatePackageUpdates_wellFormed g toVersion x); [| | exact Hm].
      + eapply List.Forall_impl; [| exact Hg]. now intros a [Ha _].
      + eapply List.Forall_impl; [| exact Hg]. now intros a [_ Ha]. }
  assert (Hfile : Forall wellFormed
            (consolidateByAffectedFile (consolidateByType md5 relevant toVersion))).
  { apply List.Forall_forall. intros x Hx.
    apply consolidateByAffectedFile_origin in Hx as [Hx | (g & f & Hincl & Hm)].
    - rewrite List.Forall_forall in Htype. now apply Htype.
    - eapply consolidateFileSteps_wellFormed; [| exact Hm].
      eapply Forall_of_incl; eassumption. }
  apply List.Forall_forall. intros x Hx. apply sort_In in Hx.
  rewrite List.Forall_forall in Hfile. now apply Hfile.
Qed.
End Invariant.

Lemma C10_witness :
  Forall wellFormed pipelineSample
  /\ Forall wellFormed (pipeline (fun s => s) pipelineSample 13 15).
Proof.
  assert (H : Forall wellFormed pipelineSample).
  { repeat constructor; unfold wellFormed; simpl; lra. }
  split; [exact H |].
  apply (C10_from_le_to_preserved (fun s => s) pipelineSample 13 15 H).
Defined.

(** ** C6: the final order *)

Lemma keyCompare_keyLe (a b : UpgradeStep) : cmpLe keyCompare a b <-> keyLe a b.
Proof.
  unfold cmpLe, keyCompare, keyLe.
  destruct (Qeq_bool (priorityOf a - priorityOf b) 0) eqn:Ep; simpl.
  - apply Qeq_bool_iff in Ep.
    destruct (Qeq_bool (from a) (from b)) eqn:Ef; simpl.
    + apply Qeq_bool_iff in Ef. split.
      * intros H. right. split; [lra |]. right. split; [exact Ef | lra].
      * intros [H | [_ [H | [_ H]]]]; lra.
    + apply Qeq_bool_neq in Ef. split.
      * intros H. right. split; [lra |]. left.
        destruct (Q_dec (from a) (from b)) as [[H1 | H1] | H1]; [exact H1 | lra | contradiction].
      * intros [H | [_ [H | [H _]]]]; [lra | lra | contradiction].
  - apply Qeq_bool_neq in Ep. split.
    + intros H. left.
      destruct (Q_dec (priorityOf a) (priorityOf b)) as [[H1 | H1] | H1]; [exact H1 | lra |].
      exfalso. apply Ep. lra.
    + intros [H | [H _]]; [lra |]. exfalso. apply Ep. lra.
Qed.

Lemma keyLe_total (a b : UpgradeStep) : keyLe a b \/ keyLe b a.
Proof.
  unfold keyLe.
  destruct (Q_dec (priorityOf a) (priorityOf b)) as [[H | H] | H];
    [left; now left | right; now left |].
  destruct (Q_dec (from a) (from b)) as [[H1 | H1] | H1].
  - left. right. split; [exact H | now left].
  - right. right. split; [now symmetry | now left].
  - destruct (Qlt_le_dec (to b) (to a)) as [H2 | H2].
    + right. right. split; [now symmetry |]. right. split; [now symmetry | lra].
    + left. right. split; [exact H |]. right. now split.
Qed.

Lemma keyLe_trans (a b c : UpgradeStep) : keyLe a b -> keyLe b c -> keyLe a c.
Proof.
  unfold keyLe.
  intros [H1 | [H1 [H2 | [H2 H3]]]] [G1 | [G1 [G2 | [G2 G3]]]];
    try (left; lra);
    right; (split; [lra |]); try (left; lra); right; split; lra.
Qed.

Lemma keyCompare_total (a b : UpgradeStep) :
  cmpLe keyCompare a b \/ cmpLe keyCompare b a.
Proof. rewrite !keyCompare_keyLe. apply keyLe_total. Qed.

Lemma keyCompare_trans (a b c : UpgradeStep) :
  cmpLe keyCompare a b -> cmpLe keyCompare b c -> cmpLe keyCompare a c.
Proof. rewrite !keyCompare_keyLe. apply keyLe_trans. Qed.

Lemma sameKey_keyLe (s a b : UpgradeStep) :
  sameKey s a = true -> sameKey s b = true -> keyLe a b.
Proof.
  unfold sameKey. rewrite !andb_true_iff, !Qeq_bool_iff.
  intros [[Hp Hf] Ht] [[Gp Gf] Gt]. right. split; [lra |]. right. split; lra.
Qed.

Lemma priorities_unknown (k : string) : ~ In k knownTypes -> priorities !! k = None.
Proof.
  intros Hk. unfold priorities. simpl in Hk.
  rewrite !lookup_insert_ne by (intros Heq; apply Hk; subst k; tauto).
  apply lookup_singleton_ne. intros Heq. apply Hk. subst k. tauto.
Qed.

Lemma StronglySorted_weaken {A} (R1 R2 : A -> A -> Prop) (l : list A) :
  (forall a b, R1 a b -> R2 a b) -> StronglySorted R1 l -> StronglySorted R2 l.
Proof.
  intros HR. induction 1 as [| x l _ IH Hall]; constructor; [exact IH |].
  eapply List.Forall_impl; [| exact Hall]. intros b. apply HR.
Qed.

(** C6, at a catalog the code can receive.  A step of type "constructor"
    finds the property of that name that the priority table inherits: its
    priority is not the 10 of an unknown type but an object, the comparator
    returns NaN for it either way round, the sort reads that as a tie and
    leaves the two steps as they were.  The step of unknown type stays in
    front of the step of type "testing", against the order of the key. *)
Theorem C6_inherited_type_breaks_order :
  let result := pipeline (fun s => s) inheritedTypeSample 13 15 in
  getStepTypePriority (Some "constructor") = JS.Inherited "constructor"
  /\ map priorityOf inheritedTypeSample = [10; 5]%Q
  /\ (forall a b, In a inheritedTypeSample -> In b inheritedTypeSample ->
        a = b \/ compareSteps a b = None)
  /\ result = inheritedTypeSample
  /\ ~ StronglySorted keyLe result.
Proof.
  intros result.
  assert (Hresult : result = inheritedTypeSample) by (vm_compute; reflexivity).
  split; [vm_compute; reflexivity |]. split; [vm_compute; reflexivity |].
  split; [| split; [exact Hresult |]].
  - intros a b [<- | [<- | []]] [<- | [<- | []]];
      (now left) || (right; vm_compute; reflexivity).
  - rewrite Hresult. unfold inheritedTypeSample. intros Hsorted.
    apply StronglySorted_inv in Hsorted as [_ Hall].
    apply Forall_cons_iff in Hall as [Hle _].
    unfold keyLe in Hle.
    match type of Hle with
    | (priorityOf ?a < priorityOf ?b)%Q \/ _ =>
        assert (Ha : priorityOf a = 10%Q) by (vm_compute; reflexivity);
        assert (Hb : priorityOf b = 5%Q) by (vm_compute; reflexivity)
    end.
    rewrite Ha, Hb in Hle. destruct Hle as [Hlt | [Heq _]]; lra.
Qed.

(** ** C9 and C8: empty results *)

Section EmptyResults.
Variable md5 : string -> string.
Variables nextjsSteps angularSteps : list UpgradeStep.

Lemma pipeline_nil (fromVersion toVersion : Q) :
  pipeline md5 [] fromVersion toVersion = [].
Proof. reflexivity. Qed.

Lemma relevantSteps_reversed (allSteps : list UpgradeStep) (fromVersion toVersion : Q) :
  (toVersion < fromVersion)%Q ->
  Forall wellFormed allSteps ->
  relevantSteps allSteps fromVersion toVersion = [].
Proof.
  intros Hlt Hwf. apply filter_none. intros s Hs.
  rewrite List.Forall_forall in Hwf. specialize (Hwf s Hs). unfold wellFormed in Hwf.
  destruct (inWindow fromVersion toVersion s) eqn:E; [| reflexivity].
  apply inWindow_contained in E as [E1 E2]. lra.
Qed.

(** The loader returns one of the two catalogs, or nothing. *)
Lemma loadStepsFromFile_returns (framework : string) :
  exists allSteps,
    loadStepsFromFile nextjsSteps angularSteps framework = Returned allSteps
    /\ (allSteps = []
        \/ (frameworkKey framework = "nextjs" /\ allSteps = nextjsSteps)
        \/ (frameworkKey framework = "angular" /\ allSteps = angularSteps)).
Proof.
  unfold loadStepsFromFile.
  destruct (String.eqb_spec (frameworkKey framework) "nextjs") as [Hk | _].
  - exists nextjsSteps. split; [reflexivity |]. right. left. now split.
  - destruct (String.eqb_spec (frameworkKey framework) "angular") as [Hk | _].
    + exists angularSteps. split; [reflexivity |]. right. right. now split.
    + exists []. split; [reflexivity | now left].
Qed.

Lemma getUpgradeSteps_returns (framework : string) (fromVersion toVersion : Q) :
  exists allSteps,
    loadStepsFromFile nextjsSteps angularSteps framework = Returned allSteps
    /\ getUpgradeSteps md5 nextjsSteps angularSteps framework fromVersion toVersion
       = Returned (pipeline md5 allSteps fromVersion toVersion).
Proof.
  destruct (loadStepsFromFile_returns framework) as [l [Hl _]].
  exists l. split; [exact Hl |]. unfold getUpgradeSteps. now rewrite Hl.
Qed.

(** C9. With [toVersion < fromVersion] and catalogs whose steps all have
    [from <= to], the pipeline returns the empty sequence and throws
    nothing; a step with [from > to] can pass the filter. *)
Theorem C9_reversed_window_is_empty (framework : string) (fromVersion toVersion : Q)
    (reversed : (toVersion < fromVersion)%Q)
    (nextjs_ok : Forall wellFormed nextjsSteps)
    (angular_ok : Forall wellFormed angularSteps) :
  getUpgradeSteps md5 nextjsSteps angularSteps framework fromVersion toVersion = Returned []
  /\ (forall allSteps, Forall wellFormed allSteps ->
        pipeline md5 allSteps fromVersion toVersion = [])
  /\ (exists s, ~ wellFormed s /\ relevantSteps [s] fromVersion toVersion = [s]).
Proof.
  assert (Hpipe : forall allSteps, Forall wellFormed allSteps ->
            pipeline md5 allSteps fromVersion toVersion = []).
  { intros allSteps Hwf. unfold pipeline.
    now rewrite (relevantSteps_reversed _ _ _ reversed Hwf). }
  split; [| split; [exact Hpipe |]].
  - destruct (getUpgradeSteps_returns framework fromVersion toVersion) as [l [Hl ->]].
    f_equal. apply Hpipe.
    destruct (loadStepsFromFile_returns framework) as [l' [Hl' Hcases]].
    rewrite Hl in Hl'. inversion Hl'; subst l'.
    destruct Hcases as [-> | [[_ ->] | [_ ->]]];
      [constructor | exact nextjs_ok | exact angular_ok].
  - exists (mkStep "" "" fromVersion toVersion None None). split.
    + unfold wellFormed. simpl. lra.
    + unfold relevantSteps, inWindow. simpl.
      assert (H1 : Qle_bool fromVersion fromVersion = true)
        by (apply Qle_bool_iff, Qle_refl).
      assert (H2 : Qle_bool toVersion toVersion = true)
        by (apply Qle_bool_iff, Qle_refl).
      now rewrite H1, H2.
Qed.

Lemma chars_str (l : list ascii) : JS.chars (JS.str l) = l.
Proof. apply list_ascii_of_string_of_list_ascii. Qed.


Lemma drop_first_dot_punctuation (l : list ascii) :
  List.filter (fun c => negb (isPunctuation c)) (JS.replaceStrL ["."%char] [] l)
  = List.filter (fun c => negb (isPunctuation c)) l.
Proof.
  induction l as [| c l IH]; [reflexivity |].
  cbn [JS.replaceStrL JS.isPrefixL].
  destruct (Ascii.eqb_spec "."%char c) as [<- | Hne].
  - reflexivity.
  - cbn [andb]. simpl. now rewrite IH.
Qed.

Example frameworkKey_of_supported :
  frameworkKey "Next.JS" = "nextjs" /\ frameworkKey "Angular" = "angular".
Proof. split; reflexivity. Qed.

(** The key computed by the loader is coarser than the specification's
    normalization only in what it accepts: a supported key is supported
    under the specification's normalization too. *)
Lemma supported_frameworkKey_normalizes (framework : string) :
  supportedKey (frameworkKey framework) -> supportedKey (specNormalize framework).
Proof.
  unfold frameworkKey, JS.replaceStr, JS.toLowerCase, specNormalize.
  rewrite chars_str.
  change (JS.chars ".") with ["."%char]. change (JS.chars "") with (@nil ascii).
  rewrite <- (drop_first_dot_punctuation (map JS.lowerChar (JS.chars framework))).
  intros [H | H]; apply (f_equal JS.chars) in H; rewrite chars_str in H;
    rewrite H; [left | right]; reflexivity.
Qed.

(** An identifier that is not supported gives nothing. *)
Lemma unsupported_gives_nothing (framework : string) (fromVersion toVersion : Q) :
  ~ supportedKey (frameworkKey framework) ->
  getUpgradeSteps md5 nextjsSteps angularSteps framework fromVersion toVersion = Returned []
  /\ hasUpgradePath md5 nextjsSteps angularSteps framework fromVersion toVersion
     = Returned false.
Proof.
  intros Hk.
  assert (Hload : loadStepsFromFile nextjsSteps angularSteps framework = Returned []).
  { unfold loadStepsFromFile.
    destruct (String.eqb_spec (frameworkKey framework) "nextjs") as [E | _];
      [elim Hk; now left |].
    destruct (String.eqb_spec (frameworkKey framework) "angular") as [E | _];
      [elim Hk; now right | reflexivity]. }
  assert (Hsteps : getUpgradeSteps md5 nextjsSteps angularSteps framework
                     fromVersion toVersion = Returned []).
  { unfold getUpgradeSteps. rewrite Hload. reflexivity. }
  split; [exact Hsteps |].
  unfold hasUpgradePath. rewrite Hsteps. reflexivity.
Qed.
End EmptyResults.

Lemma C9_witness :
  (13 < 15)%Q
  /\ getUpgradeSteps (fun s => s) pipelineSample typedSample "Next.JS" 15 13 = Returned [].
Proof.
  split; [reflexivity |].
  apply (C9_reversed_window_is_empty (fun s => s) pipelineSample typedSample "Next.JS" 15 13).
  - reflexivity.
  - repeat constructor; unfold wellFormed; simpl; lra.
  - repeat constructor; unfold wellFormed; simpl; lra.
Defined.

(** C8, where a catalog cannot be read.  The catalogs are imported at the
    head of the module, outside the [try] block of [loadStepsFromFile],
    which holds nothing that throws.  When the Angular catalog is missing
    the import throws and the error reaches the caller of
    [getUpgradeSteps] and of [hasUpgradePath]; the empty sequence and
    [false] are what the earlier data layer, which reads the catalog inside
    its [try] block, returns for the same request. *)
Theorem C8_failed_import_is_not_caught :
  sampleRequire angularPath = Thrown "Cannot find module"
  /\ importing sampleRequire
       (fun nextjsSteps angularSteps =>
          getUpgradeSteps (fun s => s) nextjsSteps angularSteps "Angular" 13 15)
     = Thrown "Cannot find module"
  /\ importing sampleRequire
       (fun nextjsSteps angularSteps =>
          hasUpgradePath (fun s => s) nextjsSteps angularSteps "Angular" 13 15)
     = Thrown "Cannot find module"
  /\ Legacy.getUpgradeSteps (fun s => s) sampleRequire "Angular" 13 15 = Returned []
  /\ Legacy.hasUpgradePath (fun s => s) sampleRequire "Angular" 13 15 = Returned false.
Proof. repeat split; reflexivity. Qed.

(** ** Soundness and completeness of the matcher

    The matcher succeeds at a position exactly when some text of the
    pattern's language starts there. *)

Lemma Matches_nil_nullable (ic : bool) (r : regex) (m : list ascii) :
  Matches ic r m -> m = [] -> nullable r = true.
Proof.
  induction 1 as [| a c Hc | a c m Hc Hm | a m Hm | r1 r2 m1 m2 _ IH1 _ IH2
                 | r1 m _ IH | r1]; intros Hnil; simpl; try reflexivity;
    try discriminate.
  apply app_eq_nil in Hnil as [H1 H2]. now rewrite IH1, IH2.
Qed.

Section MatcherFacts.
Context {R : Type}.
Variable ic : bool.

Lemma star_sound (a : atom) (s : list ascii) (k : list ascii -> option R) (x : R) :
  star ic a s k = Some x ->
  exists m rest, s = m ++ rest /\ Forall (fun c => atomb ic a c = true) m /\ k rest = Some x.
Proof.
  induction s as [| c s IH]; simpl; intros H.
  - exists [], []. auto.
  - destruct (atomb ic a c) eqn:Ec.
    + destruct (star ic a s k) as [y |] eqn:Es.
      * inversion H; subst y. destruct (IH eq_refl) as (m & rest & -> & Hm & Hk).
        exists (c :: m), rest. repeat split; [constructor; assumption | exact Hk].
      * exists [], (c :: s). auto.
    + exists [], (c :: s). auto.
Qed.

Lemma star_continues (a : atom) (s : list ascii) (k : list ascii -> option R) (x : R) :
  k s = Some x -> exists y, star ic a s k = Some y.
Proof.
  intros Hk. destruct s as [| c s]; simpl; [eauto |].
  destruct (atomb ic a c); [| eauto].
  destruct (star ic a s k); eauto.
Qed.

Lemma star_complete (a : atom) (m rest : list ascii) (k : list ascii -> option R) (x : R) :
  Forall (fun c => atomb ic a c = true) m -> k rest = Some x ->
  exists y, star ic a (m ++ rest) k = Some y.
Proof.
  intros Hm Hk. induction Hm as [| c m Hc _ IH]; simpl.
  - eapply star_continues, Hk.
  - rewrite Hc. destruct IH as [y ->]. eauto.
Qed.
End MatcherFacts.

Lemma run_sound {R} (ic : bool) (r : regex) :
  forall (s : list ascii) (k : list ascii -> option R) (x : R),
    run ic r s k = Some x ->
    exists m rest, s = m ++ rest /\ Matches ic r m /\ k rest = Some x.
Proof.
  induction r as [| a | a | a | r1 IH1 r2 IH2 | r1 IH1]; intros s k x H; simpl in H.
  - exists [], s. repeat split; [constructor | exact H].
  - destruct s as [| c s]; [discriminate |].
    destruct (atomb ic a c) eqn:Ec; [| discriminate].
    exists [c], s. repeat split; [now constructor | exact H].
  - unfold plus in H. destruct s as [| c s]; [discriminate |].
    destruct (atomb ic a c) eqn:Ec; [| discriminate].
    apply star_sound in H as (m & rest & -> & Hm & Hk).
    exists (c :: m), rest. repeat split; [now constructor | exact Hk].
  - apply star_sound in H as (m & rest & -> & Hm & Hk).
    exists m, rest. repeat split; [now constructor | exact Hk].
  - apply IH1 in H as (m1 & rest1 & -> & Hm1 & H).
    apply IH2 in H as (m2 & rest & -> & Hm2 & Hk).
    exists (m1 ++ m2), rest. rewrite <- app_assoc.
    repeat split; [now constructor | exact Hk].
  - destruct (run ic r1 s k) as [y |] eqn:E.
    + inversion H; subst y. apply IH1 in E as (m & rest & -> & Hm & Hk).
      exists m, rest. repeat split; [now constructor | exact Hk].
    + exists [], s. repeat split; [apply Matches_Opt_none | exact H].
Qed.

Lemma run_complete {R} (ic : bool) (r : regex) (m : list ascii) :
  Matches ic r m ->
  forall (rest : list ascii) (k : list ascii -> option R) (x : R),
    k rest = Some x -> exists y, run ic r (m ++ rest) k = Some y.
Proof.
  induction 1 as [| a c Hc | a c m Hc Hm | a m Hm | r1 r2 m1 m2 _ IH1 _ IH2
                 | r1 m _ IH | r1]; intros rest k x Hk; simpl.
  - eauto.
  - rewrite Hc. eauto.
  - rewrite Hc. eapply star_complete; eassumption.
  - eapply star_complete; eassumption.
  - rewrite <- app_assoc. destruct (IH2 rest k x Hk) as [y Hy].
    eapply (IH1 (m2 ++ rest) (fun s' => run ic r2 s' k)), Hy.
  - destruct (IH rest k x Hk) as [y ->]. eauto.
  - destruct (run ic r1 rest k); eauto.
Qed.

Lemma matchHere_sound (ic : bool) (r : regex) (s rest : list ascii) :
  matchHere ic r s = Some rest -> exists m, s = m ++ rest /\ Matches ic r m.
Proof.
  intros H. apply run_sound in H as (m & rest' & -> & Hm & Hk).
  inversion Hk; subst rest'. now exists m.
Qed.

Lemma matchHere_none (ic : bool) (r : regex) (s : list ascii) :
  matchHere ic r s = None -> ~ MatchAt ic r s.
Proof.
  intros H (m & rest & -> & Hm).
  destruct (run_complete ic r m Hm rest Some rest eq_refl) as [y Hy].
  unfold matchHere in H. congruence.
Qed.

(** *** The extent of a match

    A greedy repetition whose continuation cannot go on at a character of
    the class, or cannot fail, stops where the run of the class ends. *)

Lemma star_stops {R} (ic : bool) (a : atom) (s : list ascii)
    (k : list ascii -> option R) (x : R) :
  (forall c s', atomb ic a c = true -> k (c :: s') = None)
  \/ (forall s', k s' <> None) ->
  star ic a s k = Some x ->
  exists m rest,
    s = m ++ rest
    /\ Forall (fun c => atomb ic a c = true) m
    /\ (forall c r, rest = c :: r -> atomb ic a c = false)
    /\ k rest = Some x.
Proof.
  intros Hk. induction s as [| c s IH]; simpl; intros H.
  - exists [], []. repeat split; [constructor | discriminate | exact H].
  - destruct (atomb ic a c) eqn:Ec.
    + destruct (star ic a s k) as [y |] eqn:Es.
      * inversion H; subst y. destruct (IH eq_refl) as (m & rest & -> & Hm & Hstop & Hrest).
        exists (c :: m), rest. repeat split; [now constructor | exact Hstop | exact Hrest].
      * exfalso. destruct Hk as [Hfail | Htotal].
        -- rewrite (Hfail c s Ec) in H. discriminate.
        -- destruct (k s) as [y |] eqn:Eks; [| now apply (Htotal s)].
           destruct (star_continues ic a s k y Eks) as [z Hz]. congruence.
    + exists [], (c :: s). repeat split; [constructor | | exact H].
      intros c' r Hr. inversion Hr; subst. exact Ec.
Qed.

(** Two ways of cutting a text behind a run of a class: the run that ends
    where the class ends holds the other one. *)
Lemma run_prefix (p : ascii -> bool) (m m' r r' : list ascii) :
  m ++ r = m' ++ r' ->
  Forall (fun c => p c = true) m' ->
  (forall c t, r = c :: t -> p c = false) ->
  exists t, m = m' ++ t /\ r' = t ++ r.
Proof.
  intros Heq Hm' Hstop. revert m Heq.
  induction Hm' as [| x m' Hx _ IH]; intros m Heq.
  - exists m. split; [reflexivity | now symmetry].
  - destruct m as [| y m].
    + simpl in Heq. rewrite (Hstop x (m' ++ r') Heq) in Hx. discriminate.
    + simpl in Heq. inversion Heq; subst y.
      destruct (IH m H1) as (t & -> & ->). now exists t.
Qed.

Lemma dot_atom (ic : bool) (c : ascii) : atomb ic (AChar ".") c = true -> c = "."%char.
Proof.
  intros H.
  destruct ic, c as [[] [] [] [] [] [] [] []]; vm_compute in H;
    try discriminate H; reflexivity.
Qed.

Lemma Matches_version_inv (ic : bool) (m : list ascii) :
  Matches ic version m ->
  exists d1 D1 d2 D2 O,
    m = (d1 :: D1) ++ "."%char :: (d2 :: D2) ++ O
    /\ JS.isDigit d1 = true /\ Forall (fun c => JS.isDigit c = true) D1
    /\ JS.isDigit d2 = true /\ Forall (fun c => JS.isDigit c = true) D2
    /\ (O = []
        \/ exists d3 D3,
             O = "."%char :: d3 :: D3
             /\ JS.isDigit d3 = true /\ Forall (fun c => JS.isDigit c = true) D3).
Proof.
  unfold version. intros H.
  inversion H as [| | | | r1 r2 m1 m2 H1 H2 | |]; subst; clear H.
  inversion H1 as [| | a d1 D1 Hd1 HD1 | | | |]; subst; clear H1.
  inversion H2 as [| | | | r1 r2 m1 m3 H3 H4 | |]; subst; clear H2.
  inversion H3 as [| a c Hc | | | | |]; subst; clear H3.
  apply dot_atom in Hc. subst c.
  inversion H4 as [| | | | r1 r2 m1 m4 H5 H6 | |]; subst; clear H4.
  inversion H5 as [| | a d2 D2 Hd2 HD2 | | | |]; subst; clear H5.
  exists d1, D1, d2, D2, m4.
  split; [reflexivity |]. repeat (split; [assumption |]).
  inversion H6 as [| | | | | r m H7 |]; subst; clear H6; [| now left].
  inversion H7 as [| | | | r1 r2 m1 m5 H8 H9 | |]; subst; clear H7.
  inversion H8 as [| a c Hc | | | | |]; subst; clear H8.
  apply dot_atom in Hc. subst c.
  inversion H9 as [| | a d3 D3 Hd3 HD3 | | | |]; subst; clear H9.
  right. exists d3, D3. now repeat split.
Qed.

(** The greedy match of a version token is the longest one. *)
Lemma version_longest (ic : bool) : GreedyIsLongest ic version.
Proof.
  intros s rest Hrun m' rest' Hs Hm'.
  apply Matches_version_inv in Hm'
    as (d1 & D1 & d2 & D2 & O & -> & Hd1 & HD1 & Hd2 & HD2 & HO).
  unfold matchHere, version in Hrun. cbn [run] in Hrun. unfold plus in Hrun at 1.
  subst s. cbn [app] in Hrun. change (atomb ic ADigit d1) with (JS.isDigit d1) in Hrun.
  rewrite Hd1 in Hrun.
  apply star_stops in Hrun as (m1 & r1 & Hs1 & Hm1 & Hstop1 & Hrun).
  2:{ left. intros c s' Hc. cbn [run]. destruct (atomb ic (AChar ".") c) eqn:E; [| reflexivity].
      apply dot_atom in E. subst c. discriminate Hc. }
  destruct r1 as [| x r2]; [discriminate |].
  destruct (atomb ic (AChar ".") x) eqn:Ex; [| discriminate].
  apply dot_atom in Ex. subst x.
  rewrite <- app_assoc in Hs1. symmetry in Hs1.
  destruct (run_prefix JS.isDigit m1 D1 ("."%char :: r2) _ Hs1 HD1 Hstop1)
    as (t & -> & Ht).
  destruct t as [| x t].
  2:{ exfalso. simpl in Ht. inversion Ht; subst x.
      apply Forall_app in Hm1 as [_ Hm1]. apply Forall_cons_iff in Hm1 as [Hm1 _].
      discriminate Hm1. }
  simpl in Ht. inversion Ht as [Hr2]. clear Ht Hs1 Hm1 Hstop1.
  unfold plus in Hrun. rewrite <- Hr2 in Hrun. cbn [app] in Hrun.
  change (atomb ic ADigit d2) with (JS.isDigit d2) in Hrun. rewrite Hd2 in Hrun.
  apply star_stops in Hrun as (m2 & r3 & Hs2 & Hm2 & Hstop2 & Hrun).
  2:{ right. intros s'.
      match goal with |- match ?x with _ => _ end <> None => destruct x; discriminate end. }
  rewrite <- app_assoc in Hs2. symmetry in Hs2.
  destruct (run_prefix JS.isDigit m2 D2 r3 _ Hs2 HD2 Hstop2) as (t & -> & Ht).
  assert (Hrest : (length rest <= length r3)%nat).
  { destruct r3 as [| c r4]; [inversion Hrun; simpl; lia |].
    destruct (atomb ic (AChar ".") c); [| inversion Hrun; lia].
    destruct r4 as [| c' r5]; [inversion Hrun; lia |].
    destruct (atomb ic ADigit c'); [| inversion Hrun; lia].
    destruct (star ic ADigit r5 Some) as [y |] eqn:Ep; [| inversion Hrun; lia].
    inversion Hrun; subst y.
    apply star_sound in Ep as (m3 & rest3 & -> & _ & Hk). inversion Hk; subst rest3.
    simpl. rewrite length_app. lia. }
  destruct t as [| x t].
  - simpl in Ht. destruct HO as [-> | (d3 & D3 & -> & Hd3 & HD3)].
    + simpl in Ht. subst rest'. exact Hrest.
    + subst r3. cbn [app] in Hrun.
      assert (Hdot : atomb ic (AChar ".") "." = true) by (destruct ic; reflexivity).
      rewrite Hdot in Hrun.
      change (atomb ic ADigit d3) with (JS.isDigit d3) in Hrun. rewrite Hd3 in Hrun.
      destruct (star ic ADigit (D3 ++ rest') Some) as [y |] eqn:Es.
      * inversion Hrun; subst y.
        apply star_stops in Es as (m3 & r4 & Hs3 & Hm3 & Hstop3 & Hk);
          [| right; discriminate].
        inversion Hk; subst r4. symmetry in Hs3.
        destruct (run_prefix JS.isDigit m3 D3 rest _ Hs3 HD3 Hstop3) as (t' & _ & ->).
        rewrite length_app. lia.
      * destruct (star_continues ic ADigit (D3 ++ rest') Some _ eq_refl) as [z Hz].
        congruence.
  - assert (HO' : O = []).
    { destruct HO as [-> | (d3 & D3 & -> & _)]; [reflexivity |].
      exfalso. simpl in Ht. inversion Ht; subst x.
      apply Forall_app in Hm2 as [_ Hm2]. apply Forall_cons_iff in Hm2 as [Hm2 _].
      discriminate Hm2. }
    subst O. simpl in Ht. subst rest'. simpl. rewrite length_app. lia.
Qed.

Lemma lit_length (ic : bool) (P m : list ascii) :
  Matches ic (lit P) m -> length m = length P.
Proof.
  revert m. induction P as [| c P IH]; intros m H.
  - inversion H. reflexivity.
  - destruct P as [| c' P'].
    + inversion H. reflexivity.
    + change (lit (c :: c' :: P')) with (Seq (Atom (AChar c)) (lit (c' :: P'))) in H.
      inversion H as [| | | | r1 r2 m1 m2 H1 H2 | |]; subst.
      inversion H1; subst. simpl. f_equal. now apply IH.
Qed.

(** A pattern behind a literal prefix: the longest match stays the
    longest. *)
Lemma prefixed_longest (ic : bool) (P : list ascii) (r : regex) :
  GreedyIsLongest ic r -> GreedyIsLongest ic (Seq (lit P) r).
Proof.
  intros Hr s rest Hrun m' rest' Hs Hm'.
  unfold matchHere in Hrun. cbn [run] in Hrun.
  apply run_sound in Hrun as (m1 & s1 & -> & Hm1 & Hrun).
  inversion Hm' as [| | | | r1 r2 a b Ha Hb | |]; subst.
  apply lit_length in Hm1. apply lit_length in Ha.
  rewrite <- app_assoc in Hs.
  assert (Hcut : s1 = b ++ rest').
  { apply (f_equal (skipn (length P))) in Hs.
    rewrite <- Hm1 in Hs at 1. rewrite <- Ha in Hs.
    now rewrite !skipn_app, !skipn_all, !Nat.sub_diag in Hs. }
  exact (Hr s1 rest Hrun b rest' Hcut Hb).
Qed.

Lemma matchHere_longest (ic : bool) (r : regex) (s rest : list ascii) :
  GreedyIsLongest ic r -> matchHere ic r s = Some rest ->
  exists m, s = m ++ rest /\ LongestMatch ic r m rest.
Proof.
  intros Hr H. destruct (matchHere_sound _ _ _ _ H) as (m & -> & Hm).
  exists m. split; [reflexivity |]. split; [exact Hm |].
  intros m' rest' Heq Hm'. pose proof (Hr _ _ H m' rest' Heq Hm') as Hlen.
  apply (f_equal (@length ascii)) in Heq. rewrite !length_app in Heq. lia.
Qed.

Lemma replaceFirstL_spec (ic : bool) (r : regex) (rep s : list ascii) :
  GreedyIsLongest ic r ->
  FirstReplaced ic r rep s (replaceFirstL ic r rep s).
Proof.
  intros Hr. induction s as [| c s IH]; simpl.
  - destruct (matchHere ic r []) as [rest |] eqn:E.
    + apply (matchHere_longest _ _ _ _ Hr) in E as (m & E & Hm). rewrite E. now constructor.
    + constructor. now apply matchHere_none.
  - destruct (matchHere ic r (c :: s)) as [rest |] eqn:E.
    + apply (matchHere_longest _ _ _ _ Hr) in E as (m & E & Hm). rewrite E. now constructor.
    + constructor; [now apply matchHere_none | exact IH].
Qed.

Lemma replaceAllL_skip (ic : bool) (r : regex) (rep : list ascii) (n : nat) :
  forall s, (n <= length s)%nat ->
    replaceAllL ic r rep n s = replaceAllL ic r rep 0 (skipn n s).
Proof.
  induction n as [| n IH]; intros s Hn; [reflexivity |].
  destruct s as [| c s]; simpl in Hn; [lia |].
  simpl. apply IH. lia.
Qed.

Lemma replaceAllL_spec (ic : bool) (r : regex) (rep : list ascii) :
  nullable r = false -> GreedyIsLongest ic r ->
  forall s, EveryReplaced ic r rep s (replaceAllL ic r rep 0 s).
Proof.
  intros Hnullable Hr s.
  assert (Hnull : ~ Matches ic r []).
  { intros H. apply Matches_nil_nullable in H; [congruence | reflexivity]. }
  remember (length s) as n eqn:Hn. revert s Hn.
  induction n as [n IH] using lt_wf_ind. intros s Hn.
  destruct s as [| c s].
  - simpl. destruct (matchHere ic r []) as [rest |] eqn:E; [| constructor].
    apply matchHere_sound in E as (m & E & Hm).
    symmetry in E. apply app_eq_nil in E as [-> _]. contradiction.
  - cbn [replaceAllL]. destruct (matchHere ic r (c :: s)) as [rest |] eqn:E.
    + apply (matchHere_longest _ _ _ _ Hr) in E as (m & E & Hm).
      destruct m as [| c' m]; [destruct Hm as [Hm _]; contradiction |].
      simpl in E. inversion E; subst c' s.
      replace (length (c :: m ++ rest) - length rest)%nat with (S (length m))
        by (simpl; rewrite length_app; lia).
      rewrite replaceAllL_skip by (rewrite length_app; lia).
      rewrite skipn_app, skipn_all, Nat.sub_diag. simpl.
      change (c :: m ++ rest) with ((c :: m) ++ rest).
      constructor; [discriminate | exact Hm |].
      apply (IH (length rest)); [| reflexivity].
      subst n. simpl. rewrite length_app. lia.
    + constructor; [now apply matchHere_none |].
      apply (IH (length s)); [subst n; simpl; lia | reflexivity].
Qed.

(** The two relations determine the text they describe. *)
Lemma LongestMatch_unique (ic : bool) (r : regex) (m rest m' rest' : list ascii) :
  LongestMatch ic r m rest -> LongestMatch ic r m' rest' -> m ++ rest = m' ++ rest' ->
  m = m' /\ rest = rest'.
Proof.
  intros [Hm Hlong] [Hm' Hlong'] Heq.
  pose proof (Hlong m' rest' Heq Hm') as H1.
  pose proof (Hlong' m rest (eq_sym Heq) Hm) as H2.
  assert (Hlen : length m = length m') by lia.
  clear - Heq Hlen. revert m' Heq Hlen.
  induction m as [| c m IH]; intros [| c' m'] Heq Hlen; simpl in *; try discriminate.
  - now split.
  - inversion Heq; subst c'. destruct (IH m' H1) as [-> ->]; [lia | now split].
Qed.

Lemma LongestMatch_MatchAt (ic : bool) (r : regex) (m rest s : list ascii) :
  LongestMatch ic r m rest -> s = m ++ rest -> MatchAt ic r s.
Proof. intros [Hm _] ->. now exists m, rest. Qed.

Lemma FirstReplaced_functional (ic : bool) (r : regex) (rep s out1 out2 : list ascii) :
  FirstReplaced ic r rep s out1 -> FirstReplaced ic r rep s out2 -> out1 = out2.
Proof.
  intros H1. revert out2.
  induction H1 as [m rest Hm | c s out Hno _ IH | Hno]; intros out2 H2.
  - remember (m ++ rest) as s eqn:Hs.
    destruct H2 as [m' rest' Hm' | c s out Hno _ | Hno];
      [| exfalso; eauto using LongestMatch_MatchAt, eq_sym ..].
    destruct (LongestMatch_unique _ _ _ _ _ _ Hm Hm' (eq_sym Hs)) as [_ ->].
    reflexivity.
  - remember (c :: s) as s0 eqn:Hs.
    destruct H2 as [m' rest' Hm' | c' s' out' Hno' H' | Hno'];
      [exfalso; eauto using LongestMatch_MatchAt, eq_sym | | discriminate].
    inversion Hs; subst c' s'. f_equal. now apply IH.
  - remember (@nil ascii) as s0 eqn:Hs.
    destruct H2 as [m' rest' Hm' | c' s' out' Hno' H' | Hno'];
      [exfalso; eauto using LongestMatch_MatchAt, eq_sym | discriminate | reflexivity].
Qed.

Lemma EveryReplaced_functional (ic : bool) (r : regex) (rep s out1 out2 : list ascii) :
  EveryReplaced ic r rep s out1 -> EveryReplaced ic r rep s out2 -> out1 = out2.
Proof.
  intros H1. revert out2.
  induction H1 as [| m rest out Hne Hm _ IH | c s out Hno _ IH]; intros out2 H2.
  - remember (@nil ascii) as s0 eqn:Hs.
    destruct H2 as [| m' rest' out' Hne' Hm' H' | c' s' out' Hno' H'];
      [reflexivity | | discriminate].
    exfalso. apply Hne'. destruct m'; [reflexivity | discriminate Hs].
  - remember (m ++ rest) as s eqn:Hs.
    destruct H2 as [| m' rest' out' Hne' Hm' H' | c' s' out' Hno' H'].
    + exfalso. apply Hne. destruct m; [reflexivity | discriminate Hs].
    + destruct (LongestMatch_unique _ _ _ _ _ _ Hm Hm' (eq_sym Hs)) as [_ <-].
      f_equal. now apply IH.
    + exfalso. eauto using LongestMatch_MatchAt, eq_sym.
  - remember (c :: s) as s0 eqn:Hs.
    destruct H2 as [| m' rest' out' Hne' Hm' H' | c' s' out' Hno' H'];
      [discriminate | exfalso; eauto using LongestMatch_MatchAt, eq_sym |].
    inversion Hs; subst c' s'. f_equal. now apply IH.
Qed.

(** The three phrases and the token of the source. *)
Lemma phrase_longest (ic : bool) (word : string) :
  GreedyIsLongest ic (Seq (text word) version).
Proof. apply prefixed_longest, version_longest. Qed.

(** The meaning of [trim]. *)
Lemma trimStartL_spec (l : list ascii) :
  exists pre,
    l = pre ++ JS.trimStartL l
    /\ Forall (fun c => JS.isWhiteSpace c = true) pre
    /\ (forall c r, JS.trimStartL l = c :: r -> JS.isWhiteSpace c = false).
Proof.
  induction l as [| c l (pre & Hl & Hpre & Hhead)]; simpl.
  - exists []. repeat split; [constructor | discriminate].
  - destruct (JS.isWhiteSpace c) eqn:Ec.
    + exists (c :: pre). simpl. rewrite <- Hl.
      repeat split; [now constructor | exact Hhead].
    + exists []. repeat split; [constructor |].
      intros c' r H. now inversion H; subst.
Qed.

Lemma trimL_spec (l : list ascii) : Trimmed l (JS.trimL l).
Proof.
  unfold JS.trimL, JS.trimEndL.
  destruct (trimStartL_spec l) as (pre & Hl & Hpre & Hhead).
  destruct (trimStartL_spec (rev (JS.trimStartL l))) as (post & Hr & Hpost & Hlast).
  set (a := JS.trimStartL l) in *. set (b := JS.trimStartL (rev a)) in *.
  assert (Ha : a = rev b ++ rev post).
  { rewrite <- rev_app_distr, <- Hr. symmetry. apply rev_involutive. }
  exists pre, (rev post). repeat split.
  - now rewrite <- Ha.
  - exact Hpre.
  - apply Forall_rev. exact Hpost.
  - intros c r Hb. apply (Hhead c (r ++ rev post)). rewrite Ha, Hb. reflexivity.
  - intros c r Hb. apply (Hlast c (rev r)).
    rewrite <- (rev_involutive b), Hb, rev_app_distr. reflexivity.
Qed.

Lemma ws_prefix_unique (pre pre' r r' : list ascii) (c c' : ascii) :
  pre ++ c :: r = pre' ++ c' :: r' ->
  Forall (fun x => JS.isWhiteSpace x = true) pre ->
  Forall (fun x => JS.isWhiteSpace x = true) pre' ->
  JS.isWhiteSpace c = false -> JS.isWhiteSpace c' = false ->
  pre = pre' /\ c :: r = c' :: r'.
Proof.
  intros Heq Hpre Hpre' Hc Hc'.
  destruct (run_prefix JS.isWhiteSpace pre pre' (c :: r) (c' :: r') Heq Hpre')
    as (u & Hu & Hr).
  { intros x t Hx. inversion Hx; subst. exact Hc. }
  destruct u as [| x u].
  - rewrite app_nil_r in Hu. split; [exact Hu | now symmetry].
  - exfalso. simpl in Hr. inversion Hr; subst x. subst pre.
    apply Forall_app in Hpre as [_ Hpre]. apply Forall_cons_iff in Hpre as [Hpre _].
    congruence.
Qed.

(** [trim] is the only text that [Trimmed] describes. *)
Lemma Trimmed_functional (l t t' : list ascii) : Trimmed l t -> Trimmed l t' -> t = t'.
Proof.
  intros (pre & post & Hl & Hpre & Hpost & Hhead & Hlast)
         (pre' & post' & Hl' & Hpre' & Hpost' & Hhead' & Hlast').
  destruct t as [| c r], t' as [| c' r']; [reflexivity | | |].
  - exfalso. simpl in Hl. subst l.
    assert (Hin : In c' (pre ++ post)).
    { rewrite Hl'. apply in_or_app. right. now left. }
    assert (Hall : Forall (fun x => JS.isWhiteSpace x = true) (pre ++ post))
      by (apply Forall_app; now split).
    rewrite List.Forall_forall in Hall.
    pose proof (Hhead' c' r' eq_refl) as Hc'. rewrite (Hall c' Hin) in Hc'. discriminate.
  - exfalso. simpl in Hl'. subst l.
    assert (Hin : In c (pre' ++ post')).
    { rewrite <- Hl'. apply in_or_app. right. now left. }
    assert (Hall : Forall (fun x => JS.isWhiteSpace x = true) (pre' ++ post'))
      by (apply Forall_app; now split).
    rewrite List.Forall_forall in Hall.
    pose proof (Hhead c r eq_refl) as Hc. rewrite (Hall c Hin) in Hc. discriminate.
  - subst l. simpl in Hl'.
    destruct (ws_prefix_unique pre pre' (r ++ post) (r' ++ post') c c' Hl' Hpre Hpre'
                (Hhead c r eq_refl) (Hhead' c' r' eq_refl)) as [_ Hrest].
    change ((c :: r) ++ post = (c' :: r') ++ post') in Hrest.
    apply (f_equal (@rev ascii)) in Hrest. rewrite !rev_app_distr in Hrest.
    destruct (rev (c :: r)) as [| z w] eqn:Ez.
    { apply (f_equal (@length ascii)) in Ez. rewrite length_rev in Ez. discriminate. }
    destruct (rev (c' :: r')) as [| z' w'] eqn:Ez'.
    { apply (f_equal (@length ascii)) in Ez'. rewrite length_rev in Ez'. discriminate. }
    assert (Ht : c :: r = rev w ++ [z]).
    { rewrite <- (rev_involutive (c :: r)), Ez. reflexivity. }
    assert (Ht' : c' :: r' = rev w' ++ [z']).
    { rewrite <- (rev_involutive (c' :: r')), Ez'. reflexivity. }
    destruct (ws_prefix_unique (rev post) (rev post') w w' z z' Hrest
                (Forall_rev Hpost) (Forall_rev Hpost')
                (Hlast z (rev w) Ht) (Hlast' z' (rev w') Ht')) as [_ Heq].
    rewrite Ht, Ht'. inversion Heq. reflexivity.
Qed.

(** The base instruction of a step, by the meaning of its three patterns:
    every "to X.Y(.Z)" and every "version X.Y(.Z)" phrase, in any letter
    case, and then every version token is removed; the rest is trimmed. *)
Lemma baseInstructionOf_spec (step : UpgradeStep) :
  exists i1 i2 i3,
    EveryReplaced true toPhrase [] (JS.chars (instruction step)) i1
    /\ EveryReplaced true versionPhrase [] i1 i2
    /\ EveryReplaced false version [] i2 i3
    /\ Trimmed i3 (JS.chars (baseInstructionOf step)).
Proof.
  unfold baseInstructionOf, replace, JS.trim.
  cbn [global reTo reVersion reVersionWord pattern ignoreCase].
  rewrite !chars_str. do 3 eexists.
  split; [apply replaceAllL_spec; [reflexivity | apply phrase_longest] |].
  split; [apply replaceAllL_spec; [reflexivity | apply phrase_longest] |].
  split; [apply replaceAllL_spec; [reflexivity | apply version_longest] | apply trimL_spec].
Qed.

(** ** C7: the instruction of a merged file group *)

Lemma OSet_add_In (x y : string) (s : OSet.t) :
  In y (OSet.add x s) <-> In y s \/ y = x.
Proof.
  unfold OSet.add. destruct (OSet.has x s) eqn:E.
  - split; [now left |]. intros [H | ->]; [exact H |].
    unfold OSet.has in E. apply existsb_exists in E as [z [Hz Heq]].
    apply String.eqb_eq in Heq. now subst z.
  - rewrite in_app_iff. simpl. split.
    + intros [H | [H | []]]; [now left | right; now symmetry].
    + intros [H | ->]; [now left | right; now left].
Qed.

Lemma OSet_add_NoDup (x : string) (s : OSet.t) :
  List.NoDup s -> List.NoDup (OSet.add x s).
Proof.
  intros Hs. unfold OSet.add. destruct (OSet.has x s) eqn:E; [exact Hs |].
  apply List.NoDup_app; [exact Hs | constructor; [intros [] | constructor] |].
  intros a Ha [Heq | []]. subst a.
  assert (Hx : OSet.has x s = true); [| congruence].
  unfold OSet.has. apply existsb_exists. exists x. split; [exact Ha | apply String.eqb_refl].
Qed.

Lemma truthy_nonempty (s : string) : JS.truthy s = true <-> s <> "".
Proof. destruct s; simpl; split; congruence. Qed.

(** The set built by [getUniqueInstructions]: the non-empty base
    instructions of the steps, each once. *)
Lemma getUniqueInstructions_spec (steps : list UpgradeStep) :
  List.NoDup (getUniqueInstructions steps)
  /\ forall b, In b (getUniqueInstructions steps) <->
               b <> "" /\ exists s, In s steps /\ baseInstructionOf s = b.
Proof.
  unfold getUniqueInstructions.
  induction steps as [| x steps [IHnd IHin]] using rev_ind.
  - split; [constructor |]. intros b. split; [intros [] | intros [_ [s [[] _]]]].
  - rewrite fold_left_app. cbn [fold_left].
    destruct (JS.truthy (baseInstructionOf x)) eqn:E.
    + split; [now apply OSet_add_NoDup |].
      intros b. rewrite OSet_add_In, IHin. split.
      * intros [[Hb [s [Hs Heq]]] | ->].
        -- split; [exact Hb |]. exists s. split; [apply in_or_app; now left | exact Heq].
        -- split; [now apply truthy_nonempty |].
           exists x. split; [apply in_or_app; right; now left | reflexivity].
      * intros [Hb [s [Hs Heq]]]. apply in_app_or in Hs as [Hs | [<- | []]].
        -- left. split; [exact Hb |]. now exists s.
        -- right. now symmetry.
    + split; [exact IHnd |].
      intros b. rewrite IHin. split.
      * intros [Hb [s [Hs Heq]]]. split; [exact Hb |].
        exists s. split; [apply in_or_app; now left | exact Heq].
      * intros [Hb [s [Hs Heq]]]. split; [exact Hb |].
        apply in_app_or in Hs as [Hs | [<- | []]]; [now exists s |].
        exfalso. apply truthy_nonempty in Hb. congruence.
Qed.

Lemma NoDup_all_equal_length {A} (l : list A) (b : A) :
  List.NoDup l -> In b l -> (forall x, In x l -> x = b) -> length l = 1%nat.
Proof.
  intros Hnd Hb Hall. destruct l as [| x [| y r]]; [destruct Hb | reflexivity |].
  exfalso. apply List.NoDup_cons_iff in Hnd as [Hx _]. apply Hx.
  rewrite (Hall x), <- (Hall y); [now left | right; now left | now left].
Qed.

Lemma two_distinct_length {A} (l : list A) (a b : A) :
  In a l -> In b l -> a <> b -> (2 <= length l)%nat.
Proof.
  intros Ha Hb Hne. destruct l as [| x [| y r]]; simpl.
  - destruct Ha.
  - destruct Ha as [<- | []], Hb as [<- | []]. congruence.
  - lia.
Qed.

Lemma consolidateFileSteps_instruction (group : list UpgradeStep) (fileName : string)
    (merged : UpgradeStep) :
  consolidateFileSteps group fileName = Some merged ->
  instruction merged
  = createConsolidatedInstruction (getUniqueInstructions (sort byFrom group)) fileName.
Proof.
  unfold consolidateFileSteps. destruct (sort byFrom group); [discriminate |].
  intros H. inversion H. reflexivity.
Qed.

Lemma merged_instruction_cases (group : list UpgradeStep) (fileName : string)
    (merged : UpgradeStep) :
  consolidateFileSteps group fileName = Some merged ->
  (forall b, b <> "" ->
     (exists s, In s group /\ baseInstructionOf s = b) ->
     (forall s, In s group -> baseInstructionOf s = b \/ baseInstructionOf s = "") ->
     instruction merged = updateConfiguration fileName)
  /\ (forall s1 s2, In s1 group -> In s2 group ->
        baseInstructionOf s1 <> "" -> baseInstructionOf s2 <> "" ->
        baseInstructionOf s1 <> baseInstructionOf s2 ->
        instruction merged = updateMultiple fileName)
  /\ ((forall s, In s group -> baseInstructionOf s = "") ->
      instruction merged = updateMultiple fileName).
Proof.
  intros is_merge. rewrite (consolidateFileSteps_instruction _ _ _ is_merge).
  destruct (getUniqueInstructions_spec (sort byFrom group)) as [Hnd Hin].
  assert (Hin' : forall b, In b (getUniqueInstructions (sort byFrom group)) <->
            b <> "" /\ exists s, In s group /\ baseInstructionOf s = b).
  { intros b. rewrite Hin. split; intros [Hb [s [Hs Heq]]]; (split; [exact Hb |]);
      exists s; (split; [| exact Heq]); now apply (sort_In byFrom group). }
  unfold createConsolidatedInstruction. split; [| split].
  - intros b Hb Hex Hall.
    rewrite (NoDup_all_equal_length _ b Hnd); [reflexivity | now apply Hin' |].
    intros x Hx. apply Hin' in Hx as [Hx [s [Hs Heq]]].
    destruct (Hall s Hs) as [H | H]; congruence.
  - intros s1 s2 H1 H2 Hb1 Hb2 Hne.
    assert (Hlen : (2 <= length (getUniqueInstructions (sort byFrom group)))%nat).
    { apply (two_distinct_length _ (baseInstructionOf s1) (baseInstructionOf s2));
        [apply Hin'; split; [exact Hb1 | now exists s1]
        | apply Hin'; split; [exact Hb2 | now exists s2] | exact Hne]. }
    destruct (length (getUniqueInstructions (sort byFrom group))) as [| [| n]]; [lia | lia |].
    reflexivity.
  - intros Hall.
    destruct (getUniqueInstructions (sort byFrom group)) as [| x r]; [reflexivity |].
    exfalso. destruct (Hin' x) as [H _]. destruct (H (or_introl eq_refl)) as [Hx [s [Hs Heq]]].
    rewrite (Hall s Hs) in Heq. congruence.
Qed.

Lemma identical_instructions_one_base (a b : UpgradeStep) :
  instruction a = instruction b -> baseInstructionOf a <> "" ->
  length (getUniqueInstructions [a; b]) = 1%nat.
Proof.
  intros Heq Ha.
  destruct (getUniqueInstructions_spec [a; b]) as [Hnd Hin].
  assert (Hab : baseInstructionOf b = baseInstructionOf a).
  { unfold baseInstructionOf. now rewrite Heq. }
  apply (NoDup_all_equal_length _ (baseInstructionOf a) Hnd).
  - apply Hin. split; [exact Ha |]. exists a. split; [now left | reflexivity].
  - intros x Hx. apply Hin in Hx as [_ [s [[<- | [<- | []]] Hs]]]; congruence.
Qed.

(** C7, as the code has it.  The base instruction of a member is its
    instruction with every "to X.Y(.Z)" phrase, every "version X.Y(.Z)"
    phrase and every version token removed, trimmed; the empty ones are
    discarded.  When exactly one distinct base instruction is left the
    merged instruction is "Update {fileName} configuration"; when two or
    more are left, and also when none is left, it is
    "Update {fileName} with multiple configuration changes".  Two members
    whose instructions are identical give a set of size 1 when their base
    instruction is not empty. *)
Theorem C7_merged_instruction (group : list UpgradeStep) (fileName : string)
    (merged : UpgradeStep)
    (is_merge : consolidateFileSteps group fileName = Some merged) :
  (forall b, b <> "" ->
     (exists s, In s group /\ baseInstructionOf s = b) ->
     (forall s, In s group -> baseInstructionOf s = b \/ baseInstructionOf s = "") ->
     instruction merged = updateConfiguration fileName)
  /\ (forall s1 s2, In s1 group -> In s2 group ->
        baseInstructionOf s1 <> "" -> baseInstructionOf s2 <> "" ->
        baseInstructionOf s1 <> baseInstructionOf s2 ->
        instruction merged = updateMultiple fileName)
  /\ ((forall s, In s group -> baseInstructionOf s = "") ->
      instruction merged = updateMultiple fileName)
  /\ (forall a b, instruction a = instruction b -> baseInstructionOf a <> "" ->
        length (getUniqueInstructions [a; b]) = 1%nat)
  /\ (forall s, exists i1 i2 i3,
        EveryReplaced true toPhrase [] (JS.chars (instruction s)) i1
        /\ EveryReplaced true versionPhrase [] i1 i2
        /\ EveryReplaced false version [] i2 i3
        /\ Trimmed i3 (JS.chars (baseInstructionOf s))).
Proof.
  destruct (merged_instruction_cases group fileName merged is_merge) as (H1 & H2 & H3).
  split; [exact H1 |]. split; [exact H2 |]. split; [exact H3 |].
  split; [apply identical_instructions_one_base | apply baseInstructionOf_spec].
Qed.

Lemma C7_witness :
  exists merged,
    consolidateFileSteps redirectsSample "next.config.js" = Some merged
    /\ instruction merged = "Update next.config.js configuration".
Proof.
  eexists. split; [vm_compute; reflexivity |].
  refine (proj1 (C7_merged_instruction redirectsSample "next.config.js" _ _)
            "Add redirects config" _ _ _).
  - vm_compute. reflexivity.
  - discriminate.
  - eexists. split; [left; reflexivity | vm_compute; reflexivity].
  - intros s [<- | [<- | []]]; left; vm_compute; reflexivity.
Defined.

(** Two members with one and the same instruction, a single distinct base
    instruction by the specification's derivation, and yet an empty set
    and the instruction for multiple changes. *)
Lemma C7_counterexample :
  map instruction versionOnlySample = ["to 14.0"; "to 14.0"]
  /\ length (specBaseInstructions versionOnlySample) = 1%nat
  /\ length (getUniqueInstructions versionOnlySample) = 0%nat
  /\ exists merged,
       consolidateFileSteps versionOnlySample "next.config.js" = Some merged
       /\ instruction merged = "Update next.config.js with multiple configuration changes"
       /\ instruction merged <> "Update next.config.js configuration".
Proof.
  split; [reflexivity |]. split; [vm_compute; reflexivity |].
  split; [vm_compute; reflexivity |].
  eexists. split; [vm_compute; reflexivity |]. split; [reflexivity | discriminate].
Qed.

(** ** C3: the texts of a merged package update *)

Section MergedTexts.
Variable md5 : string -> string.

(** C3, as the code has it.  The package-update step emitted by type
    consolidation takes its texts from the first package-update step of the
    input.  Its instruction is that step's instruction with the leftmost
    "to X.Y(.Z)" phrase removed, then the leftmost version token that is
    left removed, trimmed, and followed by " to {toVersion}".  Its
    description is that step's description in which, scanning from the
    left, every "@^X.Y(.Z)" has become "@^{toVersion}", then every
    "version X.Y(.Z)" has become "version {toVersion}", then every
    "to X.Y(.Z)" has become "to {toVersion}"; other text is kept.  A phrase
    or token is taken in its longest extent, and the two texts are the
    only ones that fit this description. *)
Theorem C3_merged_texts (steps : list UpgradeStep) (toVersion : Q)
    (firstStep : UpgradeStep) (others : list UpgradeStep)
    (group : List.filter (typeIs packageUpdate) steps = firstStep :: others) :
  let target := JS.numberToString toVersion in
  exists merged i1 i2 i3 d1 d2 d3,
    List.filter (typeIs packageUpdate) (consolidateByType md5 steps toVersion) = [merged]
    /\ FirstReplaced false toPhrase [] (JS.chars (instruction firstStep)) i1
    /\ FirstReplaced false version [] i1 i2
    /\ Trimmed i2 i3
    /\ instruction merged = JS.str i3 +:+ " to " +:+ target
    /\ EveryReplaced false caretPhrase (JS.chars ("@^" +:+ target))
         (JS.chars (detailedDescription firstStep)) d1
    /\ EveryReplaced false versionPhrase (JS.chars ("version " +:+ target)) d1 d2
    /\ EveryReplaced false toPhrase (JS.chars ("to " +:+ target)) d2 d3
    /\ detailedDescription merged = JS.str d3
    /\ (forall i1' i2' i3',
          FirstReplaced false toPhrase [] (JS.chars (instruction firstStep)) i1' ->
          FirstReplaced false version [] i1' i2' ->
          Trimmed i2' i3' -> i3' = i3)
    /\ (forall d1' d2' d3',
          EveryReplaced false caretPhrase (JS.chars ("@^" +:+ target))
            (JS.chars (detailedDescription firstStep)) d1' ->
          EveryReplaced false versionPhrase (JS.chars ("version " +:+ target)) d1' d2' ->
          EveryReplaced false toPhrase (JS.chars ("to " +:+ target)) d2' d3' ->
          d3' = d3).
Proof.
  intros target.
  destruct (package_merge_emitted md5 steps toVersion firstStep others group)
    as (merged & Hout & Hm).
  simpl in Hm. inversion Hm as [Hmerged]. clear Hm.
  set (i1 := replaceFirstL false toPhrase [] (JS.chars (instruction firstStep))).
  set (i2 := replaceFirstL false version [] i1).
  set (d1 := replaceAllL false caretPhrase (JS.chars ("@^" +:+ target)) 0
               (JS.chars (detailedDescription firstStep))).
  set (d2 := replaceAllL false versionPhrase (JS.chars ("version " +:+ target)) 0 d1).
  set (d3 := replaceAllL false toPhrase (JS.chars ("to " +:+ target)) 0 d2).
  assert (H1 : FirstReplaced false toPhrase [] (JS.chars (instruction firstStep)) i1)
    by apply replaceFirstL_spec, phrase_longest.
  assert (H2 : FirstReplaced false version [] i1 i2)
    by apply replaceFirstL_spec, version_longest.
  assert (H3 : Trimmed i2 (JS.trimL i2)) by apply trimL_spec.
  assert (G1 : EveryReplaced false caretPhrase (JS.chars ("@^" +:+ target))
                 (JS.chars (detailedDescription firstStep)) d1)
    by (apply replaceAllL_spec; [reflexivity | apply phrase_longest]).
  assert (G2 : EveryReplaced false versionPhrase (JS.chars ("version " +:+ target)) d1 d2)
    by (apply replaceAllL_spec; [reflexivity | apply phrase_longest]).
  assert (G3 : EveryReplaced false toPhrase (JS.chars ("to " +:+ target)) d2 d3)
    by (apply replaceAllL_spec; [reflexivity | apply phrase_longest]).
  exists merged, i1, i2, (JS.trimL i2), d1, d2, d3.
  split; [exact Hout |]. split; [exact H1 |]. split; [exact H2 |]. split; [exact H3 |].
  split.
  { rewrite <- Hmerged. cbn [instruction]. unfold replace, JS.trim.
    cbn [global reTo reVersion pattern ignoreCase]. rewrite !chars_str. reflexivity. }
  split; [exact G1 |]. split; [exact G2 |]. split; [exact G3 |].
  split.
  { rewrite <- Hmerged. cbn [detailedDescription]. unfold replace.
    cbn [global reTo reCaret reVersionWord pattern ignoreCase]. rewrite !chars_str.
    reflexivity. }
  split.
  - intros i1' i2' i3' F1 F2 F3.
    rewrite (FirstReplaced_functional _ _ _ _ _ _ F1 H1) in F2.
    rewrite (FirstReplaced_functional _ _ _ _ _ _ F2 H2) in F3.
    exact (Trimmed_functional _ _ _ F3 H3).
  - intros d1' d2' d3' F1 F2 F3.
    rewrite (EveryReplaced_functional _ _ _ _ _ _ F1 G1) in F2.
    rewrite (EveryReplaced_functional _ _ _ _ _ _ F2 G2) in F3.
    exact (EveryReplaced_functional _ _ _ _ _ _ F3 G3).
Qed.
End MergedTexts.

Lemma C3_witness :
  exists merged,
    List.filter (typeIs packageUpdate) (consolidateByType (fun s => s) pipelineSample 15)
      = [merged]
    /\ instruction merged = "Update Next.js to 15"
    /\ detailedDescription merged = "npm install next@^15".
Proof.
  destruct (C3_merged_texts (fun s => s) pipelineSample 15
              (nth 0 pipelineSample twoVersionsSample)
              [nth 2 pipelineSample twoVersionsSample] eq_refl)
    as (merged & _ & _ & _ & _ & _ & _ & Hout & _).
  exists merged. split; [exact Hout |].
  vm_compute in Hout. inversion Hout. split; reflexivity.
Defined.

(** An instruction with two version tokens keeps the second one, and a
    version token of the description that follows none of the three
    prefixes is not replaced. *)
Lemma C3_counterexample :
  exists merged,
    consolidatePackageUpdates [twoVersionsSample] 15 = Some merged
    /\ instruction merged = "Update next  and react 18.2 to 15"
    /\ specStripped (instruction twoVersionsSample) +:+ " to " +:+ JS.numberToString 15
       = "Update next  and react to 15"
    /\ instruction merged
       <> specStripped (instruction twoVersionsSample) +:+ " to " +:+ JS.numberToString 15
    /\ detailedDescription merged = "Requires Node 18.17"
    /\ specRetargeted (detailedDescription twoVersionsSample) (JS.numberToString 15)
       = "Requires Node 15"
    /\ detailedDescription merged
       <> specRetargeted (detailedDescription twoVersionsSample) (JS.numberToString 15).
Proof.
  eexists. split; [reflexivity |].
  split; [vm_compute; reflexivity |]. split; [vm_compute; reflexivity |].
  split; [vm_compute; discriminate |]. split; [vm_compute; reflexivity |].
  split; [vm_compute; reflexivity | vm_compute; discriminate].
Qed.

(** * Further properties *)

(** ** Sizes of the stages *)

Lemma update_push_total {A} (k : string) (x : A) (m : OMap.t (list A)) :
  OMap.has k m = true ->
  length (flat_map snd (OMap.update k (fun xs => xs ++ [x]) m))
  = S (length (flat_map snd m)).
Proof.
  induction m as [| [k' v] m IH]; simpl; intros H; [discriminate |].
  destruct (String.eqb k' k) eqn:E; simpl.
  - rewrite !length_app. simpl. lia.
  - simpl in H. rewrite !length_app, IH by exact H. lia.
Qed.

Lemma pushGroup_total {A} (k : string) (x : A) (m : OMap.t (list A)) :
  length (flat_map snd (pushGroup k x m)) = S (length (flat_map snd m)).
Proof.
  destruct (OMap.has k m) eqn:E.
  - unfold pushGroup. rewrite E. now apply update_push_total.
  - unfold pushGroup. rewrite E, (set_absent _ _ _ E), (update_app_absent _ _ _ _ E).
    simpl. rewrite String.eqb_refl, !flat_map_app, !length_app. simpl. lia.
Qed.

Lemma groupSteps_total (key : UpgradeStep -> option string) (steps : list UpgradeStep) :
  (length (flat_map snd (fst (groupSteps key steps)))
   + length (snd (groupSteps key steps)) = length steps)%nat.
Proof.
  induction steps as [| x steps IH] using rev_ind; [reflexivity |].
  rewrite groupSteps_snoc, length_app. simpl.
  destruct (key x); simpl.
  - rewrite pushGroup_total. lia.
  - rewrite length_app. simpl. lia.
Qed.

Lemma flat_map_length_le {A B C} (f : A -> list B) (g : A -> list C) (l : list A) :
  (forall x, In x l -> (length (f x) <= length (g x))%nat) ->
  (length (flat_map f l) <= length (flat_map g l))%nat.
Proof.
  induction l as [| x l IH]; intros H; simpl; [lia |].
  rewrite !length_app.
  specialize (H x (or_introl eq_refl)) as Hx.
  assert (Hl : (length (flat_map f l) <= length (flat_map g l))%nat).
  { apply IH. intros y Hy. apply H. now right. }
  lia.
Qed.

Lemma removeDuplicatesFrom_length (md5 : string -> string) (seen : gset string)
    (steps : list UpgradeStep) :
  (length (removeDuplicatesFrom md5 seen steps) <= length steps)%nat.
Proof.
  revert seen. induction steps as [| s steps IH]; intros seen; simpl; [lia |].
  case_bool_decide; simpl.
  - pose proof (IH seen). lia.
  - pose proof (IH ({[hashInstruction md5 (instruction s)]} ∪ seen)). lia.
Qed.

Lemma emitTypeGroup_length (md5 : string -> string) (T : Q)
    (group : string * list UpgradeStep) :
  (length (emitTypeGroup md5 T group) <= length (snd group))%nat.
Proof.
  destruct group as [k g]. unfold emitTypeGroup. simpl.
  destruct (String.eqb k "package-update").
  - destruct g as [| a r]; simpl; lia.
  - apply removeDuplicatesFrom_length.
Qed.

Lemma emitFileGroup_length (group : string * list UpgradeStep) :
  (length (emitFileGroup group) <= length (snd group))%nat.
Proof.
  destruct group as [k g]. unfold emitFileGroup. simpl.
  destruct g as [| a [| b r]]; [simpl; lia | simpl; lia |].
  destruct (consolidateFileSteps (a :: b :: r) k); simpl; lia.
Qed.

Lemma consolidateByType_length (md5 : string -> string) (steps : list UpgradeStep) (T : Q) :
  (length (consolidateByType md5 steps T) <= length steps)%nat.
Proof.
  unfold consolidateByType.
  pose proof (groupSteps_total typeKey steps) as Htotal.
  destruct (groupSteps typeKey steps) as [groups others]. simpl in Htotal.
  rewrite length_app.
  pose proof (flat_map_length_le (emitTypeGroup md5 T) snd groups
                (fun x _ => emitTypeGroup_length md5 T x)).
  lia.
Qed.

Lemma consolidateByAffectedFile_length (steps : list UpgradeStep) :
  (length (consolidateByAffectedFile steps) <= length steps)%nat.
Proof.
  unfold consolidateByAffectedFile.
  pose proof (groupSteps_total fileKey steps) as Htotal.
  destruct (groupSteps fileKey steps) as [groups others]. simpl in Htotal.
  rewrite length_app.
  pose proof (flat_map_length_le emitFileGroup snd groups
                (fun x _ => emitFileGroup_length x)).
  lia.
Qed.

(** X1. No stage returns more steps than it was given: the filter, the
    consolidation by type, the consolidation by file, and so the whole
    pipeline on a catalog. *)
Theorem stages_never_grow (md5 : string -> string) (allSteps : list UpgradeStep)
    (fromVersion toVersion : Q) :
  (length (relevantSteps allSteps fromVersion toVersion) <= length allSteps)%nat
  /\ (forall steps,
        (length (consolidateByType md5 steps toVersion) <= length steps)%nat)
  /\ (forall steps, (length (consolidateByAffectedFile steps) <= length steps)%nat)
  /\ (length (pipeline md5 allSteps fromVersion toVersion) <= length allSteps)%nat.
Proof.
  assert (Hfilter : (length (relevantSteps allSteps fromVersion toVersion)
                     <= length allSteps)%nat) by apply List.filter_length_le.
  split; [exact Hfilter |].
  split; [intros steps; apply consolidateByType_length |].
  split; [apply consolidateByAffectedFile_length |].
  unfold pipeline, consolidateSimilarSteps. rewrite sort_length.
  pose proof (consolidateByAffectedFile_length
                (consolidateByType md5 (relevantSteps allSteps fromVersion toVersion)
                   toVersion)).
  pose proof (consolidateByType_length md5
                (relevantSteps allSteps fromVersion toVersion) toVersion).
  lia.
Qed.

(** ** The window and the result *)

(** X2. Every step the pipeline returns lies within the requested window,
    the merged ones included: a merged package update starts at a [from]
    of its group and ends at [toVersion]; a merged file group starts and
    ends at bounds of its members. *)
Theorem pipeline_within_window (md5 : string -> string) (allSteps : list UpgradeStep)
    (fromVersion toVersion : Q) :
  Forall (contained fromVersion toVersion) (pipeline md5 allSteps fromVersion toVersion).
Proof.
  unfold pipeline, consolidateSimilarSteps.
  set (relevant := relevantSteps allSteps fromVersion toVersion).
  assert (Hrel : forall s, In s relevant -> contained fromVersion toVersion s).
  { intros s Hs. apply filter_In in Hs as [_ Hs]. now apply inWindow_contained. }
  assert (Htype : forall x, In x (consolidateByType md5 relevant toVersion) ->
            contained fromVersion toVersion x).
  { intros x Hx. apply consolidateByType_origin in Hx as [Hx | (g & Hincl & Hm)].
    - now apply Hrel.
    - destruct g as [| a r]; [discriminate |].
      destruct (consolidatePackageUpdates_fields (a :: r) toVersion a r eq_refl)
        as (m & Hm' & Hfrom & _ & Hto & _).
      rewrite Hm in Hm'. inversion Hm'; subst m.
      apply in_map_iff in Hfrom as (s & Hs & Hin).
      destruct (Hrel s (Hincl s Hin)) as [Hlow _].
      split; [rewrite <- Hs; exact Hlow | rewrite Hto; apply Qle_refl]. }
  apply List.Forall_forall. intros x Hx. apply sort_In in Hx.
  apply consolidateByAffectedFile_origin in Hx as [Hx | (g & f & Hincl & Hm)].
  - now apply Htype.
  - destruct g as [| a r]; [discriminate |].
    destruct (consolidateFileSteps_fields (a :: r) f)
      as (m & first & last & Hm' & _ & _ & Hf & Hl & _ & _ & Hfrom & Hto & _);
      [discriminate |].
    rewrite Hm in Hm'. inversion Hm'; subst m.
    destruct (Htype first (Hincl first Hf)) as [Hlow _].
    destruct (Htype last (Hincl last Hl)) as [_ Hhigh].
    split; [rewrite Hfrom; exact Hlow | rewrite Hto; exact Hhigh].
Qed.

(** ** Consolidation by type: what passes through and what is deduplicated *)

Lemma unkeyed_typeKey (s : UpgradeStep) : unkeyed typeKey s = negb (consolidatable s).
Proof.
  unfold unkeyed, typeKey, consolidatable.
  destruct (stepType s) as [ty |]; [| reflexivity].
  now destruct (JS.truthy ty && shouldConsolidate ty).
Qed.

Lemma keyIs_typeKey (k : string) (s : UpgradeStep) :
  JS.truthy k = true -> shouldConsolidate k = true ->
  keyIs typeKey k s = typeIs k s.
Proof.
  intros Hk Hc. apply eq_true_iff_eq. rewrite keyIs_true, typeIs_true, typeKey_Some.
  split; [now intros [H _] | auto].
Qed.

(** A step emitted for the group of a type carries that type. *)
Lemma emitTypeGroup_type (md5 : string -> string) (steps : list UpgradeStep) (T : Q)
    (k : string) (g : list UpgradeStep) (e : UpgradeStep) :
  In (k, g) (fst (groupSteps typeKey steps)) ->
  In e (emitTypeGroup md5 T (k, g)) ->
  stepType e = Some k /\ JS.truthy k = true /\ shouldConsolidate k = true.
Proof.
  intros Hin He.
  destruct (groupSteps_grouped typeKey steps) as [_ Hmem _].
  destruct (Hmem _ _ Hin) as [Hne Hg].
  assert (Hmembers : forall s, In s g ->
            stepType s = Some k /\ JS.truthy k = true /\ shouldConsolidate k = true).
  { intros s Hs. rewrite Hg in Hs. apply filter_In in Hs as [_ Hs].
    now apply keyIs_true, typeKey_Some in Hs. }
  unfold emitTypeGroup in He. destruct (String.eqb k "package-update").
  - destruct g as [| a r]; [destruct He |].
    destruct (consolidatePackageUpdates_fields (a :: r) T a r eq_refl)
      as (m & Hm & _ & _ & _ & Hty & _).
    rewrite Hm in He. destruct He as [<- | []].
    rewrite Hty. apply Hmembers. now left.
  - apply Hmembers. eapply removeDuplicatesFrom_sub, He.
Qed.

(** X4. Consolidation by type returns the consolidated steps first and
    then, unchanged and in their input order, the steps that are not
    consolidated: those without a type and those whose type is not one of
    package-update, dependencies and configuration. *)
Theorem type_consolidation_pass_through (md5 : string -> string)
    (steps : list UpgradeStep) (targetVersion : Q) :
  exists consolidated,
    consolidateByType md5 steps targetVersion
      = consolidated ++ List.filter (fun s => negb (consolidatable s)) steps
    /\ Forall (fun s => consolidatable s = true) consolidated.
Proof.
  rewrite consolidateByType_eq, (filter_ext _ _ unkeyed_typeKey).
  eexists. split; [reflexivity |].
  apply List.Forall_forall. intros e He.
  apply in_flat_map in He as [[k g] [Hin He]].
  destruct (emitTypeGroup_type md5 steps targetVersion k g e Hin He) as (Hty & Hk & Hc).
  unfold consolidatable. now rewrite Hty, Hk, Hc.
Qed.

Lemma type_group_of_map (steps : list UpgradeStep) (k : string)
    (a : UpgradeStep) (r : list UpgradeStep) :
  JS.truthy k = true -> shouldConsolidate k = true ->
  List.filter (typeIs k) steps = a :: r ->
  In (k, a :: r) (fst (groupSteps typeKey steps)).
Proof.
  intros Hk Hc Hgroup.
  destruct (groupSteps_grouped typeKey steps) as [_ Hmem Hcomp].
  assert (Ha : In a (List.filter (typeIs k) steps)) by (rewrite Hgroup; now left).
  apply filter_In in Ha as [Ha Hty]. apply typeIs_true in Hty.
  assert (Hkey : In k (map fst (fst (groupSteps typeKey steps)))).
  { apply (Hcomp a); [exact Ha |]. apply typeKey_Some. auto. }
  apply in_map_iff in Hkey as [[k' v] [Heq Hin]]. simpl in Heq. subst k'.
  destruct (Hmem _ _ Hin) as [_ Hv].
  rewrite (filter_ext _ _ (fun s => keyIs_typeKey k s Hk Hc)), Hgroup in Hv.
  now subst v.
Qed.

(** X5. For the types dependencies and configuration, the steps of that
    type in the result of type consolidation are the steps of that type
    of the input with the duplicates removed: groups do not mix and no
    step changes its group. *)
Theorem type_consolidation_dedups_each_type (md5 : string -> string)
    (steps : list UpgradeStep) (targetVersion : Q) (ty : string)
    (deduplicated : ty = "dependencies" \/ ty = "configuration") :
  List.filter (typeIs ty) (consolidateByType md5 steps targetVersion)
  = removeDuplicateInstructions md5 (List.filter (typeIs ty) steps).
Proof.
  assert (Hk : JS.truthy ty = true) by (destruct deduplicated; subst; reflexivity).
  assert (Hc : shouldConsolidate ty = true) by (destruct deduplicated; subst; reflexivity).
  assert (Hnp : ty <> packageUpdate) by (destruct deduplicated; subst; discriminate).
  rewrite consolidateByType_eq, List.filter_app.
  rewrite (filter_none (typeIs ty) (List.filter (unkeyed typeKey) steps)).
  2:{ intros x Hx. apply filter_In in Hx as [_ Hx].
      destruct (typeIs ty x) eqn:E; [| reflexivity].
      rewrite <- (keyIs_typeKey ty x Hk Hc) in E. apply keyIs_true in E.
      unfold unkeyed in Hx. rewrite E in Hx. discriminate. }
  rewrite app_nil_r.
  destruct (groupSteps_grouped typeKey steps) as [Hnd Hmem _].
  assert (Hother : forall k v, In (k, v) (fst (groupSteps typeKey steps)) ->
            k <> ty ->
            forall e, In e (emitTypeGroup md5 targetVersion (k, v)) -> typeIs ty e = false).
  { intros k v Hin Hne e He.
    destruct (emitTypeGroup_type md5 steps targetVersion k v e Hin He) as (Hty & _).
    unfold typeIs. rewrite Hty. now apply String.eqb_neq. }
  destruct (List.filter (typeIs ty) steps) as [| a r] eqn:Hgroup.
  - apply filter_emitted_none. intros k v Hin e He.
    destruct (String.eqb_spec k ty) as [-> | Hne]; [| eapply Hother; eassumption].
    destruct (Hmem _ _ Hin) as [Hv Heq]. exfalso. apply Hv. rewrite Heq.
    rewrite (filter_ext _ _ (fun s => keyIs_typeKey ty s Hk Hc)). exact Hgroup.
  - pose proof (type_group_of_map steps ty a r Hk Hc Hgroup) as Hin.
    rewrite (filter_emitted_one _ _ _ _ _ Hnd Hin Hother).
    + now apply emitTypeGroup_other.
    + intros e He.
      destruct (emitTypeGroup_type md5 steps targetVersion ty (a :: r) e Hin He)
        as (Hty & _).
      apply typeIs_true, Hty.
Qed.

Lemma type_consolidation_dedups_each_type_witness :
  List.filter (typeIs "dependencies") (consolidateByType (fun s => s) typedSample 15)
  = [nth 0 typedSample twoVersionsSample].
Proof.
  rewrite (type_consolidation_dedups_each_type (fun s => s) typedSample 15 "dependencies"
             (or_introl eq_refl)).
  vm_compute. reflexivity.
Defined.

(** ** Removing duplicates twice *)

Lemma removeDuplicatesFrom_fresh (md5 : string -> string) (steps : list UpgradeStep) :
  forall seen : gset string,
    List.NoDup (map (fun s => hashInstruction md5 (instruction s))
                  (removeDuplicatesFrom md5 seen steps))
    /\ (forall e, In e (removeDuplicatesFrom md5 seen steps) ->
          hashInstruction md5 (instruction e) ∉ seen).
Proof.
  induction steps as [| s steps IH]; intros seen; simpl.
  - split; [constructor | intros e []].
  - case_bool_decide as Hin.
    + apply IH.
    + destruct (IH ({[hashInstruction md5 (instruction s)]} ∪ seen)) as [Hnd Hfresh].
      split.
      * simpl. constructor; [| exact Hnd].
        intros Hmem. apply in_map_iff in Hmem as (e & Heq & He).
        apply (Hfresh e He). rewrite Heq.
        apply elem_of_union. left. now apply elem_of_singleton.
      * intros e [<- | He]; [exact Hin |].
        intros Hmem. apply (Hfresh e He). apply elem_of_union. now right.
Qed.

Lemma removeDuplicatesFrom_all_fresh (md5 : string -> string) (steps : list UpgradeStep) :
  forall seen : gset string,
    List.NoDup (map (fun s => hashInstruction md5 (instruction s)) steps) ->
    (forall e, In e steps -> hashInstruction md5 (instruction e) ∉ seen) ->
    removeDuplicatesFrom md5 seen steps = steps.
Proof.
  induction steps as [| s steps IH]; intros seen Hnd Hfresh; simpl; [reflexivity |].
  simpl in Hnd. apply List.NoDup_cons_iff in Hnd as [Hs Hnd].
  case_bool_decide as Hin.
  - exfalso. apply (Hfresh s); [now left | exact Hin].
  - f_equal. apply IH; [exact Hnd |].
    intros e He Hmem. apply elem_of_union in Hmem as [Hmem | Hmem].
    + apply elem_of_singleton in Hmem. apply Hs. rewrite <- Hmem.
      apply in_map_iff. now exists e.
    + apply (Hfresh e); [now right | exact Hmem].
Qed.

(** X6. Removing duplicate instructions is idempotent, whatever the digest
    function: a second pass over the result drops nothing. *)
Theorem removeDuplicateInstructions_idempotent (md5 : string -> string)
    (steps : list UpgradeStep) :
  removeDuplicateInstructions md5 (removeDuplicateInstructions md5 steps)
  = removeDuplicateInstructions md5 steps.
Proof.
  unfold removeDuplicateInstructions.
  destruct (removeDuplicatesFrom_fresh md5 steps ∅) as [Hnd _].
  apply removeDuplicatesFrom_all_fresh; [exact Hnd |].
  intros e _. apply not_elem_of_empty.
Qed.

(** ** Steps that no stage touches *)

(** X8. A catalog step inside the window that has no consolidated type and
    names no file is returned by the pipeline as it is. *)
Theorem untouched_step_is_returned (md5 : string -> string) (allSteps : list UpgradeStep)
    (fromVersion toVersion : Q) (step : UpgradeStep)
    (in_catalog : In step allSteps)
    (in_window : contained fromVersion toVersion step)
    (not_consolidated : consolidatable step = false)
    (no_file : hasFile step = false) :
  In step (pipeline md5 allSteps fromVersion toVersion).
Proof.
  unfold pipeline, consolidateSimilarSteps. apply sort_In.
  rewrite consolidateByAffectedFile_eq. apply in_or_app. right.
  apply filter_In. split; [| now rewrite no_file].
  rewrite consolidateByType_eq. apply in_or_app. right.
  apply filter_In. split; [| now rewrite unkeyed_typeKey, not_consolidated].
  apply filter_In. split; [exact in_catalog | now apply inWindow_contained].
Qed.

Lemma untouched_step_is_returned_witness :
  In (nth 4 pipelineSample twoVersionsSample) (pipeline (fun s => s) pipelineSample 13 15).
Proof.
  apply (untouched_step_is_returned (fun s => s) pipelineSample 13 15).
  - do 4 right. now left.
  - split; simpl; lra.
  - reflexivity.
  - reflexivity.
Defined.

(** ** The order of the groups *)

Lemma keysOf_snoc (key : UpgradeStep -> option string) (steps : list UpgradeStep)
    (x : UpgradeStep) :
  keysOf key (steps ++ [x])
  = keysOf key steps ++ match key x with Some k => [k] | None => [] end.
Proof. unfold keysOf. rewrite flat_map_app. simpl. now rewrite app_nil_r. Qed.

Lemma groupSteps_keys (key : UpgradeStep -> option string) (steps : list UpgradeStep) :
  map fst (fst (groupSteps key steps)) = firstKeys key steps.
Proof.
  induction steps as [| x steps IH] using rev_ind; [reflexivity |].
  rewrite groupSteps_snoc. unfold firstKeys in *. rewrite keysOf_snoc.
  destruct (key x) as [k |]; simpl; [| now rewrite app_nil_r].
  rewrite rev_app_distr. simpl.
  destruct (in_dec string_dec k (rev (keysOf key steps))) as [Hin | Hout].
  - assert (Hhas : OMap.has k (fst (groupSteps key steps)) = true).
    { apply has_In. rewrite IH. apply in_rev. rewrite rev_involutive.
      now apply nodup_In. }
    now rewrite (pushGroup_present _ _ _ Hhas), update_keys.
  - assert (Hhas : OMap.has k (fst (groupSteps key steps)) = false).
    { apply has_false_notin. rewrite IH. intros H. apply Hout.
      apply in_rev in H. now apply nodup_In in H. }
    rewrite (pushGroup_absent _ _ _ Hhas), map_app, IH. reflexivity.
Qed.

Lemma groups_by_keys (key : UpgradeStep -> option string) (steps : list UpgradeStep)
    (groups : OMap.t (list UpgradeStep)) :
  (forall k g, In (k, g) groups -> g = List.filter (keyIs key k) steps) ->
  groups = map (fun k => (k, List.filter (keyIs key k) steps)) (map fst groups).
Proof.
  induction groups as [| [k g] groups IH]; intros H; [reflexivity |].
  simpl. rewrite <- (H k g (or_introl eq_refl)). f_equal.
  apply IH. intros k' g' Hin. apply H. now right.
Qed.

Lemma groupSteps_by_first_keys (key : UpgradeStep -> option string)
    (steps : list UpgradeStep) :
  fst (groupSteps key steps)
  = map (fun k => (k, List.filter (keyIs key k) steps)) (firstKeys key steps).
Proof.
  rewrite <- groupSteps_keys. apply groups_by_keys.
  intros k g Hin. destruct (groupSteps_grouped key steps) as [_ Hmem _].
  now destruct (Hmem k g Hin).
Qed.

Lemma flat_map_map {A B C} (f : B -> list C) (g : A -> B) (l : list A) :
  flat_map f (map g l) = flat_map (fun x => f (g x)) l.
Proof. induction l as [| x l IH]; simpl; [reflexivity | now rewrite IH]. Qed.

(** X9. Both consolidations emit their groups in the order in which the
    group's key (the type, the file name) first occurs in the input, each
    group holding the steps of its key in input order; the steps without a
    key follow. *)
Theorem groups_in_order_of_first_occurrence (md5 : string -> string)
    (steps : list UpgradeStep) (targetVersion : Q) :
  consolidateByType md5 steps targetVersion
  = flat_map (fun ty => emitTypeGroup md5 targetVersion
                          (ty, List.filter (keyIs typeKey ty) steps))
      (firstKeys typeKey steps)
    ++ List.filter (unkeyed typeKey) steps
  /\ consolidateByAffectedFile steps
     = flat_map (fun file => emitFileGroup (file, List.filter (keyIs fileKey file) steps))
         (firstKeys fileKey steps)
       ++ List.filter (unkeyed fileKey) steps.
Proof.
  split.
  - rewrite consolidateByType_eq, groupSteps_by_first_keys. now rewrite flat_map_map.
  - unfold consolidateByAffectedFile.
    pose proof (groupSteps_others fileKey steps) as Hothers.
    pose proof (groupSteps_by_first_keys fileKey steps) as Hgroups.
    destruct (groupSteps fileKey steps) as [groups others]. simpl in *.
    subst groups others. now rewrite flat_map_map.
Qed.

(** ** Consolidation by file: one step per file, and a second pass *)

Lemma emitFileGroup_single (steps : list UpgradeStep) (k : string) (g : list UpgradeStep) :
  In (k, g) (fst (groupSteps fileKey steps)) ->
  exists e, emitFileGroup (k, g) = [e] /\ fileKey e = Some k.
Proof.
  intros Hin. destruct (grouped_file_members _ _ _ Hin) as (Hne & Hk & Hg).
  assert (Hmembers : forall s, In s g -> affectedFile s = Some k).
  { intros s Hs. rewrite Hg in Hs. apply filter_In in Hs as [_ Hs].
    now apply fileIs_true. }
  assert (Hone : exists e, emitFileGroup (k, g) = [e]).
  { unfold emitFileGroup. destruct g as [| a [| b r]]; [congruence | eauto |].
    destruct (consolidateFileSteps_fields (a :: b :: r) k) as (m & _ & _ & Hm & _);
      [discriminate |].
    rewrite Hm. eauto. }
  destruct Hone as [e He]. exists e. split; [exact He |].
  apply fileKey_Some. split; [| exact Hk].
  apply (emitFileGroup_file k g e Hmembers). rewrite He. now left.
Qed.

Lemma emitted_file_keys (steps : list UpgradeStep) (groups : OMap.t (list UpgradeStep)) :
  (forall k g, In (k, g) groups -> In (k, g) (fst (groupSteps fileKey steps))) ->
  keysOf fileKey (flat_map emitFileGroup groups) = map fst groups
  /\ flat_map (fun s => match fileKey s with Some k => [(k, [s])] | None => [] end)
       (flat_map emitFileGroup groups)
     = map (fun kg => (fst kg, emitFileGroup kg)) groups.
Proof.
  induction groups as [| [k g] groups IH]; intros H; [split; reflexivity |].
  destruct (emitFileGroup_single steps k g (H k g (or_introl eq_refl))) as (e & He & Hk).
  destruct IH as [IH1 IH2]; [intros k' g' Hin; apply H; now right |].
  unfold keysOf in *. cbn [flat_map map fst].
  rewrite !flat_map_app, He. cbn [flat_map]. rewrite Hk. cbn [app].
  rewrite IH1, IH2. split; reflexivity.
Qed.

Lemma flat_map_ext_In {A B} (f g : A -> list B) (l : list A) :
  (forall x, In x l -> f x = g x) -> flat_map f l = flat_map g l.
Proof.
  induction l as [| x l IH]; intros H; simpl; [reflexivity |].
  rewrite (H x (or_introl eq_refl)), IH; [reflexivity |].
  intros y Hy. apply H. now right.
Qed.

(** Steps whose keys are all different form one group each. *)
Lemma groupSteps_distinct (key : UpgradeStep -> option string) (steps : list UpgradeStep) :
  (forall s, In s steps -> key s <> None) ->
  List.NoDup (keysOf key steps) ->
  groupSteps key steps
  = (flat_map (fun s => match key s with Some k => [(k, [s])] | None => [] end) steps, []).
Proof.
  induction steps as [| x steps IH] using rev_ind; intros Hkeyed Hnd; [reflexivity |].
  rewrite groupSteps_snoc, keysOf_snoc in *.
  assert (Hnd' : List.NoDup (keysOf key steps)).
  { now apply NoDup_app_remove_r in Hnd. }
  rewrite IH; [| intros s Hs; apply Hkeyed, in_or_app; now left | exact Hnd'].
  simpl. rewrite flat_map_app. simpl.
  destruct (key x) as [k |] eqn:Ek.
  - rewrite app_nil_r. f_equal. apply pushGroup_absent. apply has_false_notin.
    intros Hin.
    assert (Hk : In k (keysOf key steps)).
    { clear -Hin. unfold keysOf. induction steps as [| y l IHl]; [destruct Hin |].
      simpl in *. destruct (key y) as [ky |]; simpl in *; [| now apply IHl].
      destruct Hin as [-> | Hin]; [now left | right; now apply IHl]. }
    apply List.NoDup_remove_2 in Hnd. rewrite app_nil_r in Hnd. contradiction.
  - exfalso. apply (Hkeyed x); [apply in_or_app; right; now left | exact Ek].
Qed.

Lemma groupSteps_app_unkeyed (key : UpgradeStep -> option string)
    (steps others : list UpgradeStep) :
  (forall s, In s others -> key s = None) ->
  groupSteps key (steps ++ others)
  = (fst (groupSteps key steps), snd (groupSteps key steps) ++ others).
Proof.
  induction others as [| x others IH] using rev_ind; intros H.
  - rewrite !app_nil_r. now destruct (groupSteps key steps).
  - rewrite app_assoc, groupSteps_snoc, IH by (intros s Hs; apply H, in_or_app; now left).
    rewrite (H x) by (apply in_or_app; right; now left).
    simpl. now rewrite app_assoc.
Qed.

Lemma file_groups_emitted (steps : list UpgradeStep) :
  let emitted := flat_map emitFileGroup (fst (groupSteps fileKey steps)) in
  keysOf fileKey emitted = map fst (fst (groupSteps fileKey steps))
  /\ (forall s, In s emitted -> fileKey s <> None)
  /\ consolidateByAffectedFile emitted = emitted.
Proof.
  intros emitted.
  destruct (emitted_file_keys steps (fst (groupSteps fileKey steps)) (fun k g H => H))
    as [Hkeys Hsingle].
  fold emitted in Hkeys, Hsingle.
  assert (Hkeyed : forall s, In s emitted -> fileKey s <> None).
  { intros s Hs. apply in_flat_map in Hs as [[k g] [Hin Hs]].
    destruct (emitFileGroup_single steps k g Hin) as (e & He & Hk).
    rewrite He in Hs. destruct Hs as [<- | []]. congruence. }
  split; [exact Hkeys |]. split; [exact Hkeyed |].
  unfold consolidateByAffectedFile.
  rewrite (groupSteps_distinct fileKey emitted Hkeyed).
  2:{ rewrite Hkeys. now destruct (groupSteps_grouped fileKey steps). }
  rewrite Hsingle, app_nil_r, flat_map_map.
  unfold emitted. apply flat_map_ext_In. intros [k g] Hin.
  destruct (emitFileGroup_single steps k g Hin) as (e & He & _).
  cbn [fst]. rewrite He. reflexivity.
Qed.

(** X10. Consolidation by file is idempotent: its result has one step per
    file name, so a second pass finds only groups of one and returns the
    same list. *)
Theorem consolidateByAffectedFile_idempotent (steps : list UpgradeStep) :
  consolidateByAffectedFile (consolidateByAffectedFile steps)
  = consolidateByAffectedFile steps.
Proof.
  rewrite (consolidateByAffectedFile_eq steps).
  set (emitted := flat_map emitFileGroup (fst (groupSteps fileKey steps))).
  set (others := List.filter (fun s => negb (hasFile s)) steps).
  destruct (file_groups_emitted steps) as (_ & _ & Hagain). fold emitted in Hagain.
  assert (Hothers : forall s, In s others -> fileKey s = None).
  { intros s Hs. apply filter_In in Hs as [_ Hs].
    rewrite <- unkeyed_fileKey in Hs. unfold unkeyed in Hs.
    now destruct (fileKey s). }
  unfold consolidateByAffectedFile in *.
  rewrite (groupSteps_app_unkeyed fileKey emitted others Hothers).
  destruct (groupSteps fileKey emitted) as [groups rest]. simpl in *.
  now rewrite app_assoc, Hagain.
Qed.

Lemma distinct_keys_at_most_one (key : UpgradeStep -> option string) (k : string)
    (steps : list UpgradeStep) :
  List.NoDup (keysOf key steps) ->
  (length (List.filter (keyIs key k) steps) <= 1)%nat.
Proof.
  unfold keysOf. induction steps as [| x steps IH]; intros Hnd; simpl; [lia |].
  simpl in Hnd. destruct (keyIs key k x) eqn:E.
  - apply keyIs_true in E. rewrite E in Hnd. simpl in Hnd.
    apply List.NoDup_cons_iff in Hnd as [Hk _].
    rewrite filter_keyIs_absent; [simpl; lia |].
    intros s Hs Hsk. apply Hk. apply in_flat_map. exists s. rewrite Hsk.
    split; [exact Hs | now left].
  - apply IH. destruct (key x); [now apply List.NoDup_cons_iff in Hnd | exact Hnd].
Qed.

Lemma Permutation_filter_length {A} (p : A -> bool) (l l' : list A) :
  Permutation l l' -> length (List.filter p l) = length (List.filter p l').
Proof.
  induction 1 as [| x l l' _ IH | x y l | l l' l'' _ IH1 _ IH2]; simpl.
  - reflexivity.
  - destruct (p x); simpl; now rewrite IH.
  - destruct (p x), (p y); reflexivity.
  - now rewrite IH1.
Qed.

Lemma file_steps_at_most_one (steps : list UpgradeStep) (fileName : string) :
  JS.truthy fileName = true ->
  (length (List.filter (fileIs fileName) (consolidateByAffectedFile steps)) <= 1)%nat.
Proof.
  intros Hf. rewrite consolidateByAffectedFile_eq, List.filter_app.
  rewrite (filter_none (fileIs fileName) (List.filter _ steps)).
  2:{ intros x Hx. apply filter_In in Hx as [_ Hx].
      destruct (fileIs fileName x) eqn:E; [| reflexivity].
      apply fileIs_true in E. unfold hasFile in Hx. rewrite E in Hx.
      simpl in Hx. rewrite Hf in Hx. discriminate. }
  rewrite app_nil_r.
  destruct (file_groups_emitted steps) as (Hkeys & _ & _).
  rewrite <- (filter_ext _ _ (fun s => keyIs_fileKey fileName s Hf)).
  apply distinct_keys_at_most_one. rewrite Hkeys.
  now destruct (groupSteps_grouped fileKey steps).
Qed.

(** X11. The result of the pipeline holds at most one step for any file
    name. *)
Theorem one_step_per_file (md5 : string -> string) (allSteps : list UpgradeStep)
    (fromVersion toVersion : Q) (fileName : string)
    (named : JS.truthy fileName = true) :
  (length (List.filter (fileIs fileName) (pipeline md5 allSteps fromVersion toVersion))
   <= 1)%nat.
Proof.
  unfold pipeline, consolidateSimilarSteps.
  rewrite <- (Permutation_filter_length _ _ _ (sort_perm (sortCompare compareSteps) _)).
  now apply file_steps_at_most_one.
Qed.

Lemma one_step_per_file_witness :
  length (List.filter (fileIs "next.config.js") (pipeline (fun s => s) pipelineSample 13 15))
  = 1%nat.
Proof.
  pose proof (one_step_per_file (fun s => s) pipelineSample 13 15 "next.config.js" eq_refl)
    as Hle.
  assert (Hge : (1 <= length (List.filter (fileIs "next.config.js")
                                (pipeline (fun s => s) pipelineSample 13 15)))%nat)
    by (vm_compute; lia).
  lia.
Defined.

(** ** The type of a merged file group *)

(** What the lookup of a truthy type in the priority table gives. *)
Lemma indexOr_priority (ty : string) :
  JS.indexOr JS.truthyNum priorities ty 10%Q
  = if inheritedName (Some ty) then JS.Inherited ty else JS.Plain (typePriorityOf ty).
Proof.
  unfold JS.indexOr, typePriorityOf, priorityOfType, inheritedName.
  destruct (priorities !! ty) as [a |] eqn:E.
  - destruct (in_dec string_dec ty knownTypes) as [Hin | Hout];
      [| rewrite (priorities_unknown ty Hout) in E; discriminate].
    simpl in Hin.
    destruct Hin as [<- | [<- | [<- | [<- | [<- | [<- | []]]]]]];
      vm_compute in E; inversion E; reflexivity.
  - destruct (existsb (String.eqb ty) JS.objectPrototype); reflexivity.
Qed.

(** The state of the loop of [getMostImportantStepType] after some steps. *)
Lemma getMostImportantStepType_loop (steps : list UpgradeStep) :
  let st :=
    fold_left
      (fun (st : string * option Q) step =>
         let '(mostImportantType, highestPriority) := st in
         match stepType step with
         | Some ty =>
             if JS.truthy ty then
               match JS.indexOr JS.truthyNum typePriority ty 10%Q with
               | JS.Plain priority =>
                   if match highestPriority with
                      | None => true
                      | Some h => negb (Qle_bool h priority)
                      end
                   then (ty, Some priority)
                   else st
               | JS.Inherited _ => st
               end
             else st
         | None => st
         end)
      steps ("", None) in
  (snd st = None /\ fst st = ""
   /\ forall s, In s steps ->
        JS.truthyOpt (stepType s) = false \/ inheritedName (stepType s) = true)
  \/ (JS.truthy (fst st) = true
      /\ inheritedName (Some (fst st)) = false
      /\ snd st = Some (typePriorityOf (fst st))
      /\ (exists m, In m steps /\ stepType m = Some (fst st))
      /\ forall s ty, In s steps -> stepType s = Some ty -> JS.truthy ty = true ->
           inheritedName (Some ty) = false ->
           (typePriorityOf (fst st) <= typePriorityOf ty)%Q).
Proof.
  induction steps as [| x steps IH] using rev_ind.
  - left. repeat split. intros s [].
  - rewrite fold_left_app. cbn [fold_left]. cbv zeta in IH.
    destruct (fold_left _ steps ("", None)) as [best hp]. cbn [fst snd] in IH.
    assert (Hskip :
      JS.truthyOpt (stepType x) = false \/ inheritedName (stepType x) = true ->
      (hp = None /\ best = ""
       /\ forall s, In s (steps ++ [x]) ->
            JS.truthyOpt (stepType s) = false \/ inheritedName (stepType s) = true)
      \/ (JS.truthy best = true
          /\ inheritedName (Some best) = false
          /\ hp = Some (typePriorityOf best)
          /\ (exists m, In m (steps ++ [x]) /\ stepType m = Some best)
          /\ forall s ty, In s (steps ++ [x]) -> stepType s = Some ty ->
               JS.truthy ty = true -> inheritedName (Some ty) = false ->
               (typePriorityOf best <= typePriorityOf ty)%Q)).
    { intros Hx.
      destruct IH as [(Hnone & Hbest & Hall) | (Htb & Hib & Hp & (m & Hm & Hmt) & Hmin)].
      - left. repeat split; [exact Hnone | exact Hbest |].
        intros s Hs. apply in_app_or in Hs as [Hs | [<- | []]]; [now apply Hall | exact Hx].
      - right. split; [exact Htb |]. split; [exact Hib |]. split; [exact Hp |].
        split; [exists m; split; [apply in_or_app; now left | exact Hmt] |].
        intros s ty' Hs Hty' Htr Hin'. apply in_app_or in Hs as [Hs | [<- | []]].
        + eapply Hmin; eassumption.
        + exfalso. rewrite Hty' in Hx.
          destruct Hx as [Hx | Hx]; [simpl in Hx |]; congruence. }
    destruct (stepType x) as [ty |] eqn:Ety; [| apply Hskip; now left].
    destruct (JS.truthy ty) eqn:Htruthy; [| apply Hskip; left; exact Htruthy].
    unfold typePriority. rewrite indexOr_priority.
    destruct (inheritedName (Some ty)) eqn:Hin; [apply Hskip; now right |].
    clear Hskip.
    destruct IH as [(Hnone & Hbest & Hall) | (Htb & Hib & Hp & (m & Hm & Hmt) & Hmin)].
    + subst hp. right. cbn [fst snd].
      split; [exact Htruthy |]. split; [exact Hin |]. split; [reflexivity |].
      split; [exists x; split; [apply in_or_app; right; now left | exact Ety] |].
      intros s ty' Hs Hty' Htr Hin'. apply in_app_or in Hs as [Hs | [<- | []]].
      * exfalso. destruct (Hall s Hs) as [H | H]; rewrite Hty' in H;
          [simpl in H |]; congruence.
      * rewrite Ety in Hty'. inversion Hty'. apply Qle_refl.
    + subst hp. destruct (Qle_bool (typePriorityOf best) (typePriorityOf ty)) eqn:Ele;
        cbn [negb fst snd]; right; cbn [fst snd].
      * apply Qle_bool_iff in Ele.
        split; [exact Htb |]. split; [exact Hib |]. split; [reflexivity |].
        split; [exists m; split; [apply in_or_app; now left | exact Hmt] |].
        intros s ty' Hs Hty' Htr Hin'. apply in_app_or in Hs as [Hs | [<- | []]].
        -- eapply Hmin; eassumption.
        -- rewrite Ety in Hty'. inversion Hty'; subst ty'. exact Ele.
      * assert (Hlt : (typePriorityOf ty < typePriorityOf best)%Q).
        { apply Qnot_le_lt. intros H. apply Qle_bool_iff in H. congruence. }
        split; [exact Htruthy |]. split; [exact Hin |]. split; [reflexivity |].
        split; [exists x; split; [apply in_or_app; right; now left | exact Ety] |].
        intros s ty' Hs Hty' Htr Hin'. apply in_app_or in Hs as [Hs | [<- | []]].
        -- specialize (Hmin s ty' Hs Hty' Htr Hin'). lra.
        -- rewrite Ety in Hty'. inversion Hty'. apply Qle_refl.
Qed.

Lemma getMostImportantStepType_spec (steps : list UpgradeStep) :
  ((forall s, In s steps ->
      JS.truthyOpt (stepType s) = false \/ inheritedName (stepType s) = true)
   /\ getMostImportantStepType steps = "configuration")
  \/ (JS.truthy (getMostImportantStepType steps) = true
      /\ inheritedName (Some (getMostImportantStepType steps)) = false
      /\ (exists m, In m steps /\ stepType m = Some (getMostImportantStepType steps))
      /\ forall s ty, In s steps -> stepType s = Some ty -> JS.truthy ty = true ->
           inheritedName (Some ty) = false ->
           (typePriorityOf (getMostImportantStepType steps) <= typePriorityOf ty)%Q).
Proof.
  pose proof (getMostImportantStepType_loop steps) as H. cbv zeta in H.
  unfold getMostImportantStepType.
  destruct (fold_left _ steps ("", None)) as [best hp]. cbn [fst snd] in H.
  destruct H as [(_ & -> & Hall) | (Htb & Hib & _ & Hm & Hmin)].
  - left. split; [exact Hall | reflexivity].
  - right. rewrite Htb. auto.
Qed.

(** X12. [getMostImportantStepType] counts the types that are not empty
    and not the name of an inherited property.  It returns "configuration"
    when no step has such a type; otherwise it returns such a type of one
    of the steps, and no such type among the steps has a smaller
    priority. *)
Theorem most_important_type_is_least (steps : list UpgradeStep) :
  ((forall s, In s steps ->
      JS.truthyOpt (stepType s) = false \/ inheritedName (stepType s) = true)
   /\ getMostImportantStepType steps = "configuration")
  \/ ((exists m, In m steps /\ stepType m = Some (getMostImportantStepType steps))
      /\ JS.truthy (getMostImportantStepType steps) = true
      /\ inheritedName (Some (getMostImportantStepType steps)) = false
      /\ forall s ty, In s steps -> stepType s = Some ty -> JS.truthy ty = true ->
           inheritedName (Some ty) = false ->
           (typePriorityOf (getMostImportantStepType steps) <= typePriorityOf ty)%Q).
Proof.
  destruct (getMostImportantStepType_spec steps) as [H | (Ht & Hi & Hm & Hmin)];
    [now left | right; auto].
Qed.

(** A group whose types are all names of inherited properties is given the
    type "configuration". *)
Example inherited_types_give_configuration :
  getMostImportantStepType
    [ mkStep "a" "" 13 14 (Some "constructor") (Some "next.config.js");
      mkStep "b" "" 14 15 (Some "toString") (Some "next.config.js") ]
  = "configuration".
Proof. vm_compute. reflexivity. Qed.

Lemma consolidateFileSteps_type (group : list UpgradeStep) (fileName : string)
    (merged : UpgradeStep) :
  consolidateFileSteps group fileName = Some merged ->
  exists ty,
    stepType merged = Some ty
    /\ JS.truthy ty = true
    /\ inheritedName (Some ty) = false
    /\ (ty = "configuration" \/ exists s, In s group /\ stepType s = Some ty).
Proof.
  unfold consolidateFileSteps. destruct (sort byFrom group) as [| a r] eqn:Hs; [discriminate |].
  intros H. inversion H; subst merged. clear H. cbn [stepType].
  eexists. split; [reflexivity |].
  destruct (getMostImportantStepType_spec (a :: r))
    as [[_ ->] | (Ht & Hi & (m & Hm & Hmt) & _)].
  - split; [reflexivity |]. split; [reflexivity | now left].
  - split; [exact Ht |]. split; [exact Hi |]. right. exists m. split; [| exact Hmt].
    apply (sort_In byFrom group). now rewrite Hs.
Qed.

(** X13. A step merged from a file group always carries a type, and a
    non-empty one: "configuration" or the type of one of its members. *)
Theorem merged_file_step_is_typed (group : list UpgradeStep) (fileName : string)
    (merged : UpgradeStep)
    (is_merge : consolidateFileSteps group fileName = Some merged) :
  exists ty,
    stepType merged = Some ty
    /\ ty <> ""
    /\ (ty = "configuration" \/ exists s, In s group /\ stepType s = Some ty).
Proof.
  destruct (consolidateFileSteps_type group fileName merged is_merge)
    as (ty & H1 & H2 & _ & H3).
  exists ty. split; [exact H1 |]. split; [now apply truthy_nonempty | exact H3].
Qed.

Lemma merged_file_step_is_typed_witness :
  exists merged ty,
    consolidateFileSteps redirectsSample "next.config.js" = Some merged
    /\ stepType merged = Some ty /\ ty <> "".
Proof.
  eexists. 
  destruct (merged_file_step_is_typed redirectsSample "next.config.js" _ eq_refl)
    as (ty & Hty & Hne & _).
  exists ty. split; [reflexivity |]. split; [exact Hty | exact Hne].
Defined.

(** ** The final order, when no type is the name of an inherited property *)

Lemma insertSorted_ext {A} (cmp cmp' : A -> A -> Q) (x : A) (l : list A) :
  (forall y, In y l -> cmp x y = cmp' x y) ->
  insertSorted cmp x l = insertSorted cmp' x l.
Proof.
  induction l as [| y l IH]; intros H; simpl; [reflexivity |].
  rewrite (H y (or_introl eq_refl)). destruct (Qle_bool (cmp' x y) 0); [reflexivity |].
  f_equal. apply IH. intros z Hz. apply H. now right.
Qed.

(** The sort looks at the comparator on the elements of the list only. *)
Lemma sort_ext {A} (cmp cmp' : A -> A -> Q) (l : list A) :
  (forall x y, In x l -> In y l -> cmp x y = cmp' x y) ->
  sort cmp l = sort cmp' l.
Proof.
  induction l as [| x l IH]; intros H; simpl; [reflexivity |].
  rewrite IH by (intros a b Ha Hb; apply H; now right).
  apply insertSorted_ext. intros y Hy. apply H; [now left |].
  right. now apply (proj1 (sort_In cmp' l y)) in Hy.
Qed.

Lemma sort_of_sorted {A} (cmp : A -> A -> Q) (l : list A) :
  StronglySorted (cmpLe cmp) l -> sort cmp l = l.
Proof.
  induction 1 as [| x l Hs IH Hall]; [reflexivity |].
  simpl. rewrite IH. destruct l as [| y r]; [reflexivity |].
  simpl. apply Forall_cons_iff in Hall as [Hxy _].
  apply Qle_bool_iff in Hxy. now rewrite Hxy.
Qed.

(** For a type that is not an inherited name the code reads the priority
    of the specification. *)
Lemma priority_plain (o : option string) :
  inheritedName o = false -> getStepTypePriority o = JS.Plain (priorityOfType o).
Proof.
  intros Ho. unfold getStepTypePriority. destruct o as [ty |]; [| vm_compute; reflexivity].
  cbn [JS.truthyOpt default]. destruct (JS.truthy ty) eqn:Ht.
  - rewrite indexOr_priority. unfold id. rewrite Ho. reflexivity.
  - destruct ty; [| discriminate]. vm_compute. reflexivity.
Qed.

Lemma compareSteps_plain (a b : UpgradeStep) :
  plainlyTyped a -> plainlyTyped b -> sortCompare compareSteps a b = keyCompare a b.
Proof.
  unfold plainlyTyped, sortCompare, compareSteps, keyCompare, priorityOf. intros Ha Hb.
  rewrite (priority_plain _ Ha), (priority_plain _ Hb). cbn [JS.minus].
  destruct (negb (Qeq_bool _ 0)); [reflexivity |].
  destruct (negb (Qeq_bool (from a) (from b))); reflexivity.
Qed.

Lemma consolidatePackageUpdates_type (group : list UpgradeStep) (T : Q) (x : UpgradeStep) :
  consolidatePackageUpdates group T = Some x ->
  exists s, In s group /\ stepType x = stepType s.
Proof.
  destruct group as [| a r]; [discriminate |]. intros H. inversion H.
  exists a. split; [now left | reflexivity].
Qed.

Lemma priority_cases (o : option string) :
  (o = Some packageUpdate /\ (priorityOfType o == 1)%Q)
  \/ (1 < priorityOfType o)%Q.
Proof.
  destruct o as [ty |]; [| right; vm_compute; reflexivity].
  destruct (in_dec string_dec ty knownTypes) as [Hin | Hout].
  - simpl in Hin.
    destruct Hin as [<- | [<- | [<- | [<- | [<- | [<- | []]]]]]];
      [left; split; [reflexivity | vm_compute; reflexivity]
      | right; vm_compute; reflexivity ..].
  - right. unfold priorityOfType. rewrite (priorities_unknown ty Hout). reflexivity.
Qed.

Section PlainTypes.
Variable md5 : string -> string.

(** Consolidation gives no step the name of an inherited property as its
    type when no step of the input has one. *)
Lemma consolidateSimilarSteps_plain (steps : list UpgradeStep) (T : Q) :
  Forall plainlyTyped steps -> Forall plainlyTyped (consolidateSimilarSteps md5 steps T).
Proof.
  intros Hplain. rewrite List.Forall_forall in Hplain.
  assert (Htyped : forall x, In x (consolidateByType md5 steps T) -> plainlyTyped x).
  { intros x Hx. apply consolidateByType_origin in Hx as [Hx | (g & Hg & Hm)];
      [now apply Hplain |].
    apply consolidatePackageUpdates_type in Hm as (s & Hs & Hty).
    unfold plainlyTyped. rewrite Hty. apply Hplain, Hg, Hs. }
  apply List.Forall_forall. intros x Hx. unfold consolidateSimilarSteps in Hx.
  apply consolidateByAffectedFile_origin in Hx as [Hx | (g & f & Hg & Hm)];
    [now apply Htyped |].
  destruct (consolidateFileSteps_type _ _ _ Hm) as (ty & Hty & _ & Hi & _).
  unfold plainlyTyped. now rewrite Hty.
Qed.

Lemma consolidated_plain (allSteps : list UpgradeStep) (fromVersion toVersion : Q) :
  Forall plainlyTyped allSteps ->
  Forall plainlyTyped
    (consolidateSimilarSteps md5 (relevantSteps allSteps fromVersion toVersion) toVersion).
Proof.
  intros Hplain. apply consolidateSimilarSteps_plain.
  rewrite List.Forall_forall in Hplain. apply List.Forall_forall.
  intros s Hs. apply filter_In in Hs as [Hs _]. now apply Hplain.
Qed.

(** On such a catalog the final sort is the sort by the key. *)
Lemma pipeline_by_key (allSteps : list UpgradeStep) (fromVersion toVersion : Q) :
  Forall plainlyTyped allSteps ->
  pipeline md5 allSteps fromVersion toVersion
  = sort keyCompare
      (consolidateSimilarSteps md5 (relevantSteps allSteps fromVersion toVersion) toVersion).
Proof.
  intros Hplain. unfold pipeline. apply sort_ext. intros x y Hx Hy.
  pose proof (consolidated_plain allSteps fromVersion toVersion Hplain) as H.
  rewrite List.Forall_forall in H. apply compareSteps_plain; now apply H.
Qed.

(** X22. On a catalog in which no type is the name of a property that
    objects inherit, the result of the pipeline is in ascending order of
    the key (type priority, then [from], then [to]) and steps of equal key
    keep the order they had after consolidation; the priority the code
    reads is 1 to 6 for the six known types and 10 for an absent or any
    other such type. *)
Theorem plain_types_sorted_and_stable (allSteps : list UpgradeStep)
    (fromVersion toVersion : Q)
    (plain : Forall plainlyTyped allSteps) :
  let consolidated :=
    consolidateSimilarSteps md5 (relevantSteps allSteps fromVersion toVersion) toVersion in
  let result := pipeline md5 allSteps fromVersion toVersion in
  StronglySorted keyLe result
  /\ Permutation consolidated result
  /\ (forall s, List.filter (sameKey s) result = List.filter (sameKey s) consolidated)
  /\ (forall s, In s result -> getStepTypePriority (stepType s) = JS.Plain (priorityOf s))
  /\ map getStepTypePriority (map Some knownTypes) = map JS.Plain [1; 2; 3; 4; 5; 6]%Q
  /\ getStepTypePriority None = JS.Plain 10%Q
  /\ (forall ty, ~ In ty knownTypes -> inheritedName (Some ty) = false ->
        getStepTypePriority (Some ty) = JS.Plain 10%Q).
Proof.
  intros consolidated result. subst result.
  rewrite (pipeline_by_key _ _ _ plain). fold consolidated.
  split.
  - eapply StronglySorted_weaken;
      [| apply (sort_sorted keyCompare keyCompare_total keyCompare_trans)].
    intros a b. apply keyCompare_keyLe.
  - split; [apply sort_perm |]. split.
    + intros s. apply sort_stable. intros a b Ha Hb.
      apply keyCompare_keyLe. eapply sameKey_keyLe; eassumption.
    + split.
      * intros s Hs. apply (proj1 (sort_In keyCompare _ _)) in Hs.
        pose proof (consolidated_plain allSteps fromVersion toVersion plain) as H.
        rewrite List.Forall_forall in H. apply priority_plain, H, Hs.
      * split; [vm_compute; reflexivity |]. split; [vm_compute; reflexivity |].
        intros ty Hty Hin. rewrite (priority_plain _ Hin).
        unfold priorityOfType. now rewrite (priorities_unknown ty Hty).
Qed.

(** X3. On such a catalog, sorting the result of the pipeline once more
    with the same comparator leaves it as it is. *)
Theorem pipeline_resorted_unchanged (allSteps : list UpgradeStep)
    (fromVersion toVersion : Q)
    (plain : Forall plainlyTyped allSteps) :
  sort (sortCompare compareSteps) (pipeline md5 allSteps fromVersion toVersion)
  = pipeline md5 allSteps fromVersion toVersion.
Proof.
  pose proof (consolidated_plain allSteps fromVersion toVersion plain) as H.
  rewrite List.Forall_forall in H.
  rewrite (sort_ext (sortCompare compareSteps) keyCompare).
  - rewrite (pipeline_by_key _ _ _ plain). apply sort_of_sorted.
    apply (sort_sorted keyCompare keyCompare_total keyCompare_trans).
  - intros x y Hx Hy. unfold pipeline in Hx, Hy.
    apply (proj1 (sort_In (sortCompare compareSteps) _ _)) in Hx.
    apply (proj1 (sort_In (sortCompare compareSteps) _ _)) in Hy.
    apply compareSteps_plain; now apply H.
Qed.
End PlainTypes.

Lemma plain_types_sorted_and_stable_witness :
  Forall plainlyTyped pipelineSample
  /\ StronglySorted keyLe (pipeline (fun s => s) pipelineSample 13 15).
Proof.
  assert (H : Forall plainlyTyped pipelineSample) by (repeat constructor).
  split; [exact H |].
  exact (proj1 (plain_types_sorted_and_stable (fun s => s) pipelineSample 13 15 H)).
Defined.

Lemma pipeline_resorted_unchanged_witness :
  Forall plainlyTyped pipelineSample
  /\ sort (sortCompare compareSteps) (pipeline (fun s => s) pipelineSample 13 15)
     = pipeline (fun s => s) pipelineSample 13 15.
Proof.
  assert (H : Forall plainlyTyped pipelineSample) by (repeat constructor).
  split; [exact H |].
  exact (pipeline_resorted_unchanged (fun s => s) pipelineSample 13 15 H).
Defined.

(** ** The place of the merged package update *)

Lemma filter_filter_implied {A} (p q : A -> bool) (l : list A) :
  (forall x, In x l -> p x = true -> q x = true) ->
  List.filter p (List.filter q l) = List.filter p l.
Proof.
  induction l as [| x l IH]; intros H; simpl; [reflexivity |].
  assert (IH' : List.filter p (List.filter q l) = List.filter p l).
  { apply IH. intros y Hy. apply H. now right. }
  destruct (q x) eqn:Eq; simpl.
  - now rewrite IH'.
  - destruct (p x) eqn:Ep; [| exact IH'].
    rewrite (H x (or_introl eq_refl) Ep) in Eq. discriminate.
Qed.

(** The package-update steps after type consolidation: none, or the one
    merged step, which names no file. *)
Lemma package_steps_after_type (md5 : string -> string) (steps : list UpgradeStep) (T : Q) :
  match List.filter (typeIs packageUpdate) steps with
  | [] => List.filter (typeIs packageUpdate) (consolidateByType md5 steps T) = []
  | group =>
      exists merged,
        List.filter (typeIs packageUpdate) (consolidateByType md5 steps T) = [merged]
        /\ consolidatePackageUpdates group T = Some merged
        /\ stepType merged = Some packageUpdate
        /\ affectedFile merged = None
  end.
Proof.
  destruct (List.filter (typeIs packageUpdate) steps) as [| a r] eqn:Hgroup.
  - rewrite package_steps_of_output. apply filter_emitted_none. intros k v Hin e He.
    destruct (emitTypeGroup_type md5 steps T k v e Hin He) as (Hty & _).
    destruct (typeIs packageUpdate e) eqn:E; [| reflexivity].
    apply typeIs_true in E. rewrite Hty in E. inversion E; subst k.
    destruct (groupSteps_grouped typeKey steps) as [_ Hmem _].
    destruct (Hmem _ _ Hin) as [Hv Heq]. exfalso. apply Hv. rewrite Heq.
    rewrite (filter_ext _ _ keyIs_typeKey_package). exact Hgroup.
  - destruct (package_merge_emitted md5 steps T a r Hgroup) as (merged & Hout & Hm).
    exists merged. split; [exact Hout |]. split; [exact Hm |].
    destruct (consolidatePackageUpdates_fields (a :: r) T a r eq_refl)
      as (m & Hm' & _ & _ & _ & Hty & Hfile).
    rewrite Hm in Hm'. inversion Hm'; subst m. split; [| exact Hfile].
    rewrite Hty. apply typeIs_true.
    assert (Ha : In a (List.filter (typeIs packageUpdate) steps)) by (rewrite Hgroup; now left).
    now apply filter_In in Ha.
Qed.

(** File consolidation neither adds nor removes a package-update step
    when no package-update step names a file. *)
Lemma package_steps_after_file (steps : list UpgradeStep) :
  (forall s, In s steps -> typeIs packageUpdate s = true -> hasFile s = false) ->
  List.filter (typeIs packageUpdate) (consolidateByAffectedFile steps)
  = List.filter (typeIs packageUpdate) steps.
Proof.
  intros Hfree. rewrite consolidateByAffectedFile_eq, List.filter_app.
  rewrite filter_filter_implied.
  2:{ intros x Hx Hp. now rewrite (Hfree x Hx Hp). }
  rewrite filter_none; [reflexivity |].
  intros e He. apply in_flat_map in He as [[k g] [Hin He]].
  destruct (grouped_file_members _ _ _ Hin) as (_ & Hk & Hg).
  assert (Hmembers : forall s, In s g -> typeIs packageUpdate s = false).
  { intros s Hs. rewrite Hg in Hs. apply filter_In in Hs as [Hs Hf].
    apply fileIs_true in Hf.
    destruct (typeIs packageUpdate s) eqn:E; [| reflexivity].
    specialize (Hfree s Hs E). unfold hasFile in Hfree. rewrite Hf in Hfree.
    simpl in Hfree. congruence. }
  unfold emitFileGroup in He. destruct g as [| a [| b r]].
  - destruct He.
  - destruct He as [<- | []]. apply Hmembers. now left.
  - destruct (consolidateFileSteps (a :: b :: r) k) as [m |] eqn:Hm; [| destruct He].
    destruct He as [<- | []].
    destruct (consolidateFileSteps_type _ _ _ Hm) as (ty & Hty & _ & _ & [-> | (s & Hs & Hst)]).
    + unfold typeIs. now rewrite Hty.
    + specialize (Hmembers s Hs). unfold typeIs in Hmembers |- *.
      rewrite Hst in Hmembers. rewrite Hty. exact Hmembers.
Qed.

(** X14. On a catalog in which no type is the name of a property that
    objects inherit: when the window holds package updates, the result of
    the pipeline begins with their merge and holds no other package-update
    step; when it holds none, the result holds none either. *)
Theorem merged_package_update_comes_first (md5 : string -> string)
    (allSteps : list UpgradeStep) (fromVersion toVersion : Q)
    (plain : Forall plainlyTyped allSteps) :
  match List.filter (typeIs packageUpdate) (relevantSteps allSteps fromVersion toVersion) with
  | [] =>
      List.filter (typeIs packageUpdate) (pipeline md5 allSteps fromVersion toVersion) = []
  | group =>
      exists merged rest,
        pipeline md5 allSteps fromVersion toVersion = merged :: rest
        /\ consolidatePackageUpdates group toVersion = Some merged
        /\ List.filter (typeIs packageUpdate) rest = []
  end.
Proof.
  set (relevant := relevantSteps allSteps fromVersion toVersion).
  pose proof (package_steps_after_type md5 relevant toVersion) as Htype.
  set (typed := consolidateByType md5 relevant toVersion) in *.
  assert (Hfile : List.filter (typeIs packageUpdate) (consolidateByAffectedFile typed)
                  = List.filter (typeIs packageUpdate) typed).
  { apply package_steps_after_file. intros s Hs Hp.
    assert (Hin : In s (List.filter (typeIs packageUpdate) typed))
      by (apply filter_In; now split).
    destruct (List.filter (typeIs packageUpdate) relevant) as [| a r].
    - rewrite Htype in Hin. destruct Hin.
    - destruct Htype as (m & Hout & _ & _ & Hnofile). rewrite Hout in Hin.
      destruct Hin as [<- | []]. unfold hasFile. now rewrite Hnofile. }
  assert (Hresult : pipeline md5 allSteps fromVersion toVersion
                    = sort keyCompare (consolidateByAffectedFile typed))
    by apply (pipeline_by_key md5 _ _ _ plain).
  pose proof (sort_perm keyCompare (consolidateByAffectedFile typed)) as Hperm.
  pose proof (sort_sorted keyCompare keyCompare_total keyCompare_trans
                (consolidateByAffectedFile typed)) as Hsorted.
  pose proof (Permutation_filter_length (typeIs packageUpdate) _ _ Hperm) as Hlen.
  rewrite Hfile in Hlen. rewrite Hresult.
  destruct (List.filter (typeIs packageUpdate) relevant) as [| a r].
  - rewrite Htype in Hlen. simpl in Hlen.
    now apply length_zero_iff_nil.
  - destruct Htype as (merged & Hout & Hm & Hty & _). rewrite Hout in Hlen. simpl in Hlen.
    assert (Hmerged : In merged (sort keyCompare (consolidateByAffectedFile typed))).
    { eapply Permutation_in; [exact Hperm |].
      assert (H : In merged (List.filter (typeIs packageUpdate)
                               (consolidateByAffectedFile typed)))
        by (rewrite Hfile, Hout; now left).
      now apply filter_In in H. }
    destruct (sort keyCompare (consolidateByAffectedFile typed)) as [| h rest];
      [destruct Hmerged |].
    assert (Hh : typeIs packageUpdate h = true).
    { destruct Hmerged as [-> | Hin]; [now apply typeIs_true |].
      apply sorted_head_least in Hsorted. rewrite List.Forall_forall in Hsorted.
      specialize (Hsorted merged Hin). apply keyCompare_keyLe in Hsorted.
      unfold keyLe, priorityOf in Hsorted. rewrite Hty in Hsorted.
      assert (Hone : priorityOfType (Some packageUpdate) = 1%Q) by (vm_compute; reflexivity).
      rewrite Hone in Hsorted.
      destruct (priority_cases (stepType h)) as [[Hp _] | Hp];
        [now apply typeIs_true |].
      exfalso. destruct Hsorted as [H | [H _]]; lra. }
    simpl in Hlen. rewrite Hh in Hlen. simpl in Hlen.
    assert (Hrest : List.filter (typeIs packageUpdate) rest = []).
    { apply length_zero_iff_nil. lia. }
    exists h, rest. split; [| split; [| exact Hrest]].
    + reflexivity.
    + destruct Hmerged as [-> | Hin]; [exact Hm |].
      exfalso. assert (H : In merged (List.filter (typeIs packageUpdate) rest)).
      { apply filter_In. split; [exact Hin | now apply typeIs_true]. }
      rewrite Hrest in H. destruct H.
Qed.

Lemma merged_package_update_comes_first_witness :
  Forall plainlyTyped pipelineSample
  /\ exists merged rest,
       pipeline (fun s => s) pipelineSample 13 15 = merged :: rest
       /\ instruction merged = "Update Next.js to 15"
       /\ List.filter (typeIs packageUpdate) rest = [].
Proof.
  assert (H : Forall plainlyTyped pipelineSample) by (repeat constructor).
  split; [exact H |].
  destruct (merged_package_update_comes_first (fun s => s) pipelineSample 13 15 H)
    as (merged & rest & Hp & Hm & Hrest).
  exists merged, rest. split; [exact Hp |]. split; [| exact Hrest].
  vm_compute in Hm. inversion Hm. reflexivity.
Defined.

(** ** Which identifiers select a catalog *)








Example frameworkKey_rejects_two_dots :
  frameworkKey "Next.J.S" = "nextj.s" /\ frameworkKey "next-js" = "next-js".
Proof. split; reflexivity. Qed.

(** X23. For an identifier that does not normalize to a supported key,
    under the specification's normalization (letter case and punctuation
    ignored) or under the loader's own key, the pipeline returns the empty
    sequence, throws nothing, and [hasUpgradePath] returns false, whatever
    the two catalogs hold. *)
Theorem unsupported_identifier_gives_nothing (md5 : string -> string)
    (nextjsSteps angularSteps : list UpgradeStep)
    (framework : string) (fromVersion toVersion : Q)
    (unsupported : ~ supportedKey (specNormalize framework)
                   \/ ~ supportedKey (frameworkKey framework)) :
  getUpgradeSteps md5 nextjsSteps angularSteps framework fromVersion toVersion
  = Returned []
  /\ hasUpgradePath md5 nextjsSteps angularSteps framework fromVersion toVersion
     = Returned false.
Proof.
  apply unsupported_gives_nothing.
  destruct unsupported as [H | H]; [| exact H].
  intros Hk. apply H. now apply supported_frameworkKey_normalizes.
Qed.

Lemma unsupported_identifier_gives_nothing_witness :
  getUpgradeSteps (fun s => s) pipelineSample typedSample "Vue" 13 15 = Returned []
  /\ hasUpgradePath (fun s => s) pipelineSample typedSample "Vue" 13 15 = Returned false.
Proof.
  apply (unsupported_identifier_gives_nothing (fun s => s) pipelineSample typedSample
           "Vue" 13 15).
  left. intros [H | H]; discriminate H.
Defined.

(** ** The two data layers *)

Lemma consolidateByAffectedFile_no_files (steps : list UpgradeStep) :
  (forall s, In s steps -> hasFile s = false) ->
  consolidateByAffectedFile steps = steps.
Proof.
  intros H. unfold consolidateByAffectedFile.
  assert (Hkeyless : forall s, In s steps -> fileKey s = None).
  { intros s Hs. specialize (H s Hs). rewrite <- negb_true_iff, <- unkeyed_fileKey in H.
    unfold unkeyed in H. now destruct (fileKey s). }
  pose proof (groupSteps_app_unkeyed fileKey [] steps Hkeyless) as Hg.
  cbn [app] in Hg. rewrite Hg. reflexivity.
Qed.

(** X16. On a catalog whose steps inside the window name no file, the
    earlier data layer, which has no consolidation by file, and the
    current one return the same result. *)
Theorem legacy_layer_agrees_without_files (md5 : string -> string)
    (allSteps : list UpgradeStep) (fromVersion toVersion : Q)
    (no_files : forall s, In s allSteps -> contained fromVersion toVersion s ->
                  hasFile s = false) :
  Legacy.stages md5 allSteps fromVersion toVersion
  = pipeline md5 allSteps fromVersion toVersion.
Proof.
  unfold Legacy.stages, pipeline, consolidateSimilarSteps.
  change (Legacy.consolidateSimilarSteps md5) with (consolidateByType md5).
  rewrite consolidateByAffectedFile_no_files; [reflexivity |].
  intros s Hs. apply consolidateByType_origin in Hs as [Hs | (g & _ & Hm)].
  - apply filter_In in Hs as [Hs Hw]. apply no_files; [exact Hs |].
    now apply inWindow_contained.
  - destruct g as [| a r]; [discriminate |].
    destruct (consolidatePackageUpdates_fields (a :: r) toVersion a r eq_refl)
      as (m & Hm' & _ & _ & _ & _ & Hfile).
    rewrite Hm in Hm'. inversion Hm'; subst m. unfold hasFile. now rewrite Hfile.
Qed.

Lemma legacy_layer_agrees_without_files_witness :
  Legacy.stages (fun s => s) typedSample 13 15 = pipeline (fun s => s) typedSample 13 15.
Proof.
  apply (legacy_layer_agrees_without_files (fun s => s) typedSample 13 15).
  intros s [<- | [<- | [<- | [<- | []]]]] _; reflexivity.
Defined.

(** ** The badge of a step and its place in the order *)





(** ** The lines of a rendered description *)

Lemma dropBulletChars_spec (l : list ascii) :
  exists dropped,
    l = dropped ++ dropBulletChars l
    /\ Forall (fun c => isBulletChar c = true) dropped
    /\ (forall c r, dropBulletChars l = c :: r -> isBulletChar c = false).
Proof.
  induction l as [| c l (dropped & Hl & Hd & Hhead)]; simpl.
  - exists []. repeat split; [constructor | discriminate].
  - destruct (isBulletChar c) eqn:Ec.
    + exists (c :: dropped). simpl. rewrite <- Hl.
      repeat split; [now constructor | exact Hhead].
    + exists []. repeat split; [constructor |].
      intros c' r H. now inversion H; subst.
Qed.

(** X18. The text of a rendered list item is the line without its longest
    head of white space, "-" and "*": it never begins with one of them. *)
Theorem list_item_has_no_marker (line text : string)
    (is_item : formatLine line = ListItem text) :
  exists dropped,
    JS.chars line = dropped ++ JS.chars text
    /\ Forall (fun c => isBulletChar c = true) dropped
    /\ (forall c r, JS.chars text = c :: r -> isBulletChar c = false).
Proof.
  unfold formatLine in is_item.
  destruct (JS.startsWith line "```"); [discriminate |].
  destruct (JS.startsWith (JS.trim line) "#"); [discriminate |].
  destruct (JS.startsWith (JS.trim line) "- " || JS.startsWith (JS.trim line) "* ").
  - inversion is_item. unfold stripBullet. rewrite chars_str.
    apply dropBulletChars_spec.
  - destruct (Nat.eqb (String.length (JS.trim line)) 0); discriminate.
Qed.

Lemma list_item_has_no_marker_witness :
  formatLine "  - * install the package" = ListItem "install the package".
Proof.
  destruct (list_item_has_no_marker "  - * install the package" "install the package"
              eq_refl) as (dropped & _ & _ & _).
  reflexivity.
Defined.

(** X19. The text of a rendered heading: when the line begins with "#", it
    is the line without all its leading "#"s and all the white space after
    them; when the line is indented, the pattern, anchored at the start,
    finds nothing and the text is the whole line, "#"s included. *)
Theorem heading_text (line text : string)
    (is_heading : formatLine line = Heading text) :
  (exists hashes spaces,
     JS.chars line = hashes ++ spaces ++ JS.chars text
     /\ hashes <> []
     /\ Forall (fun c => c = "#"%char) hashes
     /\ Forall (fun c => JS.isWhiteSpace c = true) spaces
     /\ (forall c r, spaces ++ JS.chars text = c :: r -> c <> "#"%char)
     /\ (forall c r, JS.chars text = c :: r -> JS.isWhiteSpace c = false))
  \/ (text = line /\ JS.startsWith line "#" = false).
Proof.
  unfold formatLine in is_heading.
  destruct (JS.startsWith line "```"); [discriminate |].
  destruct (JS.startsWith (JS.trim line) "#");
    [| destruct (JS.startsWith (JS.trim line) "- " || JS.startsWith (JS.trim line) "* ");
       [discriminate | destruct (Nat.eqb (String.length (JS.trim line)) 0); discriminate]].
  inversion is_heading as [Htext]. clear is_heading.
  unfold replaceAtStart. cbn [reHashes pattern ignoreCase].
  destruct (matchHere false (Seq (Plus (AChar "#")) (Star ASpace)) (JS.chars line))
    as [rest |] eqn:Em.
  - left. simpl. rewrite chars_str.
    unfold matchHere in Em. cbn [run] in Em. unfold plus in Em.
    destruct (JS.chars line) as [| c s] eqn:Hline; [discriminate |].
    destruct (atomb false (AChar "#") c) eqn:Ec; [| discriminate].
    apply star_stops in Em as (m1 & rest1 & -> & Hm1 & Hstop1 & Hk).
    2:{ right. intros s' Hnone.
        destruct (star_continues false ASpace s' Some s' eq_refl) as [y Hy]. congruence. }
    apply star_stops in Hk as (m2 & rest2 & -> & Hm2 & Hstop2 & Hk);
      [| right; discriminate].
    inversion Hk; subst rest2.
    exists (c :: m1), m2. split; [reflexivity |].
    split; [discriminate |]. split; [| split; [exact Hm2 | split; [| exact Hstop2]]].
    + constructor.
      * change (Ascii.eqb "#" c = true) in Ec. apply Ascii.eqb_eq in Ec. now symmetry.
      * eapply List.Forall_impl; [| exact Hm1].
        intros x Hx. change (Ascii.eqb "#" x = true) in Hx.
        apply Ascii.eqb_eq in Hx. now symmetry.
    + intros c' r Hr Hc'. specialize (Hstop1 c' r Hr). subst c'. discriminate Hstop1.
  - right. split; [reflexivity |].
    unfold JS.startsWith. change (JS.chars "#") with ["#"%char].
    destruct (JS.chars line) as [| c s] eqn:Hline; [reflexivity |].
    cbn [JS.isPrefixL]. destruct (Ascii.eqb_spec "#"%char c) as [<- | _]; [| reflexivity].
    exfalso. apply (matchHere_none _ _ _ Em).
    exists ["#"%char], s. split; [reflexivity |].
    change ["#"%char] with (["#"%char] ++ []).
    constructor; [constructor; [reflexivity | constructor] | constructor; constructor].
Qed.

Lemma heading_text_witness :
  formatLine "## Install" = Heading "Install"
  /\ formatLine "  ## Install" = Heading "  ## Install".
Proof.
  destruct (heading_text "## Install" "Install" eq_refl) as [_ | [_ _]];
    split; reflexivity.
Defined.

(** ** The merged description *)

Lemma fold_left_invariant {A B} (I : A -> Prop) (f : A -> B -> A) (l : list B) (a : A) :
  I a -> (forall st x, In x l -> I st -> I (f st x)) -> I (fold_left f l a).
Proof.
  revert a. induction l as [| x l IH]; intros a Ha Hstep; simpl; [exact Ha |].
  apply IH.
  - apply Hstep; [now left | exact Ha].
  - intros st y Hy. apply Hstep. now right.
Qed.

Lemma update_add_ok (P : string -> Prop) (k x : string) (m : OMap.t OSet.t) :
  SectionsOk P m -> P x -> SectionsOk P (OMap.update k (OSet.add x) m).
Proof.
  intros [Hnd Hall] Hx. split; [now rewrite update_keys |].
  intros name content Hin. apply (update_In _ _ _ _ _ Hnd) in Hin.
  destruct Hin as [[_ Hin] | [-> (v & Hin & ->)]]; [exact (Hall _ _ Hin) |].
  destruct (Hall _ _ Hin) as [Hv HP]. split; [now apply OSet_add_NoDup |].
  apply List.Forall_forall. intros y Hy. apply OSet_add_In in Hy as [Hy | ->].
  - rewrite List.Forall_forall in HP. now apply HP.
  - exact Hx.
Qed.

Lemma set_empty_ok (P : string -> Prop) (k : string) (m : OMap.t OSet.t) :
  SectionsOk P m -> OMap.has k m = false -> SectionsOk P (OMap.set k [] m).
Proof.
  intros [Hnd Hall] Hhas. rewrite (set_absent _ _ _ Hhas). split.
  - rewrite map_app. simpl. apply List.NoDup_app; [exact Hnd | |].
    + constructor; [intros [] | constructor].
    + intros a Ha [<- | []]. now apply has_false_notin in Hhas.
  - intros name content Hin. apply in_app_or in Hin as [Hin | [Heq | []]].
    + exact (Hall _ _ Hin).
    + inversion Heq. split; constructor.
Qed.

Lemma saveSection_ok (P : string -> Prop) (sections : OMap.t OSet.t)
    (currentSection : string) (currentContent : OSet.t) :
  SectionsOk P sections -> Forall P currentContent ->
  SectionsOk P (saveSection sections currentSection currentContent).
Proof.
  intros Hok Hcontent. unfold saveSection.
  destruct (Nat.ltb 0 (OSet.size currentContent)); [| exact Hok].
  apply fold_left_invariant.
  - destruct (OMap.has currentSection sections) eqn:E; [exact Hok |].
    now apply set_empty_ok.
  - intros st x Hx Hst. apply update_add_ok; [exact Hst |].
    rewrite List.Forall_forall in Hcontent. now apply Hcontent.
Qed.

Lemma scanLine_ok (steps : list UpgradeStep) (step : UpgradeStep) (raw : string)
    (st : OMap.t OSet.t * string * OSet.t) :
  In step steps -> In raw (JS.splitLines (detailedDescription step)) ->
  SectionsOk (contentLineOf steps) (fst (fst st)) /\ Forall (contentLineOf steps) (snd st) ->
  SectionsOk (contentLineOf steps) (fst (fst (scanLine st raw)))
  /\ Forall (contentLineOf steps) (snd (scanLine st raw)).
Proof.
  intros Hstep Hraw. destruct st as [[sections cur] content]. cbn [fst snd].
  intros [Hok Hcontent]. unfold scanLine.
  destruct (isSectionHeader (JS.trim raw)) eqn:Eh; cbn [fst snd].
  - split; [now apply saveSection_ok | constructor].
  - destruct (Nat.ltb 0 (String.length (JS.trim raw))) eqn:El; cbn [fst snd];
      [| now split].
    split; [exact Hok |].
    apply List.Forall_forall. intros y Hy. apply OSet_add_In in Hy as [Hy | ->].
    + rewrite List.Forall_forall in Hcontent. now apply Hcontent.
    + exists step, raw. repeat split; try assumption.
      intros Hempty. rewrite Hempty in El. discriminate.
Qed.

Lemma scanStep_ok (steps : list UpgradeStep) (step : UpgradeStep)
    (sections : OMap.t OSet.t) :
  In step steps ->
  SectionsOk (contentLineOf steps) sections ->
  SectionsOk (contentLineOf steps) (scanStep sections step).
Proof.
  intros Hstep Hok. unfold scanStep.
  assert (H : SectionsOk (contentLineOf steps)
                (fst (fst (fold_left scanLine (JS.splitLines (detailedDescription step))
                             (sections, "general", []))))
              /\ Forall (contentLineOf steps)
                   (snd (fold_left scanLine (JS.splitLines (detailedDescription step))
                           (sections, "general", [])))).
  { apply (fold_left_invariant
             (fun st => SectionsOk (contentLineOf steps) (fst (fst st))
                        /\ Forall (contentLineOf steps) (snd st))).
    - split; [exact Hok | constructor].
    - intros st raw Hraw Hst. exact (scanLine_ok steps step raw st Hstep Hraw Hst). }
  destruct (fold_left scanLine _ (sections, "general", [])) as [[sections' cur] content].
  cbn [fst snd] in H. destruct H as [Hok' Hcontent].
  now apply saveSection_ok.
Qed.

Lemma sectionsOf_ok (steps : list UpgradeStep) :
  SectionsOk (contentLineOf steps) (sectionsOf steps).
Proof.
  unfold sectionsOf. apply fold_left_invariant.
  - split; [constructor | intros name content []].
  - intros st step Hstep Hst. now apply scanStep_ok.
Qed.

(** X20. The sections collected from the descriptions of a file group:
    every section name occurs once, no line occurs twice in a section, and
    every line of a section is a line of some member's description,
    trimmed, that is neither empty nor a section header. *)
Theorem sections_hold_member_lines_once (steps : list UpgradeStep) :
  List.NoDup (map fst (sectionsOf steps))
  /\ forall name content, In (name, content) (sectionsOf steps) ->
       List.NoDup content /\ Forall (contentLineOf steps) content.
Proof. exact (sectionsOf_ok steps). Qed.

Lemma emitSection_lines (Q : string -> Prop) (sections : OMap.t OSet.t)
    (acc : list string) (index : Z) :
  Forall Q acc ->
  (forall name content, In (name, content) sections ->
     Q "" /\ (name <> "general" -> forall i, Q (headerLine i name))
     /\ Forall Q (List.filter keepLine content)) ->
  Forall Q (fst (fold_left emitSection sections (acc, index))).
Proof.
  revert acc index. induction sections as [| [name content] sections IH];
    intros acc index Hacc Hsec; [exact Hacc |].
  cbn [fold_left]. unfold emitSection at 2.
  destruct (Hsec name content (or_introl eq_refl)) as (Hblank & Hheader & Hcontent).
  destruct (String.eqb_spec name "general") as [-> | Hne]; cbn [negb];
    apply IH; try (intros n c Hin; apply Hsec; now right).
  - apply Forall_app. split; [exact Hacc |].
    apply Forall_app. split; [exact Hcontent | now constructor].
  - apply Forall_app. split.
    + apply Forall_app. split; [exact Hacc |]. constructor; [| constructor].
      now apply Hheader.
    + apply Forall_app. split; [exact Hcontent | now constructor].
Qed.

(** X21. The merged description is the trimmed join of lines each of which
    is empty, the numbered header of a section that is not the general
    one, or a content line of some member's description that is neither a
    code-fence marker nor a numbered line. *)
Theorem merged_description_lines (steps : list UpgradeStep) :
  mergeDetailedDescriptions steps
  = JS.trim (JS.join (String "010"%char "") (consolidatedSections steps))
  /\ Forall (fun line =>
               line = ""
               \/ (exists index name,
                     In name (map fst (sectionsOf steps)) /\ name <> "general"
                     /\ line = headerLine index name)
               \/ (contentLineOf steps line
                   /\ JS.startsWith line "```" = false
                   /\ matchesAtStart line reNumbered = false))
       (consolidatedSections steps).
Proof.
  split.
  - unfold mergeDetailedDescriptions, consolidatedSections, sectionsOf.
    now destruct (fold_left emitSection _ _).
  - unfold consolidatedSections. apply emitSection_lines; [constructor |].
    intros name content Hin. destruct (sectionsOf_ok steps) as [_ Hall].
    destruct (Hall _ _ Hin) as [_ Hcontent].
    split; [now left |]. split.
    + intros Hne i. right. left. exists i, name. split; [| now split].
      apply in_map_iff. now exists (name, content).
    + apply List.Forall_forall. intros line Hline.
      apply filter_In in Hline as [Hline Hkeep].
      right. right. rewrite List.Forall_forall in Hcontent.
      split; [now apply Hcontent |].
      unfold keepLine in Hkeep. apply andb_true_iff in Hkeep as [H1 H2].
      now rewrite negb_true_iff in H1, H2.
Qed.
